(** * milkrandom: a shallow embedding of the generator packages

    The Go packages [pcg32], [pcg64], [splitmix64], [xoshiro256starstar]
    and [mixmax] are embedded as pure functions over explicit generator
    records.  A [uint64] is a [Z] in [[0, 2^64)]; every arithmetic
    operation writes its wrap-around out through [wrap64] (a mask with
    sixteen [f] digits), a [uint32] likewise through [wrap32].  Go's [int]
    is taken as the 64-bit signed integer of the usual targets.  Panics
    and unbounded loops are made explicit by an [outcome] type and a fuel
    argument counting the draws a loop may still make. *)

From Stdlib Require Import ZArith Lia List String Strings.Byte Floats Uint63.
From stdpp Require Import list.
Import ListNotations.
Local Open Scope Z_scope.

(** ** Machine words *)

Module Word.

Definition mask64 : Z := 0xffffffffffffffff.
Definition mask32 : Z := 0xffffffff.

Definition wrap64 (x : Z) : Z := Z.land x mask64.
Definition wrap32 (x : Z) : Z := Z.land x mask32.

Definition add64 (a b : Z) : Z := wrap64 (a + b).
Definition sub64 (a b : Z) : Z := wrap64 (a - b).
Definition mul64 (a b : Z) : Z := wrap64 (a * b).
Definition shl64 (x n : Z) : Z := wrap64 (Z.shiftl x n).
Definition shr64 (x n : Z) : Z := Z.shiftr x n.

(** [bits.RotateLeft64(x, k)]: [s := uint(k) & 63; x<<s | x>>(64-s)]. *)
Definition RotateLeft64 (x k : Z) : Z :=
  let s := Z.land k 63 in Z.lor (shl64 x s) (shr64 x (64 - s)).

(** [bits.RotateLeft32(x, k)]: [s := uint(k) & 31; x<<s | x>>(32-s)]. *)
Definition RotateLeft32 (x k : Z) : Z :=
  let s := Z.land k 31 in
  Z.lor (wrap32 (Z.shiftl x s)) (Z.shiftr x (32 - s)).

(** [int(u)] for a [uint64] [u]: the two's complement reading. *)
Definition int_of_uint64 (u : Z) : Z :=
  if u <? 2 ^ 63 then u else u - 2 ^ 64.

(** The values of Go's [int] and [uint64]. *)
Definition is_int (n : Z) : Prop := - 2 ^ 63 <= n < 2 ^ 63.
Definition is_uint64 (x : Z) : Prop := 0 <= x < 2 ^ 64.
Definition is_uint32 (x : Z) : Prop := 0 <= x < 2 ^ 32.

(** [binary.LittleEndian.Uint64(b)]: the first eight bytes, least
    significant first.  The Go function panics on a shorter slice; every
    caller below has checked the length before. *)
Fixpoint le_combine (bs : list byte) : Z :=
  match bs with
  | [] => 0
  | b :: bs' => Z.of_N (Byte.to_N b) + 256 * le_combine bs'
  end.

Definition le_uint64 (bs : list byte) : Z := le_combine (take 8 bs).

(** [data[k:]] *)
Definition slice_from (k : Z) (data : list byte) : list byte :=
  drop (Z.to_nat k) data.

(** [byte(v)]: the low eight bits of [v]. *)
Definition byte_of (v : Z) : byte :=
  match Byte.of_N (Z.to_N (Z.land v 0xff)) with
  | Some b => b
  | None => x00
  end.

(** The bytes [byte(v)], [byte(v >> 8)], ... that
    [binary.LittleEndian.PutUint64] stores, for [n = 8]. *)
Fixpoint le_bytes (n : nat) (v : Z) : list byte :=
  match n with
  | O => []
  | S n' => byte_of v :: le_bytes n' (Z.shiftr v 8)
  end.

(** [binary.LittleEndian.PutUint64(buf[off:], v)]: the cells [off] to
    [off + 7] of [buf] are overwritten.  Go panics when [buf] is shorter;
    every caller below has allocated the buffer to its full size. *)
Definition PutUint64 (off : nat) (v : Z) (buf : list byte) : list byte :=
  take off buf ++ le_bytes 8 v ++ drop (off + 8) buf.

(** [int32(u)] for a [uint32] [u]. *)
Definition int32_of_uint32 (u : Z) : Z :=
  if u <? 2 ^ 31 then u else u - 2 ^ 32.

End Word.

Import Word.

(** ** Results of calls that may panic or loop *)

Variant panic_kind : Type :=
| PanicMessage (msg : string)      (* an explicit [panic("...")] *)
| DivideByZero                     (* runtime: integer divide by zero *)
| IndexOutOfRange.                 (* runtime: index out of range *)

Variant outcome (A : Type) : Type :=
| Return (a : A)
| Panics (k : panic_kind)
| StillLooping.                    (* every draw the fuel allowed was rejected *)

Arguments Return {A} a.
Arguments Panics {A} k.
Arguments StillLooping {A}.

(** ** Loops and bounded extraction shared by the packages *)

(** [for i := lo; i < hi; i++ { body }] over a loop state [S]. *)
Definition for_loop {S : Type} (lo hi : nat) (body : nat -> S -> S) (s : S) : S :=
  fold_left (fun s i => body i s) (seq lo (hi - lo)) s.

Module Bounded.

(** The acceptance thresholds: [(1<<63) - 1 - (1<<63)%uint64(n)] and
    [(1<<31) - 1 - (1<<31)%uint32(n)], in the arithmetic of their type. *)
Definition max64 (n : Z) : Z := sub64 (sub64 (2 ^ 63) 1) (2 ^ 63 mod wrap64 n).
Definition max32 (n : Z) : Z := wrap32 (wrap32 (2 ^ 31 - 1) - 2 ^ 31 mod wrap32 n).

Section Draws.
Context {G : Type} (draw : G -> Z * G).

(** The rejection loop [for v > max { v = g.Next() }]: [fuel] bounds the
    number of further draws. *)
Fixpoint redraw (fuel : nat) (max v : Z) (g : G) : option (Z * G) :=
  if v >? max then
    match fuel with
    | O => None
    | S fuel' => let '(v', g') := draw g in redraw fuel' max v' g'
    end
  else Some (v, g).

(** The body of [Int] in pcg64, splitmix64 and xoshiro256starstar: the
    three differ only in the draw ([Next] or [Uint64]) and in the text of
    the panic.  A remainder by zero is a run-time panic in Go. *)
Definition Int64 (msg : string) (fuel : nat) (g : G) (n : Z) : outcome (Z * G) :=
  if n <=? 0 then Panics (PanicMessage msg)
  else if Z.land n (n - 1) =? 0 then
    let '(v, g') := draw g in
    Return (int_of_uint64 (Z.land v (wrap64 (n - 1))), g')
  else if wrap64 n =? 0 then Panics DivideByZero
  else
    let max := max64 n in
    let '(v, g') := draw g in
    match redraw fuel max v g' with
    | None => StillLooping
    | Some (v, g'') => Return (int_of_uint64 (v mod wrap64 n), g'')
    end.

(** The body of [Int] in pcg32, over [uint32] draws. *)
Definition Int32 (msg : string) (fuel : nat) (g : G) (n : Z) : outcome (Z * G) :=
  if n <=? 0 then Panics (PanicMessage msg)
  else if Z.land n (n - 1) =? 0 then
    let '(v, g') := draw g in
    Return (Z.land v (wrap32 (n - 1)), g')
  else if wrap32 n =? 0 then Panics DivideByZero
  else
    let max := max32 n in
    let '(v, g') := draw g in
    match redraw fuel max v g' with
    | None => StillLooping
    | Some (v, g'') => Return (v mod wrap32 n, g'')
    end.

(** The [k]-th draw from [g], counted from zero, with the generator after it. *)
Fixpoint nth_draw (k : nat) (g : G) : Z * G :=
  match k with
  | O => draw g
  | S k' => nth_draw k' (snd (draw g))
  end.

End Draws.

End Bounded.

(** ** Package pcg32 *)

Module PCG32.

Record PCG32 : Type := Mk { state : Z; inc : Z }.

Definition Next (p : PCG32) : Z * PCG32 :=
  let oldState := state p in
  let p' := Mk (add64 (mul64 oldState 6364136223846793005) (inc p)) (inc p) in
  let xorshifted := wrap32 (shr64 (Z.lxor (shr64 oldState 18) oldState) 27) in
  let rot := wrap32 (shr64 oldState 59) in
  (RotateLeft32 xorshifted (- rot), p').

(** [now] stands for [uint64(time.Now().UnixNano())], read when the seed
    is zero. *)
Definition Seed (now seed : Z) (p : PCG32) : PCG32 :=
  let seed := if seed =? 0 then now else seed in
  let p := Mk 0 (inc p) in
  let p := Mk (state p) (Z.lor (shl64 seed 1) 1) in
  let p := snd (Next p) in
  let p := Mk (add64 (state p) seed) (inc p) in
  snd (Next p).

Definition Unmarshal (p : PCG32) (data : list byte) : PCG32 * option string :=
  if negb (Z.of_nat (length data) =? 16) then
    (p, Some "pcg32: invalid state length"%string)
  else
    let p := Mk (le_uint64 (slice_from 0 data)) (inc p) in
    let p := Mk (state p) (le_uint64 (slice_from 8 data)) in
    (p, None).

Definition Int : nat -> PCG32 -> Z -> outcome (Z * PCG32) :=
  Bounded.Int32 Next "pcg32: argument to Int is <= 0".

Definition Marshal (p : PCG32) : list byte * option string :=
  let buf := repeat x00 16 in
  let buf := PutUint64 0 (state p) buf in
  let buf := PutUint64 8 (inc p) buf in
  (buf, None).

Definition Int32 (p : PCG32) : Z * PCG32 :=
  let '(v, p') := Next p in (int32_of_uint32 (Z.shiftr v 1), p').

(** [float32(n)] for an integer [n]: the nearest binary32 number (24
    bits of precision, [emax = 128]), ties to even. *)
Definition float32_of_int (n : Z) : spec_float :=
  SpecFloat.binary_normalize 24 128 n 0 false.

(** [float32(p.Next()) / (1 << 32)]: the constant is a [float32], the
    division that of binary32. *)
Definition Float32 (p : PCG32) : spec_float * PCG32 :=
  let '(v, p') := Next p in
  (SpecFloat.SFdiv 24 128 (float32_of_int v) (float32_of_int (2 ^ 32)), p').

End PCG32.

(** ** Package pcg64 *)

Module PCG64.

Record uint128 : Type := U128 { low : Z; high : Z }.

Record PCG64 : Type := Mk { state : uint128; inc : uint128 }.

Definition add128 (a b : uint128) : uint128 :=
  let low0 := add64 (low a) (low b) in
  let high0 := add64 (high a) (high b) in
  let high1 := if low0 <? low a then add64 high0 1 else high0 in
  U128 low0 high1.

Definition mul128 (a b : uint128) : uint128 :=
  if (high a =? 0) && (high b =? 0) then
    U128 (mul64 (low a) (low b)) 0
  else
    let a1 := high a in let a0 := low a in
    let b1 := high b in let b0 := low b in
    let z0 := mul64 a0 b0 in
    let z2 := mul64 a1 b1 in
    let z1 := sub64 (sub64 (mul64 (add64 a0 a1) (add64 b0 b1)) z0) z2 in
    let low0 := add64 z0 (shl64 z1 64) in
    let high0 := add64 z2 (shr64 z1 64) in
    let high1 := if low0 <? z0 then add64 high0 1 else high0 in
    U128 low0 high1.

Definition multiplier : uint128 :=
  U128 0x5851f42d4c957f2d 0x14057b7ef767814f.

Definition Next (p : PCG64) : Z * PCG64 :=
  let oldState := state p in
  let p' := Mk (add128 (mul128 (state p) multiplier) (inc p)) (inc p) in
  let x := Z.lxor (high oldState) (low oldState) in
  let xorshifted := Z.lor (shr64 x 29) (shl64 x 35) in
  let rot := shr64 (high oldState) 58 in
  (RotateLeft64 xorshifted (- rot), p').

(** [now] stands for [uint64(time.Now().UnixNano())], read when the seed
    is zero. *)
Definition Seed (now seed : Z) (p : PCG64) : PCG64 :=
  let seed := if seed =? 0 then now else seed in
  let p := Mk (U128 0 0) (inc p) in
  let p := Mk (state p) (U128 (Z.lor seed 1) 0) in
  let p := snd (Next p) in
  let p := Mk (add128 (state p) (inc p)) (inc p) in
  snd (Next p).

Definition Unmarshal (p : PCG64) (data : list byte) : PCG64 * option string :=
  if negb (Z.of_nat (length data) =? 32) then
    (p, Some "pcg64: invalid state length"%string)
  else
    let p := Mk (U128 (le_uint64 (slice_from 0 data)) (high (state p))) (inc p) in
    let p := Mk (U128 (low (state p)) (le_uint64 (slice_from 8 data))) (inc p) in
    let p := Mk (state p) (U128 (le_uint64 (slice_from 16 data)) (high (inc p))) in
    let p := Mk (state p) (U128 (low (inc p)) (le_uint64 (slice_from 24 data))) in
    (p, None).

Definition Int : nat -> PCG64 -> Z -> outcome (Z * PCG64) :=
  Bounded.Int64 Next "pcg64: argument to Int is <= 0".

Definition Marshal (p : PCG64) : list byte * option string :=
  let buf := repeat x00 32 in
  let buf := PutUint64 0 (low (state p)) buf in
  let buf := PutUint64 8 (high (state p)) buf in
  let buf := PutUint64 16 (low (inc p)) buf in
  let buf := PutUint64 24 (high (inc p)) buf in
  (buf, None).

Definition Int64 (p : PCG64) : Z * PCG64 :=
  let '(v, p') := Next p in (int_of_uint64 (shr64 v 1), p').

Definition Uint32 (p : PCG64) : Z * PCG64 :=
  let '(v, p') := Next p in (wrap32 (shr64 v 32), p').

Definition Int32 (p : PCG64) : Z * PCG64 :=
  let '(v, p') := Uint32 p in (int32_of_uint32 (Z.shiftr v 1), p').

End PCG64.

(** ** Package splitmix64 *)

Module SplitMix64.

Record SplitMix64 : Type := Mk { state : Z }.

Definition Seed (seed : Z) (x : SplitMix64) : SplitMix64 := Mk seed.

Definition Uint64 (x : SplitMix64) : Z * SplitMix64 :=
  let x := Mk (add64 (state x) 0x9e3779b97f4a7c15) in
  let z := state x in
  let z := mul64 (Z.lxor z (shr64 z 30)) 0xbf58476d1ce4e5b9 in
  let z := mul64 (Z.lxor z (shr64 z 27)) 0x94d049bb133111eb in
  (Z.lxor z (shr64 z 31), x).

Definition Unmarshal (x : SplitMix64) (data : list byte)
  : SplitMix64 * option string :=
  if negb (Z.of_nat (length data) =? 8) then
    (x, Some "splitmix64: invalid state length"%string)
  else (Mk (le_uint64 data), None).

Definition Int : nat -> SplitMix64 -> Z -> outcome (Z * SplitMix64) :=
  Bounded.Int64 Uint64 "splitmix64: argument to Int is <= 0".

Definition Marshal (x : SplitMix64) : list byte * option string :=
  let buf := repeat x00 8 in
  let buf := PutUint64 0 (state x) buf in
  (buf, None).

Definition Int64 (x : SplitMix64) : Z * SplitMix64 :=
  let '(v, x') := Uint64 x in (int_of_uint64 (shr64 v 1), x').

Definition Uint32 (x : SplitMix64) : Z * SplitMix64 :=
  let '(v, x') := Uint64 x in (wrap32 (shr64 v 32), x').

Definition Int32 (x : SplitMix64) : Z * SplitMix64 :=
  let '(v, x') := Uint32 x in (int32_of_uint32 (Z.shiftr v 1), x').

End SplitMix64.

(** ** Package xoshiro256starstar *)

Module Xoshiro256StarStar.

(** [state [4]uint64], one field per array cell. *)
Record Xoshiro256StarStar : Type := Mk { s0 : Z; s1 : Z; s2 : Z; s3 : Z }.

(** The closure [splitmix64] of [Seed], over the local accumulator [s]. *)
Definition splitmix64 (s : Z) : Z * Z :=
  let s := add64 s 0x9e3779b97f4a7c15 in
  let z := s in
  let z := mul64 (Z.lxor z (shr64 z 30)) 0xbf58476d1ce4e5b9 in
  let z := mul64 (Z.lxor z (shr64 z 27)) 0x94d049bb133111eb in
  (Z.lxor z (shr64 z 31), s).

Definition Seed (now seed : Z) (x : Xoshiro256StarStar) : Xoshiro256StarStar :=
  let seed := if seed =? 0 then now else seed in
  let s := seed in
  let '(w0, s) := splitmix64 s in
  let '(w1, s) := splitmix64 s in
  let '(w2, s) := splitmix64 s in
  let '(w3, s) := splitmix64 s in
  Mk w0 w1 w2 w3.

Definition Uint64 (x : Xoshiro256StarStar) : Z * Xoshiro256StarStar :=
  let result := mul64 (RotateLeft64 (mul64 (s1 x) 5) 7) 9 in
  let t := shl64 (s1 x) 17 in
  let x := Mk (s0 x) (s1 x) (Z.lxor (s2 x) (s0 x)) (s3 x) in
  let x := Mk (s0 x) (s1 x) (s2 x) (Z.lxor (s3 x) (s1 x)) in
  let x := Mk (s0 x) (Z.lxor (s1 x) (s2 x)) (s2 x) (s3 x) in
  let x := Mk (Z.lxor (s0 x) (s3 x)) (s1 x) (s2 x) (s3 x) in
  let x := Mk (s0 x) (s1 x) (Z.lxor (s2 x) t) (s3 x) in
  let x := Mk (s0 x) (s1 x) (s2 x) (RotateLeft64 (s3 x) 45) in
  (result, x).

Definition Unmarshal (x : Xoshiro256StarStar) (data : list byte)
  : Xoshiro256StarStar * option string :=
  if negb (Z.of_nat (length data) =? 32) then
    (x, Some "xoshiro256starstar: invalid state length"%string)
  else
    let x := Mk (le_uint64 (slice_from (0 * 8) data)) (s1 x) (s2 x) (s3 x) in
    let x := Mk (s0 x) (le_uint64 (slice_from (1 * 8) data)) (s2 x) (s3 x) in
    let x := Mk (s0 x) (s1 x) (le_uint64 (slice_from (2 * 8) data)) (s3 x) in
    let x := Mk (s0 x) (s1 x) (s2 x) (le_uint64 (slice_from (3 * 8) data)) in
    (x, None).

(** The accumulator [s0, s1, s2, s3] of [Jump] is a second record. *)
Definition xor_state (a b : Xoshiro256StarStar) : Xoshiro256StarStar :=
  Mk (Z.lxor (s0 a) (s0 b)) (Z.lxor (s1 a) (s1 b))
     (Z.lxor (s2 a) (s2 b)) (Z.lxor (s3 a) (s3 b)).

Definition zero : Xoshiro256StarStar := Mk 0 0 0 0.

(** One round of the inner loop, for bit [b] of the word [w] of the
    constant: the pair is (accumulator, generator). *)
Definition jump_bit (w : Z) (b : nat)
  (ax : Xoshiro256StarStar * Xoshiro256StarStar)
  : Xoshiro256StarStar * Xoshiro256StarStar :=
  let '(acc, x) := ax in
  let acc := if negb (Z.land w (shl64 1 (Z.of_nat b)) =? 0)
             then xor_state acc x else acc in
  (acc, snd (Uint64 x)).

(** [for i := 0; i < len(jump); i++ { for b := 0; b < 64; b++ { ... } }] *)
Definition jump_loops (jump : list Z)
  (ax : Xoshiro256StarStar * Xoshiro256StarStar)
  : Xoshiro256StarStar * Xoshiro256StarStar :=
  for_loop 0 (length jump)
    (fun i ax => for_loop 0 64 (jump_bit (jump !!! i)) ax) ax.

Definition jump_with (jump : list Z) (x : Xoshiro256StarStar)
  : Xoshiro256StarStar :=
  fst (jump_loops jump (zero, x)).

Definition JUMP : list Z :=
  [0x180ec6d33cfd0aba; 0xd5a61266f0c9392c; 0xa9582618e03fc9aa; 0x39abdc4529b1661c].

Definition LONG_JUMP : list Z :=
  [0x76e15d3efefdcbbf; 0xc5004e441c522fb3; 0x77710069854ee241; 0x39109bb02acbe635].

Definition Jump (x : Xoshiro256StarStar) : Xoshiro256StarStar := jump_with JUMP x.

Definition LongJump (x : Xoshiro256StarStar) : Xoshiro256StarStar :=
  jump_with LONG_JUMP x.

Definition Int : nat -> Xoshiro256StarStar -> Z -> outcome (Z * Xoshiro256StarStar) :=
  Bounded.Int64 Uint64 "xoshiro256starstar: argument to Int is <= 0".

(** [for i, v := range x.state { PutUint64(buf[i*8:], v) }] *)
Definition Marshal (x : Xoshiro256StarStar) : list byte * option string :=
  let buf := repeat x00 32 in
  let buf := PutUint64 (0 * 8) (s0 x) buf in
  let buf := PutUint64 (1 * 8) (s1 x) buf in
  let buf := PutUint64 (2 * 8) (s2 x) buf in
  let buf := PutUint64 (3 * 8) (s3 x) buf in
  (buf, None).

Definition Int64 (x : Xoshiro256StarStar) : Z * Xoshiro256StarStar :=
  let '(v, x') := Uint64 x in (int_of_uint64 (shr64 v 1), x').

Definition Uint32 (x : Xoshiro256StarStar) : Z * Xoshiro256StarStar :=
  let '(v, x') := Uint64 x in (wrap32 (shr64 v 32), x').

Definition Int32 (x : Xoshiro256StarStar) : Z * Xoshiro256StarStar :=
  let '(v, x') := Uint32 x in (int32_of_uint32 (Z.shiftr v 1), x').

(** [New()]: a zero generator, seeded with the time [t], then ten words
    drawn and dropped.  [now] is the time [Seed] reads itself when [t]
    is zero. *)
Definition New (t now : Z) : Xoshiro256StarStar :=
  for_loop 0 10 (fun _ x => snd (Uint64 x)) (Seed now t zero).

End Xoshiro256StarStar.

(** ** Package mixmax *)

Module MIXMAX.

Definition N : nat := 240.
Definition MOD : Z := 0xfffffffffffffffe.
Definition TWOM : float := 0x1p-61%float.

(** [state [N]uint64] as a list of [N] words, [counter int]. *)
Record MIXMAX : Type := Mk { state : list Z; counter : Z }.

Definition Seed (now seed : Z) (m : MIXMAX) : MIXMAX :=
  let seed := if seed =? 0 then now else seed in
  let st := <[0%nat := seed]> (state m) in
  let st := for_loop 1 N (fun i st =>
              <[i := Z.land (add64 (mul64 (st !!! (i - 1)%nat) 6364136223846793005) 1) MOD]> st)
              st in
  Mk st 0.

Definition iterate_step (i : nat) (st : list Z) : list Z :=
  let t := st !!! ((i + 1) mod N)%nat in
  let st := <[i := Z.land (add64 (st !!! i) t) MOD]> st in
  if st !!! i <? t then <[i := add64 (st !!! i) 1]> st else st.

Definition iterate (m : MIXMAX) : MIXMAX :=
  Mk (for_loop 0 N iterate_step (state m)) (Z.of_nat N).

Definition Uint64 (m : MIXMAX) : outcome (Z * MIXMAX) :=
  let m := if counter m =? 0 then iterate m else m in
  let m := Mk (state m) (int_of_uint64 (wrap64 (counter m - 1))) in
  if (0 <=? counter m) && (counter m <? Z.of_nat N)
  then Return (state m !!! Z.to_nat (counter m), m)
  else Panics IndexOutOfRange.

Definition Unmarshal (m : MIXMAX) (data : list byte) : MIXMAX * option string :=
  if negb (Z.of_nat (length data) =? Z.of_nat N * 8 + 8) then
    (m, Some "mixmax: invalid state length"%string)
  else
    let st := for_loop 0 N (fun i st =>
                <[i := le_uint64 (slice_from (Z.of_nat i * 8) data)]> st)
                (state m) in
    (Mk st (int_of_uint64 (le_uint64 (slice_from (Z.of_nat N * 8) data))), None).

(** [float64(u)] for a [uint64] [u], rounding to nearest even: directly
    below [2^63], and through the halved value with a sticky low bit from
    there on. *)
Definition float64_of_uint64 (u : Z) : float :=
  if u <? 2 ^ 63 then PrimFloat.of_uint63 (Uint63.of_Z u)
  else PrimFloat.mul 2%float
         (PrimFloat.of_uint63 (Uint63.of_Z (Z.lor (Z.shiftr u 1) (Z.land u 1)))).

Definition Float64 (m : MIXMAX) : outcome (float * MIXMAX) :=
  match Uint64 m with
  | Return (v, m') => Return (PrimFloat.mul (float64_of_uint64 v) TWOM, m')
  | Panics k => Panics k
  | StillLooping => StillLooping
  end.

(** [for i, v := range m.state { PutUint64(buf[i*8:], v) }], then the
    cursor as [uint64(m.counter)]. *)
Definition Marshal (m : MIXMAX) : list byte * option string :=
  let buf := repeat x00 (N * 8 + 8) in
  let buf := for_loop 0 N (fun i buf => PutUint64 (i * 8) (state m !!! i) buf) buf in
  let buf := PutUint64 (N * 8) (wrap64 (counter m)) buf in
  (buf, None).

Definition Int64 (m : MIXMAX) : outcome (Z * MIXMAX) :=
  match Uint64 m with
  | Return (v, m') => Return (int_of_uint64 (shr64 v 1), m')
  | Panics k => Panics k
  | StillLooping => StillLooping
  end.

(** [for i := 0; i < k; i++ { m.Uint64() }], the words dropped. *)
Definition discard (k : nat) (m : MIXMAX) : outcome MIXMAX :=
  for_loop 0 k
    (fun _ r =>
       match r with
       | Return m =>
           match Uint64 m with
           | Return (_, m') => Return m'
           | Panics e => Panics e
           | StillLooping => StillLooping
           end
       | Panics e => Panics e
       | StillLooping => StillLooping
       end)
    (Return m).

(** [New()]: a zero generator, seeded with the time [t], warmed up by ten
    draws.  [now] is the time [Seed] reads itself when [t] is zero. *)
Definition New (t now : Z) : outcome MIXMAX :=
  discard 10 (Seed now t (Mk (repeat 0 N) 0)).

End MIXMAX.

(** * Facts about the embedding *)

(** ** Words *)

Module WordFacts.

Lemma mask64_ones : mask64 = Z.ones 64.
Proof. reflexivity. Qed.

Lemma mask32_ones : mask32 = Z.ones 32.
Proof. reflexivity. Qed.

Lemma wrap64_mod (x : Z) : wrap64 x = x mod 2 ^ 64.
Proof. unfold wrap64. rewrite mask64_ones. apply Z.land_ones. lia. Qed.

Lemma wrap32_mod (x : Z) : wrap32 x = x mod 2 ^ 32.
Proof. unfold wrap32. rewrite mask32_ones. apply Z.land_ones. lia. Qed.

Lemma wrap64_range (x : Z) : 0 <= wrap64 x < 2 ^ 64.
Proof. rewrite wrap64_mod. apply Z.mod_pos_bound. lia. Qed.

Lemma wrap32_range (x : Z) : 0 <= wrap32 x < 2 ^ 32.
Proof. rewrite wrap32_mod. apply Z.mod_pos_bound. lia. Qed.

Lemma wrap64_small (x : Z) : 0 <= x < 2 ^ 64 -> wrap64 x = x.
Proof. intros H. rewrite wrap64_mod. apply Z.mod_small. exact H. Qed.

Lemma wrap32_small (x : Z) : 0 <= x < 2 ^ 32 -> wrap32 x = x.
Proof. intros H. rewrite wrap32_mod. apply Z.mod_small. exact H. Qed.

Lemma wrap64_idem (x : Z) : wrap64 (wrap64 x) = wrap64 x.
Proof. apply wrap64_small, wrap64_range. Qed.

(** Go shifts a [uint64] by its full width to zero, both ways. *)
Lemma shl64_width (x : Z) : shl64 x 64 = 0.
Proof.
  unfold shl64. rewrite wrap64_mod, Z.shiftl_mul_pow2 by lia.
  apply Z.mod_mul. lia.
Qed.

Lemma shr64_width (x : Z) : 0 <= x < 2 ^ 64 -> shr64 x 64 = 0.
Proof.
  intros H. unfold shr64. rewrite Z.shiftr_div_pow2 by lia.
  apply Z.div_small. exact H.
Qed.



Lemma land_le_r (a b : Z) : 0 <= b -> Z.land a b <= b.
Proof.
  intros Hb.
  assert (E : Z.ldiff (Z.land a b) b = 0).
  { apply Z.bits_inj'. intros n Hn.
    rewrite Z.ldiff_spec, Z.land_spec, Z.bits_0.
    destruct (Z.testbit a n), (Z.testbit b n); reflexivity. }
  apply Z.sub_nocarry_ldiff in E.
  assert (0 <= Z.ldiff b (Z.land a b)) by (apply Z.ldiff_nonneg; left; exact Hb).
  lia.
Qed.

Lemma land_lxor_distr_l (a b c : Z) :
  Z.land (Z.lxor a b) c = Z.lxor (Z.land a c) (Z.land b c).
Proof.
  apply Z.bits_inj'. intros n Hn.
  rewrite Z.lxor_spec, !Z.land_spec, Z.lxor_spec.
  destruct (Z.testbit a n), (Z.testbit b n), (Z.testbit c n); reflexivity.
Qed.

Lemma int_of_uint64_small (u : Z) : 0 <= u < 2 ^ 63 -> int_of_uint64 u = u.
Proof.
  intros H. unfold int_of_uint64.
  destruct (Z.ltb_spec u (2 ^ 63)); [reflexivity|lia].
Qed.

End WordFacts.

Import WordFacts.

(** ** pcg32: seeding *)

Module PCG32Facts.
Import PCG32.

(** The seeding procedure in the words of the specification, for the
    64-bit state of pcg32. *)
Definition seed_procedure (inc0 addend : Z) : PCG32 :=
  let p := Mk 0 inc0 in
  let p := snd (Next p) in
  let p := Mk (add64 (state p) addend) (inc p) in
  snd (Next p).

End PCG32Facts.

(** ** pcg64: the 128-bit helpers *)

Module PCG64Facts.
Import PCG64.

(** The number a [uint128] stands for. *)
Definition value128 (a : uint128) : Z := low a + 2 ^ 64 * high a.

Definition wf128 (a : uint128) : Prop := is_uint64 (low a) /\ is_uint64 (high a).

Lemma add64_mul64_0 (x y : Z) : add64 (mul64 x y) 0 = mul64 x y.
Proof. unfold add64, mul64. rewrite Z.add_0_r. apply wrap64_idem. Qed.

(** What [mul128] computes on either path: the two word products, each
    truncated to 64 bits; the cross terms and the carry out of the low
    product never reach the result, because [z1 << 64] and [z1 >> 64]
    are both zero on a [uint64]. *)
Lemma mul128_words (a b : uint128) :
  wf128 a -> wf128 b ->
  mul128 a b = U128 (mul64 (low a) (low b)) (mul64 (high a) (high b)).
Proof.
  intros [Hal Hah] [Hbl Hbh]. unfold mul128.
  destruct ((high a =? 0) && (high b =? 0)) eqn:E.
  - apply andb_prop in E as [Ea Eb].
    apply Z.eqb_eq in Ea. rewrite Ea. reflexivity.
  - cbv zeta. rewrite shl64_width.
    rewrite shr64_width by (unfold sub64; apply wrap64_range).
    rewrite !add64_mul64_0, Z.ltb_irrefl. reflexivity.
Qed.

(** C1 (defect of the code): at [a = {low: 1, high: 1}] and
    [b = {low: 1, high: 0}] the product modulo [2^128] is [a] itself,
    [2^64 + 1], while [mul128] returns [{low: 1, high: 0}]: the Karatsuba
    middle term is shifted out of its 64-bit word before it is used. *)
Theorem mul128_failing_input :
  mul128 (U128 1 1) (U128 1 0) = U128 1 0 /\
  (value128 (U128 1 1) * value128 (U128 1 0)) mod 2 ^ 128 = 2 ^ 64 + 1 /\
  value128 (mul128 (U128 1 1) (U128 1 0))
    <> (value128 (U128 1 1) * value128 (U128 1 0)) mod 2 ^ 128.
Proof. repeat split. vm_compute. discriminate. Qed.

(** The same on the short path: the high half of a 64 by 64 product is
    dropped, [2^32 * 2^32] comes out as zero. *)
Lemma mul128_short_path_truncates :
  mul128 (U128 (2 ^ 32) 0) (U128 (2 ^ 32) 0) = U128 0 0 /\
  (value128 (U128 (2 ^ 32) 0) * value128 (U128 (2 ^ 32) 0)) mod 2 ^ 128 = 2 ^ 64.
Proof. split; reflexivity. Qed.

(** *** Seeding *)

(** The seeding procedure in the words of the specification: start from
    [state = 0] and the given increment, advance once, add [addend] into
    the state, advance once more. *)
Definition seed_procedure (inc0 addend : uint128) : PCG64 :=
  let p := Mk (U128 0 0) inc0 in
  let p := snd (Next p) in
  let p := Mk (add128 (state p) addend) (inc p) in
  snd (Next p).








End PCG64Facts.

(** ** Loops that fill an array *)

Module LoopFacts.

Lemma for_loop_unfold {S : Type} (lo hi : nat) (body : nat -> S -> S) (s : S) :
  for_loop lo hi body s = fold_left (fun s i => body i s) (seq lo (hi - lo)) s.
Proof. reflexivity. Qed.

Lemma fold_fill {A : Type} (f : nat -> A) (st : list A) (k : nat) :
  (k <= length st)%nat ->
  fold_left (fun st i => <[i := f i]> st) (seq 0 k) st
  = map f (seq 0 k) ++ drop k st.
Proof.
  induction k as [|k IH]; intros Hk.
  - rewrite drop_0. reflexivity.
  - rewrite seq_S, fold_left_app, IH by lia. cbn [fold_left Nat.add].
    destruct (lookup_lt_is_Some_2 st k) as [x Hx]; [lia|].
    rewrite insert_app_r_alt by (rewrite length_map, length_seq; lia).
    rewrite length_map, length_seq, Nat.sub_diag, (drop_S st x k Hx).
    rewrite map_app. cbn [map]. rewrite <- app_assoc. reflexivity.
Qed.

(** Writing [f i] to every cell [i] of an array leaves [f 0, ..., f (n-1)],
    whatever the array held. *)
Lemma for_loop_fill {A : Type} (f : nat -> A) (st : list A) (n : nat) :
  length st = n ->
  for_loop 0 n (fun i st => <[i := f i]> st) st = map f (seq 0 n).
Proof.
  intros Hn. rewrite for_loop_unfold, Nat.sub_0_r, fold_fill by lia.
  rewrite drop_ge by lia. apply app_nil_r.
Qed.

(** A loop invariant indexed by the loop variable. *)
Lemma fold_seq_ind {S : Type} (I : nat -> S -> Prop) (body : nat -> S -> S)
  (n lo : nat) (s : S) :
  I lo s ->
  (forall i s, (lo <= i < lo + n)%nat -> I i s -> I (Datatypes.S i) (body i s)) ->
  I (lo + n)%nat (fold_left (fun s i => body i s) (seq lo n) s).
Proof.
  revert lo s. induction n as [|n IH]; intros lo s H0 Hstep.
  - rewrite Nat.add_0_r. exact H0.
  - cbn [seq fold_left]. replace (lo + Datatypes.S n)%nat with (Datatypes.S lo + n)%nat by lia.
    apply IH.
    + apply Hstep; [lia|exact H0].
    + intros i s' Hi. apply Hstep. lia.
Qed.

Lemma for_loop_ind {S : Type} (I : nat -> S -> Prop) (body : nat -> S -> S)
  (lo hi : nat) (s : S) :
  (lo <= hi)%nat ->
  I lo s ->
  (forall i s, (lo <= i < hi)%nat -> I i s -> I (Datatypes.S i) (body i s)) ->
  I hi (for_loop lo hi body s).
Proof.
  intros Hle H0 Hstep. unfold for_loop.
  replace hi with (lo + (hi - lo))%nat at 1 by lia.
  apply fold_seq_ind; [exact H0|].
  intros i s' Hi. apply Hstep. lia.
Qed.

(** A loop over the indices of a list that only reads the cell under
    its index is a fold over the list. *)
Lemma fold_seq_lookup {S A : Type} `{Inhabited A} (body : A -> S -> S)
  (l pre : list A) (s : S) :
  fold_left (fun s i => body ((pre ++ l) !!! i) s) (seq (length pre) (length l)) s
  = fold_left (fun s a => body a s) l s.
Proof.
  revert pre s. induction l as [|a l IH]; intros pre s; [reflexivity|].
  cbn [length seq fold_left].
  rewrite (list_lookup_total_middle pre l a (length pre) eq_refl).
  specialize (IH (pre ++ [a]) (body a s)).
  rewrite <- app_assoc, length_app in IH. cbn [app length] in IH.
  rewrite Nat.add_1_r in IH. exact IH.
Qed.

Lemma for_loop_lookup {S A : Type} `{Inhabited A} (body : A -> S -> S)
  (l : list A) (s : S) :
  for_loop 0 (length l) (fun i s => body (l !!! i) s) s
  = fold_left (fun s a => body a s) l s.
Proof.
  rewrite for_loop_unfold, Nat.sub_0_r. exact (fold_seq_lookup body l [] s).
Qed.

End LoopFacts.

(** ** Unmarshal *)

Module UnmarshalFacts.

(** What [Unmarshal] must do for a format of [size] bytes: refuse any
    other length and return the receiver as it was, and on the right
    length succeed with the generator [decode data], in which nothing of
    the receiver is left. *)
Definition exact_length {G : Type}
  (Unmarshal : G -> list byte -> G * option string)
  (size : nat) (decode : list byte -> G) (g : G) (data : list byte) : Prop :=
  (length data <> size -> exists msg, Unmarshal g data = (g, Some msg)) /\
  (length data = size -> Unmarshal g data = (decode data, None)).

Definition word_at (k : Z) (data : list byte) : Z := le_uint64 (slice_from k data).

Definition decode_pcg32 (data : list byte) : PCG32.PCG32 :=
  PCG32.Mk (word_at 0 data) (word_at 8 data).

Definition decode_pcg64 (data : list byte) : PCG64.PCG64 :=
  PCG64.Mk (PCG64.U128 (word_at 0 data) (word_at 8 data))
           (PCG64.U128 (word_at 16 data) (word_at 24 data)).

Definition decode_splitmix64 (data : list byte) : SplitMix64.SplitMix64 :=
  SplitMix64.Mk (word_at 0 data).

Definition decode_xoshiro (data : list byte)
  : Xoshiro256StarStar.Xoshiro256StarStar :=
  Xoshiro256StarStar.Mk (word_at 0 data) (word_at 8 data)
                        (word_at 16 data) (word_at 24 data).

Definition decode_mixmax (data : list byte) : MIXMAX.MIXMAX :=
  MIXMAX.Mk (map (fun i => word_at (Z.of_nat i * 8) data) (seq 0 240))
            (int_of_uint64 (word_at 1920 data)).

Lemma length_test (data : list byte) (size : nat) :
  (Z.of_nat (length data) =? Z.of_nat size) = bool_decide (length data = size).
Proof.
  destruct (Z.eqb_spec (Z.of_nat (length data)) (Z.of_nat size)) as [E|E];
    symmetry; [apply bool_decide_eq_true | apply bool_decide_eq_false]; lia.
Qed.

Ltac by_length size :=
  split; intros Hlen;
  [ eexists; rewrite (length_test _ size), bool_decide_eq_false_2 by exact Hlen;
    reflexivity
  | rewrite (length_test _ size), bool_decide_eq_true_2 by exact Hlen ].

Lemma pcg32_exact (p : PCG32.PCG32) (data : list byte) :
  exact_length PCG32.Unmarshal 16 decode_pcg32 p data.
Proof.
  unfold exact_length, PCG32.Unmarshal.
  change 16 with (Z.of_nat 16). by_length 16%nat. reflexivity.
Qed.

Lemma pcg64_exact (p : PCG64.PCG64) (data : list byte) :
  exact_length PCG64.Unmarshal 32 decode_pcg64 p data.
Proof.
  unfold exact_length, PCG64.Unmarshal.
  change 32 with (Z.of_nat 32). by_length 32%nat. reflexivity.
Qed.

Lemma splitmix64_exact (x : SplitMix64.SplitMix64) (data : list byte) :
  exact_length SplitMix64.Unmarshal 8 decode_splitmix64 x data.
Proof.
  unfold exact_length, SplitMix64.Unmarshal.
  change 8 with (Z.of_nat 8). by_length 8%nat. reflexivity.
Qed.

Lemma xoshiro_exact (x : Xoshiro256StarStar.Xoshiro256StarStar) (data : list byte) :
  exact_length Xoshiro256StarStar.Unmarshal 32 decode_xoshiro x data.
Proof.
  unfold exact_length, Xoshiro256StarStar.Unmarshal.
  change 32 with (Z.of_nat 32). by_length 32%nat. reflexivity.
Qed.

Lemma mixmax_exact (m : MIXMAX.MIXMAX) (data : list byte) :
  length (MIXMAX.state m) = 240%nat ->
  exact_length MIXMAX.Unmarshal 1928 decode_mixmax m data.
Proof.
  intros Hm. unfold exact_length, MIXMAX.Unmarshal.
  change (Z.of_nat MIXMAX.N * 8 + 8) with (Z.of_nat 1928). by_length 1928%nat.
  cbn [negb]. unfold MIXMAX.N.
  rewrite (LoopFacts.for_loop_fill
             (fun i => le_uint64 (slice_from (Z.of_nat i * 8) data))) by exact Hm.
  reflexivity.
Qed.

(** C5: each of the five [Unmarshal] methods refuses every input whose
    length is not its format size (16, 32, 8, 32 and 1928 bytes) with an
    error and the generator unchanged, and on an input of exactly that
    length succeeds and replaces the whole state by the decoded words. *)
Theorem Unmarshal_exact_length
  (data : list byte) (p32 : PCG32.PCG32) (p64 : PCG64.PCG64)
  (sm : SplitMix64.SplitMix64) (xo : Xoshiro256StarStar.Xoshiro256StarStar)
  (m : MIXMAX.MIXMAX) :
  length (MIXMAX.state m) = 240%nat ->
  exact_length PCG32.Unmarshal 16 decode_pcg32 p32 data /\
  exact_length PCG64.Unmarshal 32 decode_pcg64 p64 data /\
  exact_length SplitMix64.Unmarshal 8 decode_splitmix64 sm data /\
  exact_length Xoshiro256StarStar.Unmarshal 32 decode_xoshiro xo data /\
  exact_length MIXMAX.Unmarshal 1928 decode_mixmax m data.
Proof.
  intros Hm. repeat split.
  all: first [ apply pcg32_exact | apply pcg64_exact | apply splitmix64_exact
             | apply xoshiro_exact | apply (mixmax_exact m data Hm) ].
Qed.

Lemma Unmarshal_exact_length_witness :
  let data := repeat x00 16 in
  let m := MIXMAX.Mk (repeat 0 240) 0 in
  length (MIXMAX.state m) = 240%nat /\
  exact_length PCG32.Unmarshal 16 decode_pcg32 (PCG32.Mk 1 3) data /\
  exact_length PCG64.Unmarshal 32 decode_pcg64
    (PCG64.Mk (PCG64.U128 1 0) (PCG64.U128 3 0)) data /\
  exact_length SplitMix64.Unmarshal 8 decode_splitmix64 (SplitMix64.Mk 7) data /\
  exact_length Xoshiro256StarStar.Unmarshal 32 decode_xoshiro
    (Xoshiro256StarStar.Mk 1 2 3 4) data /\
  exact_length MIXMAX.Unmarshal 1928 decode_mixmax m data.
Proof.
  split; [reflexivity|].
  apply (Unmarshal_exact_length (repeat x00 16)). reflexivity.
Defined.

End UnmarshalFacts.

(** ** mixmax *)

Module MIXMAXFacts.
Import MIXMAX LoopFacts.

Lemma land_MOD_bounds (a : Z) : 0 <= Z.land a MOD <= MOD.
Proof.
  split.
  - apply Z.land_nonneg. right. vm_compute. discriminate.
  - apply land_le_r. vm_compute. discriminate.
Qed.

Lemma MOD_uint64 : 0 <= MOD < 2 ^ 64.
Proof. vm_compute. split; [discriminate|reflexivity]. Qed.

(** Every word of the array is at most the mask [MOD]. *)
Definition bounded (st : list Z) : Prop := Forall (fun w => 0 <= w <= MOD) st.

Lemma iterate_step_bounded (i : nat) (st : list Z) :
  (i < N)%nat -> length st = N -> bounded st ->
  length (iterate_step i st) = N /\ bounded (iterate_step i st).
Proof.
  intros Hi Hlen Hb. unfold iterate_step.
  set (t := st !!! ((i + 1) mod N)%nat).
  set (e := Z.land (add64 (st !!! i) t) MOD).
  assert (Ht : 0 <= t <= MOD).
  { pose proof (Forall_lookup_total_1 _ st ((i + 1) mod N)%nat Hb) as Hall.
    cbv beta in Hall. apply Hall.
    rewrite Hlen. apply Nat.mod_upper_bound. discriminate. }
  assert (He : 0 <= e <= MOD) by apply land_MOD_bounds.
  rewrite list_lookup_total_insert_eq by lia.
  destruct (Z.ltb_spec e t) as [Hlt|Hge].
  - rewrite !length_insert. split; [exact Hlen|].
    apply Forall_insert; [apply Forall_insert; assumption|].
    unfold add64. pose proof MOD_uint64. rewrite wrap64_small; lia.
  - rewrite length_insert. split; [exact Hlen|].
    apply Forall_insert; assumption.
Qed.

Lemma iterate_bounded (m : MIXMAX) :
  length (state m) = N -> bounded (state m) ->
  length (state (iterate m)) = N /\ bounded (state (iterate m)).
Proof.
  intros Hlen Hb. unfold iterate. cbn [state].
  apply (for_loop_ind (fun _ st => length st = N /\ bounded st)).
  - lia.
  - split; assumption.
  - intros i st Hi [Hl Hbd]. apply iterate_step_bounded; [lia|assumption..].
Qed.

Lemma iterate_length (m : MIXMAX) :
  length (state m) = N -> length (state (iterate m)) = N.
Proof.
  intros Hlen. unfold iterate. cbn [state].
  apply (for_loop_ind (fun _ st => length st = N)); [lia|exact Hlen|].
  intros i st _ Hl. unfold iterate_step.
  destruct (_ <? _); rewrite ?length_insert; exact Hl.
Qed.

Lemma counter_decrement (c : Z) :
  1 <= c <= 240 -> int_of_uint64 (wrap64 (c - 1)) = c - 1.
Proof.
  intros H. rewrite wrap64_small by lia. apply int_of_uint64_small. lia.
Qed.

(** [Uint64] when the buffer is not empty: no iteration, the word under
    the decremented cursor. *)
Lemma Uint64_buffered (st : list Z) (c : Z) :
  1 <= c <= 240 ->
  Uint64 (Mk st c) = Return (st !!! Z.to_nat (c - 1), Mk st (c - 1)).
Proof.
  intros Hc. unfold Uint64. cbn [counter state].
  destruct (Z.eqb_spec c 0) as [->|_]; [lia|]. cbn [counter state].
  rewrite (counter_decrement c Hc).
  destruct (Z.leb_spec 0 (c - 1)); [|lia].
  destruct (Z.ltb_spec (c - 1) (Z.of_nat N)); [reflexivity|].
  unfold N in *. lia.
Qed.

(** [Uint64] on an empty buffer: iterate first. *)
Lemma Uint64_empty (st : list Z) :
  Uint64 (Mk st 0)
  = Return (state (iterate (Mk st 0)) !!! 239%nat, Mk (state (iterate (Mk st 0))) 239).
Proof. reflexivity. Qed.

Lemma Seed_words (now seed : Z) (m : MIXMAX) :
  length (state m) = N ->
  length (state (Seed now seed m)) = N
  /\ state (Seed now seed m) !!! 0%nat = (if seed =? 0 then now else seed)
  /\ forall j, (1 <= j < N)%nat -> 0 <= state (Seed now seed m) !!! j <= MOD.
Proof.
  intros Hlen. unfold Seed. cbn [state].
  set (s := if seed =? 0 then now else seed).
  apply (for_loop_ind (fun k st =>
           length st = N /\ st !!! 0%nat = s
           /\ forall j, (1 <= j < k)%nat -> 0 <= st !!! j <= MOD)).
  - unfold N. lia.
  - rewrite length_insert. split; [exact Hlen|]. split.
    + apply list_lookup_total_insert_eq. rewrite Hlen. unfold N. lia.
    + intros j Hj. lia.
  - intros i st Hi (Hl & H0 & Hj). rewrite length_insert.
    split; [exact Hl|]. split.
    + rewrite list_lookup_total_insert_ne by lia. exact H0.
    + intros j Hjs. destruct (Nat.eq_dec j i) as [->|Hne].
      * rewrite list_lookup_total_insert_eq by lia. apply land_MOD_bounds.
      * rewrite list_lookup_total_insert_ne by lia. apply Hj. lia.
Qed.

(** [Seed] does not mask cell 0: the seed 2^62 stays there as it is. *)
Lemma Seed_keeps_seed_unmasked :
  length (state (Mk (repeat 0 240) 0)) = N
  /\ state (Seed 0 (2 ^ 62) (Mk (repeat 0 240) 0)) !!! 0%nat = 2 ^ 62
  /\ ~ (state (Seed 0 (2 ^ 62) (Mk (repeat 0 240) 0)) !!! 0%nat <= 2 ^ 61 - 2).
Proof.
  split; [reflexivity|].
  destruct (Seed_words 0 (2 ^ 62) (Mk (repeat 0 240) 0) eq_refl) as (_ & E & _).
  change (if 2 ^ 62 =? 0 then 0 else 2 ^ 62) with (2 ^ 62) in E.
  rewrite E. split; [reflexivity|]. lia.
Qed.

(** Against the literal [MOD] of the code: after [Seed] cell 0 holds the
    seed itself, unmasked (the time value for the seed 0), and every
    other cell is at most [MOD]; [iterate] keeps an array whose words
    are all at most [MOD] that way; and [Uint64] on such a generator,
    with its cursor in [[0, 240]], returns a word that is at most
    [MOD]. *)
Theorem words_at_most_MOD (now seed : Z) (m : MIXMAX) :
  length (state m) = N ->
  (state (Seed now seed m) !!! 0%nat = (if seed =? 0 then now else seed)
   /\ forall i, (1 <= i < N)%nat -> 0 <= state (Seed now seed m) !!! i <= MOD)
  /\ (bounded (state m) -> bounded (state (iterate m)))
  /\ (bounded (state m) -> 0 <= counter m <= 240 ->
      exists v m', Uint64 m = Return (v, m') /\ 0 <= v <= MOD
                   /\ bounded (state m') /\ length (state m') = N).
Proof.
  intros Hlen. split; [|split].
  - destruct (Seed_words now seed m Hlen) as (_ & H0 & Hj). split; assumption.
  - intros Hb. apply iterate_bounded; assumption.
  - intros Hb Hc. destruct m as [st c]. cbn [state counter] in *.
    destruct (Z.eq_dec c 0) as [->|Hne].
    + rewrite Uint64_empty.
      destruct (iterate_bounded (Mk st 0) Hlen Hb) as [Hl' Hb'].
      eexists _, _. split; [reflexivity|]. cbn [state]. split; [|split; assumption].
      pose proof (Forall_lookup_total_1 _ _ 239%nat Hb') as Hall.
      cbv beta in Hall. apply Hall. rewrite Hl'. unfold N. lia.
    + rewrite Uint64_buffered by lia.
      eexists _, _. split; [reflexivity|]. cbn [state]. split; [|split; assumption].
      pose proof (Forall_lookup_total_1 _ _ (Z.to_nat (c - 1)) Hb) as Hall.
      cbv beta in Hall. apply Hall. rewrite Hlen. unfold N. lia.
Qed.

Lemma words_at_most_MOD_witness :
  let m := Mk (repeat 0 240) 0 in
  length (state m) = N
  /\ (state (Seed 0 1 m) !!! 0%nat = (if 1 =? 0 then 0 else 1)
      /\ forall i, (1 <= i < N)%nat -> 0 <= state (Seed 0 1 m) !!! i <= MOD)
  /\ (bounded (state m) -> bounded (state (iterate m)))
  /\ (bounded (state m) -> 0 <= counter m <= 240 ->
      exists v m', Uint64 m = Return (v, m') /\ 0 <= v <= MOD
                   /\ bounded (state m') /\ length (state m') = N).
Proof.
  split; [reflexivity|].
  apply (words_at_most_MOD 0 1 (Mk (repeat 0 240) 0)). reflexivity.
Defined.

(** *** The cursor *)

(** A successful [Unmarshal] whose last eight bytes encode 241: the
    cursor is 241, and the next [Uint64] indexes the array at 240. *)
Lemma Unmarshal_counter_unchecked :
  let data := repeat x00 1920 ++ [xf1] ++ repeat x00 7 in
  let m := fst (Unmarshal (Mk (repeat 0 240) 0) data) in
  length data = 1928%nat
  /\ snd (Unmarshal (Mk (repeat 0 240) 0) data) = None
  /\ counter m = 241
  /\ ~ (0 <= counter m <= 240)
  /\ Uint64 m = Panics IndexOutOfRange.
Proof.
  cbv zeta. split; [reflexivity|]. split; [reflexivity|].
  assert (E : counter (fst (Unmarshal (Mk (repeat 0 240) 0)
                (repeat x00 1920 ++ [xf1] ++ repeat x00 7))) = 241)
    by (vm_compute; reflexivity).
  split; [exact E|]. split; [rewrite E; lia|].
  vm_compute. reflexivity.
Qed.

(** C6 (amended): the cursor is 0 after [Seed], 240 after [iterate], and
    in [[0, 239]] after a [Uint64] call that found it in [[0, 240]]; a
    successful [Unmarshal] sets it to the signed 64-bit value of the last
    eight bytes, whatever that is. *)
Theorem counter_range (now seed : Z) (m : MIXMAX) (data : list byte) :
  counter (Seed now seed m) = 0
  /\ counter (iterate m) = 240
  /\ (0 <= counter m <= 240 ->
      exists v m', Uint64 m = Return (v, m') /\ 0 <= counter m' <= 239)
  /\ (length data = 1928%nat ->
      snd (Unmarshal m data) = None
      /\ counter (fst (Unmarshal m data))
         = int_of_uint64 (le_uint64 (slice_from 1920 data))).
Proof.
  split; [reflexivity|]. split; [reflexivity|]. split.
  - intros Hc. destruct m as [st c]. cbn [counter] in *.
    destruct (Z.eq_dec c 0) as [->|Hne].
    + rewrite Uint64_empty. eexists _, _. split; [reflexivity|]. cbn [counter]. lia.
    + rewrite Uint64_buffered by lia. eexists _, _. split; [reflexivity|].
      cbn [counter]. lia.
  - intros Hlen. unfold Unmarshal.
    change (Z.of_nat N * 8 + 8) with (Z.of_nat 1928).
    rewrite (UnmarshalFacts.length_test data 1928), bool_decide_eq_true_2 by exact Hlen.
    split; reflexivity.
Qed.

Lemma counter_range_witness :
  let m := Mk (repeat 0 240) 0 in
  let data := repeat x00 1928 in
  counter (Seed 0 1 m) = 0
  /\ counter (iterate m) = 240
  /\ (0 <= counter m <= 240 ->
      exists v m', Uint64 m = Return (v, m') /\ 0 <= counter m' <= 239)
  /\ (length data = 1928%nat ->
      snd (Unmarshal m data) = None
      /\ counter (fst (Unmarshal m data))
         = int_of_uint64 (le_uint64 (slice_from 1920 data))).
Proof. exact (counter_range 0 1 (Mk (repeat 0 240) 0) (repeat x00 1928)). Defined.

(** *** Draining the buffer *)

Lemma iterate_state_only (m1 m2 : MIXMAX) :
  state m1 = state m2 -> iterate m1 = iterate m2.
Proof. unfold iterate. intros ->. reflexivity. Qed.

(** [k] successive [Uint64] calls, with the words they returned in order. *)
Fixpoint draws (k : nat) (m : MIXMAX) : outcome (list Z * MIXMAX) :=
  match k with
  | O => Return ([], m)
  | Datatypes.S k' =>
      match Uint64 m with
      | Return (v, m') =>
          match draws k' m' with
          | Return (vs, m'') => Return (v :: vs, m'')
          | Panics e => Panics e
          | StillLooping => StillLooping
          end
      | Panics e => Panics e
      | StillLooping => StillLooping
      end
  end.

Lemma draws_buffered (st : list Z) (c : nat) :
  (c <= length st)%nat -> length st = N ->
  draws c (Mk st (Z.of_nat c)) = Return (rev (take c st), Mk st 0).
Proof.
  intros Hc Hlen. induction c as [|c IH].
  - rewrite take_0. reflexivity.
  - cbn [draws]. rewrite Uint64_buffered by (unfold N in Hlen; lia).
    replace (Z.of_nat (Datatypes.S c) - 1) with (Z.of_nat c) by lia.
    rewrite IH by lia. rewrite Nat2Z.id.
    destruct (lookup_lt_is_Some_2 st c) as [x Hx]; [lia|].
    rewrite (take_S_r st c x Hx), rev_unit.
    rewrite (list_lookup_total_correct st c x Hx). reflexivity.
Qed.

(** C9: right after [iterate], 240 successive [Uint64] calls return the
    cells 239, 238, ..., 0 of the iterated array, in that order, and leave
    the array as it is with the cursor at 0; the 241st call iterates
    again before it returns cell 239 of the new array. *)
Theorem buffer_drained_downwards (m : MIXMAX) :
  length (state m) = N ->
  draws 240 (iterate m)
    = Return (rev (state (iterate m)), Mk (state (iterate m)) 0)
  /\ Uint64 (Mk (state (iterate m)) 0)
    = Return (state (iterate (iterate m)) !!! 239%nat,
              Mk (state (iterate (iterate m))) 239).
Proof.
  intros Hlen. pose proof (iterate_length m Hlen) as Hl. split.
  - assert (Hc : counter (iterate m) = Z.of_nat 240) by reflexivity.
    destruct (iterate m) as [st c]. cbn [state counter] in *. subst c.
    unfold N in Hl.
    rewrite (draws_buffered st 240) by (unfold N; lia).
    rewrite take_ge by lia. reflexivity.
  - generalize (iterate m). intros m1. rewrite Uint64_empty.
    rewrite (iterate_state_only (Mk (state m1) 0) m1 eq_refl).
    reflexivity.
Qed.

Lemma buffer_drained_downwards_witness :
  let m := Seed 0 1 (Mk (repeat 0 240) 0) in
  length (state m) = N
  /\ draws 240 (iterate m)
    = Return (rev (state (iterate m)), Mk (state (iterate m)) 0)
  /\ Uint64 (Mk (state (iterate m)) 0)
    = Return (state (iterate (iterate m)) !!! 239%nat,
              Mk (state (iterate (iterate m))) 239).
Proof.
  assert (H : length (state (Seed 0 1 (Mk (repeat 0 240) 0))) = N)
    by (vm_compute; reflexivity).
  split; [exact H|].
  apply (buffer_drained_downwards (Seed 0 1 (Mk (repeat 0 240) 0)) H).
Defined.

(** *** Float64 *)

(** C8 (defect of the code): seeded with 1, the first [Uint64] word is
    6003817092012275373, above 2^61, and the first [Float64] is that word
    times 2^-61, about 2.6 and not below 1.  The mask [MOD] is written
    with sixteen hexadecimal digits, 2^64 - 2, where its comment says
    2^61 - 2. *)
Theorem Float64_failing_input :
  match Uint64 (Seed 0 1 (Mk (repeat 0 240) 0)) with
  | Return (v, _) => v = 6003817092012275373 /\ (2 ^ 61 <=? v) = true
  | _ => False
  end
  /\ match Float64 (Seed 0 1 (Mk (repeat 0 240) 0)) with
     | Return (f, _) =>
         f = 0x1.4d475f57a73dep+1%float /\ PrimFloat.leb 1%float f = true
     | _ => False
     end.
Proof. vm_compute. repeat split. Qed.

Lemma MOD_is_not_2_61 : MOD = 2 ^ 64 - 2 /\ MOD <> 2 ^ 61 - 2.
Proof. split; [reflexivity|discriminate]. Qed.

(** *** The mask *)

(** C2 (defect of the code): seeded with 1, the masked cell 1 is
    6364136223846793006, and 209 of the 240 cells are above 2^61 - 2;
    after [iterate] 203 cells are, cell 239 among them, the first word
    to be drawn.  The mask [MOD] is the literal [0xfffffffffffffffe],
    2^64 - 2, where its comment says 2^61 - 2. *)
Theorem masked_words_failing_input :
  let m := Seed 0 1 (Mk (repeat 0 240) 0) in
  state m !!! 1%nat = 6364136223846793006
  /\ (2 ^ 61 - 2 <? state m !!! 1%nat) = true
  /\ length (List.filter (fun w => 2 ^ 61 - 2 <? w) (state m)) = 209%nat
  /\ (2 ^ 61 - 2 <? state (iterate m) !!! 239%nat) = true
  /\ length (List.filter (fun w => 2 ^ 61 - 2 <? w) (state (iterate m))) = 203%nat
  /\ MOD = 2 ^ 64 - 2.
Proof. vm_compute. repeat split. Qed.

End MIXMAXFacts.

(** ** Bounded extraction *)

Module BoundedFacts.
Import Bounded.

Section Draws.
Context {G : Type} (draw : G -> Z * G).

Lemma redraw_accepted (fuel : nat) (mx v : Z) (g : G) :
  v <= mx -> redraw draw fuel mx v g = Some (v, g).
Proof.
  intros Hv. destruct fuel; cbn [redraw];
    destruct (Z.gtb_spec v mx); first [lia | reflexivity].
Qed.

(** The loop stops at the first accepted draw, if the fuel reaches it. *)
Lemma redraw_reaches (k : nat) :
  forall (fuel : nat) (mx : Z) (g : G),
  (k <= fuel)%nat -> fst (nth_draw draw k g) <= mx ->
  exists j, (j <= k)%nat
    /\ redraw draw fuel mx (fst (draw g)) (snd (draw g)) = Some (nth_draw draw j g)
    /\ fst (nth_draw draw j g) <= mx.
Proof.
  induction k as [|k IH]; intros fuel mx g Hk Hacc.
  - exists 0%nat. cbn [nth_draw] in *. split; [lia|]. split; [|exact Hacc].
    rewrite redraw_accepted by exact Hacc. destruct (draw g); reflexivity.
  - destruct (Z.le_gt_cases (fst (draw g)) mx) as [Hle|Hgt].
    + exists 0%nat. cbn [nth_draw]. split; [lia|]. split; [|exact Hle].
      rewrite redraw_accepted by exact Hle. destruct (draw g); reflexivity.
    + destruct fuel as [|fuel]; [lia|]. cbn [redraw].
      destruct (Z.gtb_spec (fst (draw g)) mx) as [_|Hle]; [|lia].
      cbn [nth_draw] in Hacc.
      destruct (IH fuel mx (snd (draw g)) ltac:(lia) Hacc) as (j & Hj & E & Hj').
      exists (S j). cbn [nth_draw]. split; [lia|]. split; [|exact Hj'].
      rewrite <- E. destruct (draw (snd (draw g))); reflexivity.
Qed.

(** Whatever the loop returns was accepted. *)
Lemma redraw_sound (fuel : nat) :
  forall (mx v : Z) (g : G) (v' : Z) (g' : G),
  redraw draw fuel mx v g = Some (v', g') -> v' <= mx.
Proof.
  induction fuel as [|fuel IH]; intros mx v g v' g'; cbn [redraw];
    destruct (Z.gtb_spec v mx) as [Hgt|Hle]; intros E.
  - discriminate.
  - injection E as <- <-. exact Hle.
  - destruct (draw g) as [v1 g1]. exact (IH mx v1 g1 v' g' E).
  - injection E as <- <-. exact Hle.
Qed.

(** A generator that repeats one rejected word keeps the loop going. *)
Lemma redraw_stuck (mx v : Z) (g : G) :
  draw g = (v, g) -> mx < v ->
  forall fuel, redraw draw fuel mx v g = None.
Proof.
  intros Hfix Hv fuel. induction fuel as [|fuel IH]; cbn [redraw];
    destruct (Z.gtb_spec v mx); try lia; [reflexivity|].
  rewrite Hfix. exact IH.
Qed.

Lemma Int64_nonpositive (msg : string) (fuel : nat) (g : G) (n : Z) :
  n <= 0 -> Int64 draw msg fuel g n = Panics (PanicMessage msg).
Proof.
  intros Hn. unfold Int64. destruct (Z.leb_spec n 0); [reflexivity|lia].
Qed.

Lemma Int64_power_of_two (msg : string) (fuel : nat) (g : G) (n : Z) :
  0 < n < 2 ^ 63 -> Z.land n (n - 1) = 0 ->
  Int64 draw msg fuel g n = Return (Z.land (fst (draw g)) (n - 1), snd (draw g))
  /\ 0 <= Z.land (fst (draw g)) (n - 1) < n.
Proof.
  intros Hn Hp.
  assert (Hr : 0 <= Z.land (fst (draw g)) (n - 1) < n).
  { split; [apply Z.land_nonneg; right; lia|].
    pose proof (land_le_r (fst (draw g)) (n - 1)). lia. }
  split; [|exact Hr]. unfold Int64.
  destruct (Z.leb_spec n 0); [lia|]. rewrite Hp. cbn [Z.eqb].
  destruct (draw g) as [v g']. cbn [fst snd] in *.
  rewrite (wrap64_small (n - 1)) by lia.
  rewrite int_of_uint64_small by lia. reflexivity.
Qed.

Lemma Int64_rejection (msg : string) (fuel : nat) (g : G) (n : Z) :
  0 < n < 2 ^ 63 -> Z.land n (n - 1) <> 0 ->
  Int64 draw msg fuel g n
  = match redraw draw fuel (max64 n) (fst (draw g)) (snd (draw g)) with
    | None => StillLooping
    | Some (v, g') => Return (v mod n, g')
    end.
Proof.
  intros Hn Hp. unfold Int64.
  destruct (Z.leb_spec n 0); [lia|].
  destruct (Z.eqb_spec (Z.land n (n - 1)) 0); [contradiction|].
  rewrite (wrap64_small n) by lia.
  destruct (Z.eqb_spec n 0); [lia|].
  destruct (draw g) as [v g']. cbn [fst snd].
  destruct (redraw draw fuel (max64 n) v g') as [[v' g'']|]; [|reflexivity].
  rewrite int_of_uint64_small; [reflexivity|].
  pose proof (Z.mod_pos_bound v' n). lia.
Qed.

Lemma Int32_nonpositive (msg : string) (fuel : nat) (g : G) (n : Z) :
  n <= 0 -> Int32 draw msg fuel g n = Panics (PanicMessage msg).
Proof.
  intros Hn. unfold Int32. destruct (Z.leb_spec n 0); [reflexivity|lia].
Qed.

Lemma wrap32_le (n : Z) : 0 <= n -> wrap32 n <= n.
Proof. intros Hn. rewrite wrap32_mod. apply Z.mod_le; lia. Qed.

Lemma Int32_power_of_two (msg : string) (fuel : nat) (g : G) (n : Z) :
  0 < n -> Z.land n (n - 1) = 0 ->
  Int32 draw msg fuel g n
  = Return (Z.land (fst (draw g)) (wrap32 (n - 1)), snd (draw g))
  /\ 0 <= Z.land (fst (draw g)) (wrap32 (n - 1)) < n.
Proof.
  intros Hn Hp. split.
  - unfold Int32. destruct (Z.leb_spec n 0); [lia|]. rewrite Hp. cbn [Z.eqb].
    destruct (draw g); reflexivity.
  - pose proof (wrap32_range (n - 1)). pose proof (wrap32_le (n - 1)).
    split; [apply Z.land_nonneg; right; lia|].
    pose proof (land_le_r (fst (draw g)) (wrap32 (n - 1))). lia.
Qed.

Lemma Int32_rejection (msg : string) (fuel : nat) (g : G) (n : Z) :
  0 < n -> Z.land n (n - 1) <> 0 -> wrap32 n <> 0 ->
  Int32 draw msg fuel g n
  = match redraw draw fuel (max32 n) (fst (draw g)) (snd (draw g)) with
    | None => StillLooping
    | Some (v, g') => Return (v mod wrap32 n, g')
    end.
Proof.
  intros Hn Hp Hz. unfold Int32.
  destruct (Z.leb_spec n 0); [lia|].
  destruct (Z.eqb_spec (Z.land n (n - 1)) 0); [contradiction|].
  destruct (Z.eqb_spec (wrap32 n) 0); [contradiction|].
  destruct (draw g) as [v g']. reflexivity.
Qed.

(** A multiple of [2^32] that is no power of two: the divisor
    [uint32(n)] is zero. *)
Lemma Int32_divides_by_zero (msg : string) (fuel : nat) (g : G) (n : Z) :
  0 < n -> Z.land n (n - 1) <> 0 -> wrap32 n = 0 ->
  Int32 draw msg fuel g n = Panics DivideByZero.
Proof.
  intros Hn Hp Hz. unfold Int32.
  destruct (Z.leb_spec n 0); [lia|].
  destruct (Z.eqb_spec (Z.land n (n - 1)) 0); [contradiction|].
  rewrite Hz. reflexivity.
Qed.

End Draws.

(** What [Int] does with the argument [n] on the generator [g], given
    [fuel] further draws: the argument panic for [n <= 0]; for [n > 0]
    (and [ok n]) no panic of any kind, only results in [[0, n)], a result
    after one draw when [n] is a power of two, and a result as soon as
    some draw [k] within the fuel is at most the threshold [mx n]. *)
Definition bounded_int {G : Type} (draw : G -> Z * G)
  (Int : nat -> G -> Z -> outcome (Z * G)) (mx : Z -> Z) (ok : Z -> Prop)
  (g : G) (n : Z) (fuel k : nat) : Prop :=
  (n <= 0 -> exists msg, Int fuel g n = Panics (PanicMessage msg))
  /\ (0 < n -> ok n ->
      (forall e, Int fuel g n <> Panics e)
      /\ (forall r g', Int fuel g n = Return (r, g') -> 0 <= r < n)
      /\ (Z.land n (n - 1) = 0 -> exists r g', Int fuel g n = Return (r, g'))
      /\ ((k <= fuel)%nat -> fst (nth_draw draw k g) <= mx n ->
          exists r g', Int fuel g n = Return (r, g'))).

Lemma Int64_bounded_int {G : Type} (draw : G -> Z * G) (msg : string)
  (g : G) (n : Z) (fuel k : nat) :
  is_int n ->
  bounded_int draw (Int64 draw msg) max64 (fun _ => True) g n fuel k.
Proof.
  intros [_ Hhi]. split.
  - intros Hn. exists msg. apply Int64_nonpositive, Hn.
  - intros Hn _.
    destruct (Z.eq_dec (Z.land n (n - 1)) 0) as [Hp|Hp].
    + destruct (Int64_power_of_two draw msg fuel g n ltac:(lia) Hp) as [E Hr].
      rewrite E. repeat split.
      * discriminate.
      * injection H as <- _. lia.
      * injection H as <- _. lia.
      * eexists _, _. reflexivity.
      * eexists _, _. reflexivity.
    + rewrite (Int64_rejection draw msg fuel g n ltac:(lia) Hp). repeat split.
      * destruct (redraw _ _ _ _ _) as [[v1 g1]|]; discriminate.
      * destruct (redraw _ _ _ _ _) as [[v1 g1]|]; [|discriminate].
        injection H as <- _. pose proof (Z.mod_pos_bound v1 n). lia.
      * destruct (redraw _ _ _ _ _) as [[v1 g1]|]; [|discriminate].
        injection H as <- _. pose proof (Z.mod_pos_bound v1 n). lia.
      * contradiction.
      * intros Hk Hacc.
        destruct (redraw_reaches draw k fuel (max64 n) g Hk Hacc) as (j & _ & E & _).
        rewrite E. destruct (nth_draw draw j g). eexists _, _. reflexivity.
Qed.

Lemma Int32_bounded_int {G : Type} (draw : G -> Z * G) (msg : string)
  (g : G) (n : Z) (fuel k : nat) :
  bounded_int draw (Int32 draw msg) max32
    (fun n => wrap32 n <> 0 \/ Z.land n (n - 1) = 0) g n fuel k.
Proof.
  split.
  - intros Hn. exists msg. apply Int32_nonpositive, Hn.
  - intros Hn Hok.
    destruct (Z.eq_dec (Z.land n (n - 1)) 0) as [Hp|Hp].
    + destruct (Int32_power_of_two draw msg fuel g n Hn Hp) as [E Hr].
      rewrite E. repeat split.
      * discriminate.
      * injection H as <- _. lia.
      * injection H as <- _. lia.
      * eexists _, _. reflexivity.
      * eexists _, _. reflexivity.
    + destruct Hok as [Hz|Hp']; [|contradiction].
      assert (Hw : 0 < wrap32 n <= n).
      { pose proof (wrap32_range n). pose proof (wrap32_le n). lia. }
      rewrite (Int32_rejection draw msg fuel g n Hn Hp Hz). repeat split.
      * destruct (redraw _ _ _ _ _) as [[v1 g1]|]; discriminate.
      * destruct (redraw _ _ _ _ _) as [[v1 g1]|]; [|discriminate].
        injection H as <- _. pose proof (Z.mod_pos_bound v1 (wrap32 n)). lia.
      * destruct (redraw _ _ _ _ _) as [[v1 g1]|]; [|discriminate].
        injection H as <- _. pose proof (Z.mod_pos_bound v1 (wrap32 n)). lia.
      * contradiction.
      * intros Hk Hacc.
        destruct (redraw_reaches draw k fuel (max32 n) g Hk Hacc) as (j & _ & E & _).
        rewrite E. destruct (nth_draw draw j g). eexists _, _. reflexivity.
Qed.

(** The loop of [Int] is not bounded.  The state decoded from sixteen
    bytes with [state = 2^58] and [inc = 0x5000000000000000] is a fixed
    point of pcg32's step; the word it keeps returning, 2^31 + 8192, is
    above the threshold for [n = 3], and [Int(3)] redraws for any number
    of rounds. *)
Lemma Int_spins_on_fixed_point :
  let bytes := [x00; x00; x00; x00; x00; x00; x00; x04;
                x00; x00; x00; x00; x00; x00; x00; x50] in
  let p := fst (PCG32.Unmarshal (PCG32.Mk 0 0) bytes) in
  snd (PCG32.Unmarshal (PCG32.Mk 0 0) bytes) = None
  /\ PCG32.Next p = (2147491840, p)
  /\ max32 3 = 2147483645
  /\ (forall fuel, PCG32.Int fuel p 3 = StillLooping)
  /\ ~ (exists fuel r p', PCG32.Int fuel p 3 = Return (r, p')).
Proof.
  cbv zeta.
  set (p := fst (PCG32.Unmarshal (PCG32.Mk 0 0) _)).
  assert (Hp : p = PCG32.Mk (2 ^ 58) 0x5000000000000000) by reflexivity.
  assert (Hnext : PCG32.Next p = (2147491840, p)) by (rewrite Hp; reflexivity).
  assert (Hspin : forall fuel, PCG32.Int fuel p 3 = StillLooping).
  { intros fuel. unfold PCG32.Int.
    rewrite Int32_rejection by (vm_compute; first [reflexivity | discriminate]).
    rewrite Hnext. cbn [fst snd].
    rewrite (redraw_stuck PCG32.Next (max32 3) 2147491840 p Hnext); [reflexivity|].
    vm_compute. reflexivity. }
  repeat split; try assumption.
  intros (fuel & r & p' & E). rewrite Hspin in E. discriminate.
Qed.

(** On pcg32 the argument [3 * 2^32] is a positive [int] whose
    truncation [uint32(n)] is zero. *)
Lemma PCG32_Int_divides_by_zero (fuel : nat) (p : PCG32.PCG32) :
  PCG32.Int fuel p (3 * 2 ^ 32) = Panics DivideByZero.
Proof.
  unfold PCG32.Int. apply Int32_divides_by_zero; vm_compute;
    first [reflexivity | discriminate].
Qed.

(** C4 (defect of the code): on the pcg32 generator that [Seed(42)]
    leaves, [Int(3 << 32)] panics with an integer divide by zero,
    however many draws it may make, though its argument is positive:
    pcg32 reduces by [uint32(n)], which is 0 there.  pcg64, splitmix64
    and xoshiro256starstar reduce by [uint64(n)], and after [Seed(42)]
    each returns a value in [[0, n)] at the same argument. *)
Theorem PCG32_Int_failing_input :
  let n := 3 * 2 ^ 32 in
  is_int n /\ 0 < n /\ wrap32 n = 0
  /\ PCG32.Seed 0 42 (PCG32.Mk 0 0) = PCG32.Mk 15035305259031992232 85
  /\ (forall fuel,
        PCG32.Int fuel (PCG32.Seed 0 42 (PCG32.Mk 0 0)) n = Panics DivideByZero)
  /\ match PCG64.Int 5 (PCG64.Seed 0 42 (PCG64.Mk (PCG64.U128 0 0) (PCG64.U128 0 0))) n with
     | Return (v, _) => v = 5084172355 /\ 0 <= v < n
     | _ => False
     end
  /\ match SplitMix64.Int 5 (SplitMix64.Seed 42 (SplitMix64.Mk 0)) n with
     | Return (v, _) => v = 11583025411 /\ 0 <= v < n
     | _ => False
     end
  /\ match Xoshiro256StarStar.Int 5
             (Xoshiro256StarStar.Seed 0 42 Xoshiro256StarStar.zero) n with
     | Return (v, _) => v = 204392214 /\ 0 <= v < n
     | _ => False
     end.
Proof.
  cbv zeta. split; [unfold is_int; lia|]. split; [lia|].
  split; [reflexivity|]. split; [vm_compute; reflexivity|].
  split; [intros fuel; apply PCG32_Int_divides_by_zero|].
  vm_compute. repeat split; discriminate.
Qed.

(** Where the reduction does not divide by zero: on every generator
    [Int(n)] panics with its argument message when [n <= 0]; for [n > 0]
    (on pcg32: with [uint32(n)] not zero, or [n] a power of two) it
    never panics, every value it returns lies in [[0, n)], it returns
    after a single draw when [n] is a power of two, and otherwise it
    returns as soon as one of its draws is at most the threshold. *)
Theorem Int_bounded (fuel k : nat) (n : Z)
  (p32 : PCG32.PCG32) (p64 : PCG64.PCG64)
  (sm : SplitMix64.SplitMix64) (xo : Xoshiro256StarStar.Xoshiro256StarStar) :
  is_int n ->
  bounded_int PCG64.Next PCG64.Int max64 (fun _ => True) p64 n fuel k
  /\ bounded_int SplitMix64.Uint64 SplitMix64.Int max64 (fun _ => True) sm n fuel k
  /\ bounded_int Xoshiro256StarStar.Uint64 Xoshiro256StarStar.Int max64
       (fun _ => True) xo n fuel k
  /\ bounded_int PCG32.Next PCG32.Int max32
       (fun n => wrap32 n <> 0 \/ Z.land n (n - 1) = 0) p32 n fuel k.
Proof.
  intros Hn. split; [|split; [|split]].
  - apply Int64_bounded_int, Hn.
  - apply Int64_bounded_int, Hn.
  - apply Int64_bounded_int, Hn.
  - apply Int32_bounded_int.
Qed.

Lemma Int_bounded_witness :
  is_int 3
  /\ bounded_int PCG64.Next PCG64.Int max64 (fun _ => True)
       (PCG64.Mk (PCG64.U128 1 0) (PCG64.U128 3 0)) 3 5 0
  /\ bounded_int SplitMix64.Uint64 SplitMix64.Int max64 (fun _ => True)
       (SplitMix64.Mk 7) 3 5 0
  /\ bounded_int Xoshiro256StarStar.Uint64 Xoshiro256StarStar.Int max64
       (fun _ => True) (Xoshiro256StarStar.Mk 1 2 3 4) 3 5 0
  /\ bounded_int PCG32.Next PCG32.Int max32
       (fun n => wrap32 n <> 0 \/ Z.land n (n - 1) = 0) (PCG32.Mk 1 3) 3 5 0.
Proof.
  assert (H : is_int 3) by (unfold is_int; lia).
  split; [exact H|]. apply (Int_bounded 5 0 3), H.
Defined.

End BoundedFacts.

(** ** xoshiro256starstar *)

Module XoshiroFacts.
Import Xoshiro256StarStar.

Local Notation "a (+) b" := (xor_state a b) (at level 50, left associativity).

(** The state transition of [Uint64], without the word it returns. *)
Definition step (x : Xoshiro256StarStar) : Xoshiro256StarStar := snd (Uint64 x).

Definition wf (x : Xoshiro256StarStar) : Prop :=
  is_uint64 (s0 x) /\ is_uint64 (s1 x) /\ is_uint64 (s2 x) /\ is_uint64 (s3 x).

(** C10: thirty-two zero bytes unmarshal, without error, to the all-zero
    state; from that state [Uint64] returns 0 and leaves the state
    all-zero, so every later draw is 0 again. *)
Theorem zero_state_absorbing (x : Xoshiro256StarStar) (k : nat) :
  Unmarshal x (repeat x00 32) = (zero, None)
  /\ Uint64 zero = (0, zero)
  /\ Bounded.nth_draw Uint64 k zero = (0, zero).
Proof.
  split; [reflexivity|]. split; [reflexivity|].
  induction k as [|k IH]; [reflexivity|]. exact IH.
Qed.

(** *** The transition is linear over GF(2) *)

Lemma xor_comm (a b : Xoshiro256StarStar) : a (+) b = b (+) a.
Proof. unfold xor_state. f_equal; apply Z.lxor_comm. Qed.

Lemma xor_assoc (a b c : Xoshiro256StarStar) : a (+) b (+) c = a (+) (b (+) c).
Proof. unfold xor_state. cbn [s0 s1 s2 s3]. f_equal; apply Z.lxor_assoc. Qed.

Lemma xor_zero_l (a : Xoshiro256StarStar) : zero (+) a = a.
Proof. destruct a. unfold xor_state, zero. cbn [s0 s1 s2 s3]. f_equal. Qed.

Lemma xor_zero_r (a : Xoshiro256StarStar) : a (+) zero = a.
Proof. rewrite xor_comm. apply xor_zero_l. Qed.

Lemma xor_self (a : Xoshiro256StarStar) : a (+) a = zero.
Proof. unfold xor_state, zero. f_equal; apply Z.lxor_nilpotent. Qed.

(** [(a + b) + (c + d) = (a + c) + (b + d)] *)
Lemma xor_swap (a b c d : Xoshiro256StarStar) : a (+) b (+) (c (+) d) = a (+) c (+) (b (+) d).
Proof.
  rewrite !xor_assoc. f_equal. rewrite <- !xor_assoc. f_equal. apply xor_comm.
Qed.

Lemma xor_cancel (a b : Xoshiro256StarStar) : a = a (+) b -> b = zero.
Proof.
  intros E. apply (f_equal (fun y => a (+) y)) in E.
  rewrite <- xor_assoc, !xor_self, xor_zero_l in E. symmetry. exact E.
Qed.

Lemma uint64_fix (w : Z) : is_uint64 w <-> wrap64 w = w.
Proof.
  split; [apply wrap64_small|]. intros <-. apply wrap64_range.
Qed.

Lemma lxor_uint64 (a b : Z) : is_uint64 a -> is_uint64 b -> is_uint64 (Z.lxor a b).
Proof.
  rewrite !uint64_fix. unfold wrap64. intros Ha Hb.
  rewrite land_lxor_distr_l, Ha, Hb. reflexivity.
Qed.

Lemma uint64_high_bits (w n : Z) : is_uint64 w -> 64 <= n -> Z.testbit w n = false.
Proof.
  intros Hw Hn. rewrite <- (wrap64_small w Hw), wrap64_mod.
  apply Z.mod_pow2_bits_high. lia.
Qed.

Lemma shr64_uint64 (w k : Z) : is_uint64 w -> 0 <= k -> is_uint64 (shr64 w k).
Proof.
  intros [H0 H1] Hk. unfold shr64, is_uint64. rewrite Z.shiftr_div_pow2 by exact Hk.
  assert (0 < 2 ^ k) by (apply Z.pow_pos_nonneg; lia).
  split; [apply Z.div_pos; lia|].
  apply Z.div_lt_upper_bound; nia.
Qed.

Lemma shl64_lxor (a b k : Z) : shl64 (Z.lxor a b) k = Z.lxor (shl64 a k) (shl64 b k).
Proof. unfold shl64, wrap64. rewrite Z.shiftl_lxor. apply land_lxor_distr_l. Qed.

Lemma shr64_lxor (a b k : Z) : shr64 (Z.lxor a b) k = Z.lxor (shr64 a k) (shr64 b k).
Proof. apply Z.shiftr_lxor. Qed.

(** On a [uint64] the two halves of the rotation do not overlap, and
    their [|] is their [^]. *)
Definition rotl45 (w : Z) : Z := Z.lxor (shl64 w 45) (shr64 w 19).

Lemma RotateLeft64_45 (w : Z) : is_uint64 w -> RotateLeft64 w 45 = rotl45 w.
Proof.
  intros Hw. unfold RotateLeft64, rotl45.
  change (Z.land 45 63) with 45. change (64 - 45) with 19. cbv zeta.
  symmetry. apply Z.lxor_lor. apply Z.bits_inj'. intros n Hn.
  rewrite Z.land_spec, Z.bits_0. unfold shl64, shr64, wrap64.
  rewrite Z.land_spec, Z.shiftr_spec by lia.
  destruct (Z.lt_ge_cases n 45) as [Hlt|Hge].
  - rewrite Z.shiftl_spec_low by lia. reflexivity.
  - rewrite (uint64_high_bits w (n + 19)) by (assumption || lia).
    apply Bool.andb_false_r.
Qed.

Lemma rotl45_lxor (a b : Z) : rotl45 (Z.lxor a b) = Z.lxor (rotl45 a) (rotl45 b).
Proof.
  unfold rotl45. rewrite shl64_lxor, shr64_lxor.
  rewrite !Z.lxor_assoc. f_equal. rewrite <- !Z.lxor_assoc. f_equal.
  apply Z.lxor_comm.
Qed.

Lemma rotl45_uint64 (w : Z) : is_uint64 w -> is_uint64 (rotl45 w).
Proof.
  intros Hw. apply lxor_uint64.
  - apply wrap64_range.
  - apply shr64_uint64; [exact Hw|lia].
Qed.

(** The transition written with [^] only. *)
Definition step' (x : Xoshiro256StarStar) : Xoshiro256StarStar :=
  Mk (Z.lxor (s0 x) (Z.lxor (s3 x) (s1 x)))
     (Z.lxor (s1 x) (Z.lxor (s2 x) (s0 x)))
     (Z.lxor (Z.lxor (s2 x) (s0 x)) (shl64 (s1 x) 17))
     (rotl45 (Z.lxor (s3 x) (s1 x))).

Lemma step_step' (x : Xoshiro256StarStar) : wf x -> step x = step' x.
Proof.
  intros (H0 & H1 & H2 & H3). unfold step, Uint64, step'. cbn [snd s0 s1 s2 s3].
  rewrite RotateLeft64_45 by (apply lxor_uint64; assumption). reflexivity.
Qed.

Lemma step'_wf (x : Xoshiro256StarStar) : wf x -> wf (step' x).
Proof.
  intros (H0 & H1 & H2 & H3). unfold wf, step'. cbn [s0 s1 s2 s3].
  split; [|split; [|split]].
  - apply lxor_uint64; [|apply lxor_uint64]; assumption.
  - apply lxor_uint64; [|apply lxor_uint64]; assumption.
  - apply lxor_uint64; [apply lxor_uint64; assumption|].
    unfold shl64. apply wrap64_range.
  - apply rotl45_uint64, lxor_uint64; assumption.
Qed.

Lemma step_wf (x : Xoshiro256StarStar) : wf x -> wf (step x).
Proof. intros H. rewrite step_step' by exact H. apply step'_wf, H. Qed.

(** Equations between [^]-combinations of words, bit by bit. *)
Ltac xor_bits :=
  apply Z.bits_inj'; intros ?n _; rewrite ?Z.lxor_spec;
  repeat match goal with
         | |- context [Z.testbit ?a ?n] => destruct (Z.testbit a n)
         end;
  reflexivity.

Lemma step'_xor (a b : Xoshiro256StarStar) : step' (a (+) b) = step' a (+) step' b.
Proof.
  unfold step', xor_state. cbn [s0 s1 s2 s3].
  rewrite shl64_lxor, !rotl45_lxor. f_equal; xor_bits.
Qed.

Lemma wf_zero : wf zero.
Proof. unfold wf, zero, is_uint64. cbn [s0 s1 s2 s3]. lia. Qed.

Lemma wf_xor (a b : Xoshiro256StarStar) : wf a -> wf b -> wf (a (+) b).
Proof.
  intros (A0 & A1 & A2 & A3) (B0 & B1 & B2 & B3). unfold wf, xor_state.
  cbn [s0 s1 s2 s3]. repeat apply conj; apply lxor_uint64; assumption.
Qed.

(** *** Polynomials over GF(2) in a transition [T]

    A polynomial is the list of its coefficients, constant term first;
    [ev p x] is the sum of [T^i x] over the coefficients [i] set in [p].
    The loop of [Jump] computes such a sum. *)

(** [f^(2^k)] *)
Fixpoint iter2 (k : nat) (f : Xoshiro256StarStar -> Xoshiro256StarStar)
  (x : Xoshiro256StarStar) : Xoshiro256StarStar :=
  match k with
  | O => f x
  | S k' => iter2 k' f (iter2 k' f x)
  end.

Fixpoint padd (p q : list bool) : list bool :=
  match p, q with
  | [], _ => q
  | _, [] => p
  | a :: p', b :: q' => xorb a b :: padd p' q'
  end.

Fixpoint pmul (p q : list bool) : list bool :=
  match p with
  | [] => []
  | b :: p' => padd (if b then q else []) (false :: pmul p' q)
  end.

(** Equality of polynomials, up to zero coefficients at the end. *)
Fixpoint pzero (p : list bool) : bool :=
  match p with
  | [] => true
  | b :: p' => negb b && pzero p'
  end.

Fixpoint peqb (p q : list bool) : bool :=
  match p, q with
  | [], _ => pzero q
  | _, [] => pzero p
  | a :: p', b :: q' => Bool.eqb a b && peqb p' q'
  end.

(** Division by a monic [chi]: quotient and remainder of [a].  Nothing is
    proved about it; its result is checked where it is used. *)
Fixpoint pdivmod (chi a : list bool) : list bool * list bool :=
  match a with
  | [] => ([], [])
  | b :: a' =>
      if (length a' <? length chi - 1)%nat then ([], a)
      else
        let '(q', r') := pdivmod chi a' in
        let t := List.last r' false in
        (t :: q', take (length chi - 1) (if t then padd (b :: r') chi else b :: r'))
  end.

(** The square of [r] modulo [chi], kept only if the division checks:
    [r * r = r' + q * chi]. *)
Definition sq_checked (chi r : list bool) : option (list bool) :=
  let rr := pmul r r in
  let '(q, r') := pdivmod chi rr in
  if peqb rr (padd r' (pmul q chi)) then Some r' else None.

(** [k] checked squarings from [r]. *)
Fixpoint chain_from (chi r : list bool) (k : nat) : option (list bool) :=
  match k with
  | O => Some r
  | S k' =>
      match chain_from chi r k' with
      | Some r' => sq_checked chi r'
      | None => None
      end
  end.

Section Polynomials.
Variable T : Xoshiro256StarStar -> Xoshiro256StarStar.

Fixpoint ev (p : list bool) (x : Xoshiro256StarStar) : Xoshiro256StarStar :=
  match p with
  | [] => zero
  | b :: p' => let r := ev p' (T x) in if b then x (+) r else r
  end.

Lemma ev_app (p q : list bool) :
  forall x, ev (p ++ q) x = ev p x (+) ev q (Nat.iter (length p) T x).
Proof.
  induction p as [|b p IH]; intros x.
  - cbn [app ev length Nat.iter nat_rect]. rewrite xor_zero_l. reflexivity.
  - cbn [app ev length]. rewrite IH, Nat.iter_succ_r.
    destruct b; [rewrite xor_assoc|]; reflexivity.
Qed.

Hypothesis T_xor : forall a b, T (a (+) b) = T a (+) T b.

Lemma T_zero : T zero = zero.
Proof.
  apply (xor_cancel (T zero)). rewrite <- T_xor, xor_self. reflexivity.
Qed.

Lemma ev_xor (p : list bool) :
  forall a b, ev p (a (+) b) = ev p a (+) ev p b.
Proof.
  induction p as [|c p IH]; intros a b; cbn [ev].
  - rewrite xor_self. reflexivity.
  - rewrite T_xor, IH. destruct c; [apply xor_swap|reflexivity].
Qed.

Lemma ev_zero (p : list bool) : ev p zero = zero.
Proof.
  induction p as [|c p IH]; cbn [ev]; [reflexivity|].
  rewrite T_zero, IH. destruct c; [apply xor_self|reflexivity].
Qed.

Lemma ev_T (p : list bool) : forall x, ev p (T x) = T (ev p x).
Proof.
  induction p as [|c p IH]; intros x; cbn [ev].
  - rewrite T_zero. reflexivity.
  - rewrite IH. destruct c; [rewrite T_xor|]; reflexivity.
Qed.

Lemma ev_padd (p : list bool) :
  forall q x, ev (padd p q) x = ev p x (+) ev q x.
Proof.
  induction p as [|a p IH]; intros q x.
  - cbn [padd ev]. rewrite xor_zero_l. reflexivity.
  - destruct q as [|b q].
    + cbn [padd ev]. rewrite xor_zero_r. reflexivity.
    + cbn [padd ev]. rewrite IH. destruct a, b; cbn [xorb].
      * rewrite xor_swap, xor_self, xor_zero_l. reflexivity.
      * symmetry. apply xor_assoc.
      * rewrite <- !xor_assoc. f_equal. apply xor_comm.
      * reflexivity.
Qed.

Lemma ev_pmul (p q : list bool) :
  forall x, ev (pmul p q) x = ev p (ev q x).
Proof.
  induction p as [|b p IH]; intros x; [reflexivity|].
  cbn [pmul]. rewrite ev_padd. cbn [ev]. rewrite IH, ev_T.
  destruct b; [reflexivity|]. cbn [ev]. apply xor_zero_l.
Qed.

Lemma pzero_sound (p : list bool) :
  pzero p = true -> forall x, ev p x = zero.
Proof.
  induction p as [|b p IH]; intros H x; [reflexivity|].
  cbn [pzero] in H. apply andb_prop in H as [Hb Hp].
  apply Bool.negb_true_iff in Hb. subst b. cbn [ev]. apply IH, Hp.
Qed.

Lemma peqb_sound (p : list bool) :
  forall q, peqb p q = true -> forall x, ev p x = ev q x.
Proof.
  induction p as [|a p IH]; intros q H x.
  - cbn [peqb] in H. rewrite (pzero_sound q H). reflexivity.
  - destruct q as [|b q].
    + cbn [peqb] in H. rewrite (pzero_sound (a :: p) H). reflexivity.
    + cbn [peqb] in H. apply andb_prop in H as [Hab Hpq].
      apply Bool.eqb_prop in Hab. subst b. cbn [ev].
      rewrite (IH q Hpq). reflexivity.
Qed.

Hypothesis T_wf : forall x, wf x -> wf (T x).

Lemma iter2_wf (k : nat) : forall x, wf x -> wf (iter2 k T x).
Proof.
  induction k as [|k IH]; intros x Hx; cbn [iter2]; [apply T_wf, Hx|].
  apply IH, IH, Hx.
Qed.

Variable chi : list bool.
Hypothesis chi_annihilates : forall x, wf x -> ev chi x = zero.

Lemma sq_checked_sound (r r' : list bool) :
  sq_checked chi r = Some r' ->
  forall x, wf x -> ev r' x = ev r (ev r x).
Proof.
  unfold sq_checked. destruct (pdivmod chi (pmul r r)) as [q r0].
  destruct (peqb _ _) eqn:E; [|discriminate].
  intros [= <-] x Hx. rewrite <- ev_pmul, (peqb_sound _ _ E).
  rewrite ev_padd, ev_pmul, (chi_annihilates x Hx), ev_zero, xor_zero_r.
  reflexivity.
Qed.

Lemma chain_from_sound (r0 : list bool) (k0 : nat) :
  (forall x, wf x -> ev r0 x = iter2 k0 T x) ->
  forall k r, chain_from chi r0 k = Some r ->
  forall x, wf x -> ev r x = iter2 (k + k0) T x.
Proof.
  intros H0. induction k as [|k IH]; intros r Hr x Hx.
  - injection Hr as <-. apply H0, Hx.
  - cbn [chain_from] in Hr.
    destruct (chain_from chi r0 k) as [r1|]; [|discriminate].
    rewrite (sq_checked_sound r1 r Hr x Hx). cbn [Nat.add iter2].
    rewrite (IH r1 eq_refl x Hx).
    apply IH; [reflexivity|]. apply iter2_wf, Hx.
Qed.

End Polynomials.

(** *** The characteristic polynomial *)

(** [x^256 + ... + 1], the characteristic polynomial of the transition. *)
Definition chi : list bool :=
  map (fun i => Z.testbit
         0x10003c03c3f3ecb1904b4edcf26259f850280002bcefd1a5e9d116f2bb0f0f001
         (Z.of_nat i))
      (seq 0 257).

(** The state whose word [i] is [w], the other words zero. *)
Definition emb (i : nat) (w : Z) : Xoshiro256StarStar :=
  match i with
  | 0%nat => Mk w 0 0 0
  | 1%nat => Mk 0 w 0 0
  | 2%nat => Mk 0 0 w 0
  | _ => Mk 0 0 0 w
  end.

Definition is_zero (x : Xoshiro256StarStar) : bool :=
  (s0 x =? 0) && (s1 x =? 0) && (s2 x =? 0) && (s3 x =? 0).

(** A test on each of the 256 unit states. *)
Definition on_units (f : Xoshiro256StarStar -> bool) : bool :=
  forallb (fun i =>
    forallb (fun j => f (emb i (Z.shiftl 1 (Z.of_nat j)))) (seq 0 64))
    (seq 0 4).

Lemma on_units_spec (f : Xoshiro256StarStar -> bool) (i j : nat) :
  on_units f = true -> (i < 4)%nat -> (j < 64)%nat ->
  f (emb i (Z.shiftl 1 (Z.of_nat j))) = true.
Proof.
  unfold on_units. intros H Hi Hj.
  rewrite forallb_forall in H. specialize (H i ltac:(apply in_seq; lia)).
  rewrite forallb_forall in H. apply H. apply in_seq. lia.
Qed.

Definition annihilated (x : Xoshiro256StarStar) : bool :=
  is_zero (ev step' chi x).

(** [chi] sends each of the 256 unit states to zero. *)
Lemma chi_check_ok : on_units annihilated = true.
Proof. vm_cast_no_check (eq_refl true). Qed.

Lemma is_zero_sound (x : Xoshiro256StarStar) : is_zero x = true -> x = zero.
Proof.
  destruct x as [a b c d]. unfold is_zero, zero. cbn [s0 s1 s2 s3].
  intros H. repeat (apply andb_prop in H as [H ?]).
  repeat match goal with E : (_ =? _) = true |- _ => apply Z.eqb_eq in E end.
  congruence.
Qed.

Lemma annihilated_sound (x : Xoshiro256StarStar) :
  annihilated x = true -> ev step' chi x = zero.
Proof. unfold annihilated. apply is_zero_sound. Qed.

Lemma chi_unit (i j : nat) :
  (i < 4)%nat -> (j < 64)%nat ->
  ev step' chi (emb i (Z.shiftl 1 (Z.of_nat j))) = zero.
Proof.
  intros Hi Hj. apply annihilated_sound.
  apply on_units_spec; [exact chi_check_ok | exact Hi | exact Hj].
Qed.

Lemma shiftl_split (w k : Z) :
  0 <= k ->
  Z.shiftl w k
  = Z.lxor (Z.shiftl (Z.b2z (Z.odd w)) k) (Z.shiftl (Z.div2 w) (k + 1)).
Proof.
  intros Hk. apply Z.bits_inj'. intros n Hn.
  rewrite Z.lxor_spec, !Z.shiftl_spec by lia.
  destruct (Z.lt_trichotomy n k) as [Hlt|[->|Hgt]].
  - rewrite !(Z.testbit_neg_r _ (n - _)) by lia. reflexivity.
  - rewrite Z.sub_diag, Z.b2z_bit0, Z.bit0_odd.
    rewrite (Z.testbit_neg_r _ (k - (k + 1))) by lia.
    rewrite Bool.xorb_false_r. reflexivity.
  - rewrite Z.div2_spec, Z.shiftr_spec by lia.
    replace (n - (k + 1) + 1) with (n - k) by lia.
    assert (Hb : Z.testbit (Z.b2z (Z.odd w)) (n - k) = false).
    { destruct (Z.odd w); cbn [Z.b2z]; [|apply Z.bits_0].
      apply Z.bits_above_log2; cbn; lia. }
    rewrite Hb. reflexivity.
Qed.

(** A map of words that turns [^] into [(+)] and vanishes on the 64
    powers of two vanishes on every [uint64]. *)
Lemma additive_vanishes (g : Z -> Xoshiro256StarStar) :
  (forall a b, g (Z.lxor a b) = g a (+) g b) ->
  (forall j, (j < 64)%nat -> g (Z.shiftl 1 (Z.of_nat j)) = zero) ->
  forall (n k : nat) (w : Z),
  (k + n <= 64)%nat -> 0 <= w < 2 ^ Z.of_nat n ->
  g (Z.shiftl w (Z.of_nat k)) = zero.
Proof.
  intros Hadd Hunit.
  assert (H0 : g 0 = zero).
  { apply (xor_cancel (g 0)). rewrite <- Hadd. reflexivity. }
  induction n as [|n IH]; intros k w Hk Hw.
  - assert (w = 0) by (cbn in Hw; lia). subst w.
    rewrite Z.shiftl_0_l. exact H0.
  - rewrite shiftl_split, Hadd by lia.
    replace (Z.of_nat k + 1) with (Z.of_nat (S k)) by lia.
    rewrite (IH (S k) (Z.div2 w)).
    + rewrite xor_zero_r. destruct (Z.odd w); cbn [Z.b2z].
      * apply Hunit. lia.
      * rewrite Z.shiftl_0_l. exact H0.
    + lia.
    + rewrite Nat2Z.inj_succ, Z.pow_succ_r in Hw by lia.
      rewrite Z.div2_div. split.
      * apply Z.div_pos; lia.
      * apply Z.div_lt_upper_bound; lia.
Qed.

Lemma emb_lxor (i : nat) (a b : Z) : emb i (Z.lxor a b) = emb i a (+) emb i b.
Proof. destruct i as [|[|[|i]]]; reflexivity. Qed.

Lemma emb_decompose (x : Xoshiro256StarStar) :
  x = emb 0 (s0 x) (+) emb 1 (s1 x) (+) emb 2 (s2 x) (+) emb 3 (s3 x).
Proof.
  destruct x as [a b c d]. unfold emb, xor_state. cbn [s0 s1 s2 s3].
  rewrite !Z.lxor_0_r, !Z.lxor_0_l. reflexivity.
Qed.

Lemma chi_word (i : nat) (w : Z) :
  (i < 4)%nat -> is_uint64 w -> ev step' chi (emb i w) = zero.
Proof.
  intros Hi Hw. rewrite <- (Z.shiftl_0_r w).
  apply (additive_vanishes (fun w => ev step' chi (emb i w))) with (n := 64%nat) (k := 0%nat).
  - intros a b. rewrite emb_lxor. apply ev_xor, step'_xor.
  - intros j Hj. apply chi_unit; assumption.
  - lia.
  - exact Hw.
Qed.

Lemma chi_annihilates (x : Xoshiro256StarStar) : wf x -> ev step' chi x = zero.
Proof.
  intros (H0 & H1 & H2 & H3). rewrite (emb_decompose x).
  rewrite !(ev_xor step' step'_xor), !chi_word by (assumption || lia).
  reflexivity.
Qed.

(** *** The loop of [Jump] evaluates a polynomial in the transition *)

(** The bits of a word of the constant, as the loop tests them. *)
Definition wbits (w : Z) : list bool :=
  map (fun b => negb (Z.land w (shl64 1 (Z.of_nat b)) =? 0)) (seq 0 64).

(** The polynomial of a jump constant. *)
Definition jbits (jump : list Z) : list bool := concat (map wbits jump).

Definition wbit (w : Z) (b : nat) : bool :=
  negb (Z.land w (shl64 1 (Z.of_nat b)) =? 0).

Lemma jump_bit_eq (w : Z) (b : nat) (acc x : Xoshiro256StarStar) :
  jump_bit w b (acc, x) = ((if wbit w b then acc (+) x else acc), step x).
Proof. reflexivity. Qed.

Lemma jump_bits_fold (w : Z) (bs : list nat) :
  forall acc x,
  fold_left (fun ax b => jump_bit w b ax) bs (acc, x)
  = (acc (+) ev step (map (wbit w) bs) x, Nat.iter (length bs) step x).
Proof.
  induction bs as [|b bs IH]; intros acc x.
  - cbn [fold_left map ev length Nat.iter nat_rect]. rewrite xor_zero_r. reflexivity.
  - cbn [fold_left map ev length]. rewrite jump_bit_eq, IH, Nat.iter_succ_r.
    destruct (wbit w b); [rewrite xor_assoc|]; reflexivity.
Qed.

Lemma wbits_eq (w : Z) : wbits w = map (wbit w) (seq 0 64).
Proof. reflexivity. Qed.

Lemma jump_word (w : Z) (acc x : Xoshiro256StarStar) :
  for_loop 0 64 (jump_bit w) (acc, x)
  = (acc (+) ev step (wbits w) x, Nat.iter 64 step x).
Proof.
  rewrite LoopFacts.for_loop_unfold, wbits_eq.
  exact (jump_bits_fold w (seq 0 64) acc x).
Qed.

Lemma jbits_cons (w : Z) (jump : list Z) : jbits (w :: jump) = wbits w ++ jbits jump.
Proof. reflexivity. Qed.

Lemma wbits_length (w : Z) : length (wbits w) = 64%nat.
Proof. reflexivity. Qed.

Lemma fold_left_cons {A B : Type} (f : A -> B -> A) (b : B) (l : list B) (a : A) :
  fold_left f (b :: l) a = fold_left f l (f a b).
Proof. reflexivity. Qed.

Lemma jbits_nil : jbits [] = [].
Proof. reflexivity. Qed.

Lemma ev_nil (T : Xoshiro256StarStar -> Xoshiro256StarStar) (x : Xoshiro256StarStar) :
  ev T [] x = zero.
Proof. reflexivity. Qed.

Lemma jump_words_fold (jump : list Z) :
  forall acc x,
  fold_left (fun ax w => for_loop 0 64 (jump_bit w) ax) jump (acc, x)
  = (acc (+) ev step (jbits jump) x, Nat.iter (64 * length jump) step x).
Proof.
  induction jump as [|w jump IH]; intros acc x.
  - rewrite jbits_nil, ev_nil, xor_zero_r. reflexivity.
  - rewrite fold_left_cons, jump_word, IH, jbits_cons, ev_app.
    rewrite wbits_length, xor_assoc, length_cons.
    replace (64 * S (length jump))%nat with (64 * length jump + 64)%nat by lia.
    rewrite Nat.iter_add. reflexivity.
Qed.

Lemma jump_loops_ev (jump : list Z) (acc x : Xoshiro256StarStar) :
  jump_loops jump (acc, x)
  = (acc (+) ev step (jbits jump) x, Nat.iter (64 * length jump) step x).
Proof.
  unfold jump_loops.
  rewrite (LoopFacts.for_loop_lookup (fun w ax => for_loop 0 64 (jump_bit w) ax)).
  apply jump_words_fold.
Qed.

Lemma jump_with_ev (jump : list Z) (x : Xoshiro256StarStar) :
  jump_with jump x = ev step (jbits jump) x.
Proof. unfold jump_with. rewrite jump_loops_ev. cbn [fst]. apply xor_zero_l. Qed.

(** *** From [step] to [step'] on well-formed states *)

Lemma ev_step_step' (p : list bool) :
  forall x, wf x -> ev step p x = ev step' p x.
Proof.
  induction p as [|b p IH]; intros x Hx; cbn [ev]; [reflexivity|].
  rewrite (step_step' x Hx), (IH (step' x) (step'_wf x Hx)). reflexivity.
Qed.

Lemma iter2_step_step' (k : nat) :
  forall x, wf x -> iter2 k step x = iter2 k step' x.
Proof.
  induction k as [|k IH]; intros x Hx; cbn [iter2]; [apply step_step', Hx|].
  rewrite (IH x Hx). apply IH, (iter2_wf step' step'_wf), Hx.
Qed.

Lemma N_iter_pow2 (f : Xoshiro256StarStar -> Xoshiro256StarStar) (k : nat) :
  forall x, N.iter (2 ^ N.of_nat k) f x = iter2 k f x.
Proof.
  induction k as [|k IH]; intros x; [reflexivity|].
  rewrite Nat2N.inj_succ, N.pow_succ_r'.
  replace (2 * 2 ^ N.of_nat k)%N with (2 ^ N.of_nat k + 2 ^ N.of_nat k)%N by lia.
  rewrite N.iter_add, !IH. reflexivity.
Qed.

(** *** The two constants *)

(** [k] checked squarings from [r] arrive at the polynomial [p]. *)
Definition reaches (r : list bool) (k : nat) (p : list bool) : bool :=
  match chain_from chi r k with
  | Some r' => peqb r' p
  | None => false
  end.

(** 128 squarings of [x] modulo [chi] give the polynomial of [JUMP], 64
    more that of [LONG_JUMP]. *)
Lemma jump_check_ok : reaches [false; true] 128 (jbits JUMP) = true.
Proof. vm_cast_no_check (eq_refl true). Qed.

Lemma long_jump_check_ok : reaches (jbits JUMP) 64 (jbits LONG_JUMP) = true.
Proof. vm_cast_no_check (eq_refl true). Qed.

Lemma reaches_sound (r0 : list bool) (k0 k : nat) (p : list bool) :
  (forall x, wf x -> ev step' r0 x = iter2 k0 step' x) ->
  reaches r0 k p = true ->
  forall x, wf x -> ev step' p x = iter2 (k + k0) step' x.
Proof.
  intros H0 Hr x Hx. unfold reaches in Hr.
  destruct (chain_from chi r0 k) as [r|] eqn:E; [|discriminate].
  rewrite <- (peqb_sound step' r p Hr).
  exact (chain_from_sound step' step'_xor step'_wf chi chi_annihilates
           r0 k0 H0 k r E x Hx).
Qed.

Lemma ev_x (x : Xoshiro256StarStar) : ev step' [false; true] x = iter2 0 step' x.
Proof. cbn [ev iter2]. apply xor_zero_r. Qed.

Lemma jump_poly (x : Xoshiro256StarStar) :
  wf x -> ev step' (jbits JUMP) x = iter2 128 step' x.
Proof.
  intros Hx.
  exact (reaches_sound [false; true] 0 128 (jbits JUMP)
           (fun y _ => ev_x y) jump_check_ok x Hx).
Qed.

Lemma long_jump_poly (x : Xoshiro256StarStar) :
  wf x -> ev step' (jbits LONG_JUMP) x = iter2 192 step' x.
Proof.
  intros Hx.
  exact (reaches_sound (jbits JUMP) 128 64 (jbits LONG_JUMP)
           jump_poly long_jump_check_ok x Hx).
Qed.

Lemma jump_with_pow2 (jump : list Z) (k : nat) (x : Xoshiro256StarStar) :
  (forall y, wf y -> ev step' (jbits jump) y = iter2 k step' y) ->
  wf x ->
  jump_with jump x = N.iter (2 ^ N.of_nat k) step x.
Proof.
  intros H Hx.
  rewrite jump_with_ev, (ev_step_step' _ x Hx), (H x Hx).
  rewrite N_iter_pow2. symmetry. apply iter2_step_step', Hx.
Qed.

(** C7: on every state of four 64-bit words, [Jump] leaves the state
    that 2^128 applications of the transition of [Uint64] lead to, and
    [LongJump] the state after 2^192 of them; the loops run through all
    64 bit positions of every word of the constant and advance the
    generator once at each, whatever the bit, so that for the four-word
    constants the generator has advanced 256 times when the accumulator
    replaces it. *)
Theorem Jump_advances_by_2_128 (x acc : Xoshiro256StarStar) (jump : list Z) :
  wf x ->
  Jump x = N.iter (2 ^ 128) step x
  /\ LongJump x = N.iter (2 ^ 192) step x
  /\ snd (jump_loops jump (acc, x)) = Nat.iter (64 * length jump) step x
  /\ snd (jump_loops JUMP (zero, x)) = Nat.iter 256 step x
  /\ snd (jump_loops LONG_JUMP (zero, x)) = Nat.iter 256 step x.
Proof.
  intros Hx. split; [|split; [|split; [|split]]].
  - exact (jump_with_pow2 JUMP 128 x jump_poly Hx).
  - exact (jump_with_pow2 LONG_JUMP 192 x long_jump_poly Hx).
  - rewrite jump_loops_ev. reflexivity.
  - rewrite jump_loops_ev. reflexivity.
  - rewrite jump_loops_ev. reflexivity.
Qed.

Lemma Jump_advances_by_2_128_witness :
  wf (Mk 1 2 3 4)
  /\ Jump (Mk 1 2 3 4) = N.iter (2 ^ 128) step (Mk 1 2 3 4)
  /\ LongJump (Mk 1 2 3 4) = N.iter (2 ^ 192) step (Mk 1 2 3 4)
  /\ snd (jump_loops JUMP (zero, Mk 1 2 3 4))
     = Nat.iter (64 * length JUMP) step (Mk 1 2 3 4)
  /\ snd (jump_loops JUMP (zero, Mk 1 2 3 4)) = Nat.iter 256 step (Mk 1 2 3 4)
  /\ snd (jump_loops LONG_JUMP (zero, Mk 1 2 3 4))
     = Nat.iter 256 step (Mk 1 2 3 4).
Proof.
  assert (H : wf (Mk 1 2 3 4))
    by (unfold wf, is_uint64; cbn [s0 s1 s2 s3]; lia).
  split; [exact H|].
  exact (Jump_advances_by_2_128 (Mk 1 2 3 4) zero JUMP H).
Defined.

End XoshiroFacts.

(** * Further properties of the packages *)

(** ** Marshal and Unmarshal are inverse *)

Module RoundTrip.
Import UnmarshalFacts.

Lemma byte_of_value (v : Z) : Z.of_N (Byte.to_N (byte_of v)) = v mod 256.
Proof.
  unfold byte_of. change 0xff with (Z.ones 8). rewrite Z.land_ones by lia.
  change (2 ^ 8) with 256. pose proof (Z.mod_pos_bound v 256 ltac:(lia)) as Hb.
  destruct (Byte.of_N (Z.to_N (v mod 256))) as [b|] eqn:E.
  - apply Byte.to_of_N in E. rewrite E. apply Z2N.id. lia.
  - apply Byte.of_N_None_iff in E. lia.
Qed.

Lemma length_le_bytes (n : nat) : forall v, length (le_bytes n v) = n.
Proof. induction n as [|n IH]; intros v; cbn [le_bytes length]; [|rewrite IH]; reflexivity. Qed.

(** Decoding the [n] bytes of [v] gives [v] back, up to [8 n] bits. *)
Lemma le_combine_le_bytes (n : nat) :
  forall v, le_combine (le_bytes n v) = v mod 2 ^ (8 * Z.of_nat n).
Proof.
  induction n as [|n IH]; intros v; cbn [le_bytes le_combine].
  - rewrite Z.mod_1_r. reflexivity.
  - rewrite byte_of_value, IH, Z.shiftr_div_pow2 by lia.
    replace (8 * Z.of_nat (S n)) with (8 + 8 * Z.of_nat n) by lia.
    rewrite Z.pow_add_r by lia. change (2 ^ 8) with 256.
    symmetry. apply Z.rem_mul_r; [lia|]. apply Z.pow_pos_nonneg; lia.
Qed.

(** The bytes of a sequence of words, eight per word. *)
Definition words_bytes (ws : list Z) : list byte := concat (map (le_bytes 8) ws).

Lemma length_words_bytes (ws : list Z) : length (words_bytes ws) = (length ws * 8)%nat.
Proof.
  induction ws as [|w ws IH]; [reflexivity|].
  unfold words_bytes in *. cbn [map concat]. rewrite length_app, length_le_bytes, IH.
  cbn [length]. lia.
Qed.

Lemma words_bytes_snoc (ws : list Z) (w : Z) :
  words_bytes (ws ++ [w]) = words_bytes ws ++ le_bytes 8 w.
Proof.
  unfold words_bytes. rewrite map_app, concat_app. cbn [map concat].
  rewrite app_nil_r. reflexivity.
Qed.

(** The word read at byte [8 i] of an encoded sequence is its word [i]. *)
Lemma word_at_words_bytes (ws : list Z) :
  forall (i : nat) (rest : list byte),
  (i < length ws)%nat ->
  le_uint64 (drop (i * 8) (words_bytes ws ++ rest)) = (ws !!! i) mod 2 ^ 64.
Proof.
  induction ws as [|w ws IH]; intros i rest Hi; [cbn in Hi; lia|].
  unfold words_bytes. cbn [map concat]. fold (words_bytes ws).
  rewrite <- app_assoc. destruct i as [|i].
  - change (0 * 8)%nat with 0%nat. rewrite drop_0. unfold le_uint64.
    rewrite take_app_length' by (rewrite length_le_bytes; reflexivity).
    rewrite le_combine_le_bytes. reflexivity.
  - replace (S i * 8)%nat with (8 + i * 8)%nat by lia.
    rewrite <- drop_drop, drop_app_length' by (rewrite length_le_bytes; reflexivity).
    rewrite IH by (cbn in Hi; lia). reflexivity.
Qed.

Lemma word_at_small (ws : list Z) (i : nat) (rest : list byte) :
  (i < length ws)%nat -> is_uint64 (ws !!! i) ->
  le_uint64 (drop (i * 8) (words_bytes ws ++ rest)) = ws !!! i.
Proof.
  intros Hi Hw. rewrite word_at_words_bytes by exact Hi. apply Z.mod_small, Hw.
Qed.

Lemma word_at_bytes (ws : list Z) (i : nat) (k : Z) :
  k = Z.of_nat i * 8 -> (i < length ws)%nat -> is_uint64 (ws !!! i) ->
  word_at k (words_bytes ws) = ws !!! i.
Proof.
  intros -> Hi Hw. unfold word_at, slice_from.
  replace (Z.to_nat (Z.of_nat i * 8)) with (i * 8)%nat by lia.
  rewrite <- (app_nil_r (words_bytes ws)). apply word_at_small; assumption.
Qed.

Lemma int_of_uint64_wrap64 (c : Z) : is_int c -> int_of_uint64 (wrap64 c) = c.
Proof.
  intros [Hlo Hhi]. rewrite wrap64_mod. unfold int_of_uint64.
  destruct (Z.le_gt_cases 0 c) as [Hpos|Hneg].
  - rewrite Z.mod_small by lia. destruct (Z.ltb_spec c (2 ^ 63)); [reflexivity|lia].
  - assert (E : c mod 2 ^ 64 = c + 2 ^ 64).
    { symmetry. apply Z.mod_unique with (q := -1); lia. }
    rewrite E. destruct (Z.ltb_spec (c + 2 ^ 64) (2 ^ 63)); lia.
Qed.

(** *** pcg32 *)

Lemma pcg32_Marshal_bytes (p : PCG32.PCG32) :
  PCG32.Marshal p = (words_bytes [PCG32.state p; PCG32.inc p], None).
Proof. reflexivity. Qed.

(** X1: the 16 bytes of [Marshal], without error, unmarshal into any pcg32
    generator as the marshalled state. *)
Theorem pcg32_round_trip (p q : PCG32.PCG32) :
  is_uint64 (PCG32.state p) -> is_uint64 (PCG32.inc p) ->
  length (fst (PCG32.Marshal p)) = 16%nat
  /\ snd (PCG32.Marshal p) = None
  /\ PCG32.Unmarshal q (fst (PCG32.Marshal p)) = (p, None).
Proof.
  intros Hs Hi. rewrite pcg32_Marshal_bytes. cbn [fst snd].
  set (ws := [PCG32.state p; PCG32.inc p]).
  assert (Hlen : length (words_bytes ws) = 16%nat) by apply length_words_bytes.
  split; [exact Hlen|]. split; [reflexivity|].
  rewrite (proj2 (pcg32_exact q (words_bytes ws)) Hlen). unfold decode_pcg32.
  rewrite (word_at_bytes ws 0 0), (word_at_bytes ws 1 8) by (cbn; first [assumption | lia]).
  destruct p. reflexivity.
Qed.

Lemma pcg32_round_trip_witness :
  is_uint64 (PCG32.state (PCG32.Mk 7 9)) /\ is_uint64 (PCG32.inc (PCG32.Mk 7 9))
  /\ length (fst (PCG32.Marshal (PCG32.Mk 7 9))) = 16%nat
  /\ snd (PCG32.Marshal (PCG32.Mk 7 9)) = None
  /\ PCG32.Unmarshal (PCG32.Mk 0 0) (fst (PCG32.Marshal (PCG32.Mk 7 9)))
     = (PCG32.Mk 7 9, None).
Proof.
  assert (H1 : is_uint64 7) by (unfold is_uint64; lia).
  assert (H2 : is_uint64 9) by (unfold is_uint64; lia).
  split; [exact H1|]. split; [exact H2|].
  exact (pcg32_round_trip (PCG32.Mk 7 9) (PCG32.Mk 0 0) H1 H2).
Defined.

(** *** pcg64 *)

Lemma pcg64_Marshal_bytes (p : PCG64.PCG64) :
  PCG64.Marshal p
  = (words_bytes [PCG64.low (PCG64.state p); PCG64.high (PCG64.state p);
                  PCG64.low (PCG64.inc p); PCG64.high (PCG64.inc p)], None).
Proof. reflexivity. Qed.

Definition wf_pcg64 (p : PCG64.PCG64) : Prop :=
  PCG64Facts.wf128 (PCG64.state p) /\ PCG64Facts.wf128 (PCG64.inc p).

(** X2: the 32 bytes of [Marshal], without error, unmarshal into any pcg64
    generator as the marshalled state. *)
Theorem pcg64_round_trip (p q : PCG64.PCG64) :
  wf_pcg64 p ->
  length (fst (PCG64.Marshal p)) = 32%nat
  /\ snd (PCG64.Marshal p) = None
  /\ PCG64.Unmarshal q (fst (PCG64.Marshal p)) = (p, None).
Proof.
  intros [[H0 H1] [H2 H3]]. rewrite pcg64_Marshal_bytes. cbn [fst snd].
  set (ws := [_; _; _; _]).
  assert (Hlen : length (words_bytes ws) = 32%nat) by apply length_words_bytes.
  split; [exact Hlen|]. split; [reflexivity|].
  rewrite (proj2 (pcg64_exact q (words_bytes ws)) Hlen). unfold decode_pcg64.
  rewrite (word_at_bytes ws 0 0), (word_at_bytes ws 1 8),
    (word_at_bytes ws 2 16), (word_at_bytes ws 3 24) by (cbn; first [assumption | lia]).
  destruct p as [[? ?] [? ?]]. reflexivity.
Qed.

Lemma pcg64_round_trip_witness :
  let p := PCG64.Mk (PCG64.U128 1 2) (PCG64.U128 3 4) in
  wf_pcg64 p
  /\ length (fst (PCG64.Marshal p)) = 32%nat
  /\ snd (PCG64.Marshal p) = None
  /\ PCG64.Unmarshal (PCG64.Mk (PCG64.U128 0 0) (PCG64.U128 0 0))
       (fst (PCG64.Marshal p)) = (p, None).
Proof.
  assert (H : wf_pcg64 (PCG64.Mk (PCG64.U128 1 2) (PCG64.U128 3 4))).
  { unfold wf_pcg64, PCG64Facts.wf128, is_uint64. cbn. lia. }
  split; [exact H|].
  exact (pcg64_round_trip _ (PCG64.Mk (PCG64.U128 0 0) (PCG64.U128 0 0)) H).
Defined.

(** *** splitmix64 *)

Lemma splitmix64_Marshal_bytes (x : SplitMix64.SplitMix64) :
  SplitMix64.Marshal x = (words_bytes [SplitMix64.state x], None).
Proof. reflexivity. Qed.

(** X3: the 8 bytes of [Marshal], without error, unmarshal into any
    splitmix64 generator as the marshalled state. *)
Theorem splitmix64_round_trip (x y : SplitMix64.SplitMix64) :
  is_uint64 (SplitMix64.state x) ->
  length (fst (SplitMix64.Marshal x)) = 8%nat
  /\ snd (SplitMix64.Marshal x) = None
  /\ SplitMix64.Unmarshal y (fst (SplitMix64.Marshal x)) = (x, None).
Proof.
  intros Hs. rewrite splitmix64_Marshal_bytes. cbn [fst snd].
  set (ws := [SplitMix64.state x]).
  assert (Hlen : length (words_bytes ws) = 8%nat) by apply length_words_bytes.
  split; [exact Hlen|]. split; [reflexivity|].
  rewrite (proj2 (splitmix64_exact y (words_bytes ws)) Hlen). unfold decode_splitmix64.
  rewrite (word_at_bytes ws 0 0) by (cbn; first [assumption | lia]).
  destruct x. reflexivity.
Qed.

Lemma splitmix64_round_trip_witness :
  is_uint64 (SplitMix64.state (SplitMix64.Mk 7))
  /\ length (fst (SplitMix64.Marshal (SplitMix64.Mk 7))) = 8%nat
  /\ snd (SplitMix64.Marshal (SplitMix64.Mk 7)) = None
  /\ SplitMix64.Unmarshal (SplitMix64.Mk 0) (fst (SplitMix64.Marshal (SplitMix64.Mk 7)))
     = (SplitMix64.Mk 7, None).
Proof.
  assert (H : is_uint64 7) by (unfold is_uint64; lia).
  split; [exact H|].
  exact (splitmix64_round_trip (SplitMix64.Mk 7) (SplitMix64.Mk 0) H).
Defined.

(** *** xoshiro256starstar *)

Lemma xoshiro_Marshal_bytes (x : Xoshiro256StarStar.Xoshiro256StarStar) :
  Xoshiro256StarStar.Marshal x
  = (words_bytes [Xoshiro256StarStar.s0 x; Xoshiro256StarStar.s1 x;
                  Xoshiro256StarStar.s2 x; Xoshiro256StarStar.s3 x], None).
Proof. reflexivity. Qed.

(** X4: the 32 bytes of [Marshal], without error, unmarshal into any
    xoshiro256starstar generator as the marshalled state. *)
Theorem xoshiro_round_trip (x y : Xoshiro256StarStar.Xoshiro256StarStar) :
  XoshiroFacts.wf x ->
  length (fst (Xoshiro256StarStar.Marshal x)) = 32%nat
  /\ snd (Xoshiro256StarStar.Marshal x) = None
  /\ Xoshiro256StarStar.Unmarshal y (fst (Xoshiro256StarStar.Marshal x)) = (x, None).
Proof.
  intros (H0 & H1 & H2 & H3). rewrite xoshiro_Marshal_bytes. cbn [fst snd].
  set (ws := [_; _; _; _]).
  assert (Hlen : length (words_bytes ws) = 32%nat) by apply length_words_bytes.
  split; [exact Hlen|]. split; [reflexivity|].
  rewrite (proj2 (xoshiro_exact y (words_bytes ws)) Hlen). unfold decode_xoshiro.
  rewrite (word_at_bytes ws 0 0), (word_at_bytes ws 1 8),
    (word_at_bytes ws 2 16), (word_at_bytes ws 3 24) by (cbn; first [assumption | lia]).
  destruct x. reflexivity.
Qed.

Lemma xoshiro_round_trip_witness :
  let x := Xoshiro256StarStar.Mk 1 2 3 4 in
  XoshiroFacts.wf x
  /\ length (fst (Xoshiro256StarStar.Marshal x)) = 32%nat
  /\ snd (Xoshiro256StarStar.Marshal x) = None
  /\ Xoshiro256StarStar.Unmarshal Xoshiro256StarStar.zero
       (fst (Xoshiro256StarStar.Marshal x)) = (x, None).
Proof.
  assert (H : XoshiroFacts.wf (Xoshiro256StarStar.Mk 1 2 3 4)).
  { unfold XoshiroFacts.wf, is_uint64. cbn. lia. }
  split; [exact H|].
  exact (xoshiro_round_trip _ Xoshiro256StarStar.zero H).
Defined.

(** *** mixmax *)

Lemma drop_repeat {A : Type} (x : A) (n : nat) :
  forall m, drop n (repeat x m) = repeat x (m - n).
Proof.
  induction n as [|n IH]; intros m.
  - rewrite drop_0, Nat.sub_0_r. reflexivity.
  - destruct m as [|m]; [reflexivity|]. cbn [repeat]. apply IH.
Qed.

Lemma map_seq_lookup (f : nat -> Z) (st : list Z) :
  forall k, (forall i, (i < length st)%nat -> f (k + i)%nat = st !!! i) ->
  map f (seq k (length st)) = st.
Proof.
  induction st as [|a st IH]; intros k H; [reflexivity|].
  cbn [length seq map]. f_equal.
  - rewrite <- (Nat.add_0_r k). apply (H 0%nat). cbn. lia.
  - apply IH. intros i Hi. replace (S k + i)%nat with (k + S i)%nat by lia.
    apply (H (S i)). cbn. lia.
Qed.

Lemma mixmax_Marshal_bytes (m : MIXMAX.MIXMAX) :
  length (MIXMAX.state m) = MIXMAX.N ->
  MIXMAX.Marshal m
  = (words_bytes (MIXMAX.state m ++ [wrap64 (MIXMAX.counter m)]), None).
Proof.
  intros Hlen. unfold MIXMAX.Marshal. f_equal.
  set (st := MIXMAX.state m) in *.
  assert (Hloop :
    for_loop 0 MIXMAX.N (fun i buf => PutUint64 (i * 8) (st !!! i) buf)
      (repeat x00 (MIXMAX.N * 8 + 8))
    = words_bytes st ++ repeat x00 8).
  { pose proof (LoopFacts.for_loop_ind
      (fun k buf =>
         buf = words_bytes (take k st) ++ repeat x00 (MIXMAX.N * 8 + 8 - k * 8))
      (fun i buf => PutUint64 (i * 8) (st !!! i) buf)
      0 MIXMAX.N (repeat x00 (MIXMAX.N * 8 + 8))) as I.
    cbv beta in I. rewrite I.
    - rewrite take_ge by lia. reflexivity.
    - lia.
    - rewrite take_0. reflexivity.
    - intros i buf Hi ->. unfold PutUint64.
      assert (Hl : length (words_bytes (take i st)) = (i * 8)%nat).
      { rewrite length_words_bytes, length_take. lia. }
      rewrite take_app_length' by (symmetry; exact Hl).
      rewrite drop_app_add' by (symmetry; exact Hl).
      rewrite drop_repeat.
      destruct (lookup_lt_is_Some_2 st i) as [v Hv]; [lia|].
      rewrite (take_S_r st i v Hv), words_bytes_snoc.
      rewrite (list_lookup_total_correct st i v Hv), <- app_assoc.
      do 3 f_equal. lia. }
  rewrite Hloop, words_bytes_snoc. unfold PutUint64.
  assert (Hl : length (words_bytes st) = (MIXMAX.N * 8)%nat).
  { rewrite length_words_bytes, Hlen. reflexivity. }
  rewrite take_app_length' by (symmetry; exact Hl).
  rewrite drop_app_add' by (symmetry; exact Hl).
  rewrite drop_repeat. cbn [Nat.sub repeat]. rewrite app_nil_r. reflexivity.
Qed.

Definition wf_mixmax (m : MIXMAX.MIXMAX) : Prop :=
  length (MIXMAX.state m) = MIXMAX.N
  /\ Forall is_uint64 (MIXMAX.state m)
  /\ is_int (MIXMAX.counter m).

(** X5: the 1928 bytes of [Marshal], without error, unmarshal into any
    mixmax generator as the marshalled array and cursor. *)
Theorem mixmax_round_trip (m q : MIXMAX.MIXMAX) :
  wf_mixmax m -> length (MIXMAX.state q) = MIXMAX.N ->
  length (fst (MIXMAX.Marshal m)) = 1928%nat
  /\ snd (MIXMAX.Marshal m) = None
  /\ MIXMAX.Unmarshal q (fst (MIXMAX.Marshal m)) = (m, None).
Proof.
  intros (Hlen & Hw & Hc) Hq. rewrite (mixmax_Marshal_bytes m Hlen). cbn [fst snd].
  set (ws := MIXMAX.state m ++ [wrap64 (MIXMAX.counter m)]).
  assert (Hws : length ws = 241%nat).
  { unfold ws. rewrite length_app, Hlen. reflexivity. }
  assert (Hb : length (words_bytes ws) = 1928%nat).
  { rewrite length_words_bytes, Hws. reflexivity. }
  split; [exact Hb|]. split; [reflexivity|].
  rewrite (proj2 (mixmax_exact q (words_bytes ws) Hq) Hb). unfold decode_mixmax.
  destruct m as [st c]. cbn [MIXMAX.state MIXMAX.counter] in *. do 2 f_equal.
  - replace (seq 0 240) with (seq 0 (length st)) by (rewrite Hlen; reflexivity).
    apply map_seq_lookup. intros i Hi. cbn [Nat.add].
    assert (E : ws !!! i = st !!! i) by (apply lookup_total_app_l; exact Hi).
    assert (Hi' : (i < length ws)%nat) by (unfold MIXMAX.N in Hlen; lia).
    assert (Hu : is_uint64 (ws !!! i)).
    { rewrite E. exact (Forall_lookup_total_1 _ st i Hw Hi). }
    rewrite (word_at_bytes ws i (Z.of_nat i * 8) eq_refl Hi' Hu). exact E.
  - assert (E : ws !!! 240%nat = wrap64 c).
    { apply list_lookup_total_middle. exact (eq_sym Hlen). }
    assert (Hu : is_uint64 (ws !!! 240%nat)) by (rewrite E; apply wrap64_range).
    rewrite (word_at_bytes ws 240 1920 eq_refl ltac:(lia) Hu), E.
    apply int_of_uint64_wrap64, Hc.
Qed.

Lemma mixmax_round_trip_witness :
  let m := MIXMAX.Mk (repeat 5 240) 17 in
  let q := MIXMAX.Mk (repeat 0 240) 0 in
  wf_mixmax m /\ length (MIXMAX.state q) = MIXMAX.N
  /\ length (fst (MIXMAX.Marshal m)) = 1928%nat
  /\ snd (MIXMAX.Marshal m) = None
  /\ MIXMAX.Unmarshal q (fst (MIXMAX.Marshal m)) = (m, None).
Proof.
  assert (H : wf_mixmax (MIXMAX.Mk (repeat 5 240) 17)).
  { split; [reflexivity|]. split.
    - cbn [MIXMAX.state]. apply List.Forall_forall. intros w Hin.
      apply repeat_spec in Hin. subst w.
      unfold is_uint64. lia.
    - unfold is_int. cbn. lia. }
  split; [exact H|]. split; [reflexivity|].
  exact (mixmax_round_trip _ (MIXMAX.Mk (repeat 0 240) 0) H eq_refl).
Defined.

End RoundTrip.

(** ** pcg64: what the 128-bit helpers and the step compute *)

Module Arith128.
Import PCG64 PCG64Facts.

Lemma add64_carry (a b : Z) :
  is_uint64 a -> is_uint64 b ->
  add64 a b = a + b - 2 ^ 64 * (if add64 a b <? a then 1 else 0).
Proof.
  intros [Ha0 Ha1] [Hb0 Hb1]. unfold add64. rewrite wrap64_mod.
  destruct (Z.lt_ge_cases (a + b) (2 ^ 64)) as [Hs|Hs].
  - rewrite Z.mod_small by lia. destruct (Z.ltb_spec (a + b) a); lia.
  - assert (E : (a + b) mod 2 ^ 64 = a + b - 2 ^ 64).
    { symmetry. apply Z.mod_unique with (q := 1); lia. }
    rewrite E. destruct (Z.ltb_spec (a + b - 2 ^ 64) a); lia.
Qed.

Lemma add128_wf (a b : uint128) : wf128 (add128 a b).
Proof.
  unfold add128, wf128, is_uint64. cbn [low high]. split.
  - apply wrap64_range.
  - destruct (_ <? _); apply wrap64_range.
Qed.

Lemma add128_value (a b : uint128) :
  wf128 a -> wf128 b ->
  value128 (add128 a b) = (value128 a + value128 b) mod 2 ^ 128.
Proof.
  intros [Hal Hah] [Hbl Hbh].
  pose proof (add64_carry (low a) (low b) Hal Hbl) as Hlow.
  unfold value128, add128. cbn [low high].
  set (l := add64 (low a) (low b)) in *.
  set (c := if l <? low a then 1 else 0) in *.
  assert (Hc : 0 <= c <= 1) by (subst c; destruct (_ <? _); lia).
  assert (Hh : (if l <? low a then add64 (add64 (high a) (high b)) 1
                else add64 (high a) (high b))
               = (high a + high b + c) mod 2 ^ 64).
  { subst c. unfold add64. rewrite !wrap64_mod.
    destruct (l <? low a).
    - rewrite Z.add_mod_idemp_l by lia. reflexivity.
    - rewrite Z.add_0_r. reflexivity. }
  rewrite Hh.
  pose proof (Z.div_mod (high a + high b + c) (2 ^ 64) ltac:(lia)) as Hdm.
  pose proof (Z.mod_pos_bound (high a + high b + c) (2 ^ 64) ltac:(lia)) as Hb.
  assert (Hl : 0 <= l < 2 ^ 64) by (subst l; unfold add64; apply wrap64_range).
  apply Z.mod_unique with (q := (high a + high b + c) / 2 ^ 64).
  - left. lia.
  - lia.
Qed.

(** X6: [add128] is addition modulo 2^128: the carry out of the low words,
    found by the comparison [low < a.low], reaches the high word. *)
Theorem add128_exact (a b : uint128) :
  wf128 a -> wf128 b ->
  value128 (add128 a b) = (value128 a + value128 b) mod 2 ^ 128.
Proof. exact (add128_value a b). Qed.

Lemma add128_exact_witness :
  wf128 (U128 (2 ^ 64 - 1) 7) /\ wf128 (U128 1 (2 ^ 64 - 8))
  /\ value128 (add128 (U128 (2 ^ 64 - 1) 7) (U128 1 (2 ^ 64 - 8)))
     = (value128 (U128 (2 ^ 64 - 1) 7) + value128 (U128 1 (2 ^ 64 - 8))) mod 2 ^ 128.
Proof.
  assert (H1 : wf128 (U128 (2 ^ 64 - 1) 7)) by (unfold wf128, is_uint64; cbn; lia).
  assert (H2 : wf128 (U128 1 (2 ^ 64 - 8))) by (unfold wf128, is_uint64; cbn; lia).
  split; [exact H1|]. split; [exact H2|]. exact (add128_exact _ _ H1 H2).
Defined.

(** X7: [mul128] multiplies word by word: the result is the low product and
    the high product, each modulo 2^64; the cross products
    [a.low * b.high] and [a.high * b.low] and the upper half of
    [a.low * b.low] do not enter it. *)
Theorem mul128_word_products (a b : uint128) :
  wf128 a -> wf128 b ->
  mul128 a b = U128 ((low a * low b) mod 2 ^ 64) ((high a * high b) mod 2 ^ 64).
Proof.
  intros Ha Hb. rewrite (mul128_words a b Ha Hb). unfold mul64.
  rewrite !wrap64_mod. reflexivity.
Qed.

Lemma mul128_word_products_witness :
  wf128 (U128 3 5) /\ wf128 (U128 7 11)
  /\ mul128 (U128 3 5) (U128 7 11)
     = U128 ((low (U128 3 5) * low (U128 7 11)) mod 2 ^ 64)
            ((high (U128 3 5) * high (U128 7 11)) mod 2 ^ 64).
Proof.
  assert (H1 : wf128 (U128 3 5)) by (unfold wf128, is_uint64; cbn; lia).
  assert (H2 : wf128 (U128 7 11)) by (unfold wf128, is_uint64; cbn; lia).
  split; [exact H1|]. split; [exact H2|]. exact (mul128_word_products _ _ H1 H2).
Defined.

Lemma multiplier_wf : wf128 multiplier.
Proof. unfold wf128, is_uint64. cbn. lia. Qed.

Lemma Next_state (p : PCG64) :
  RoundTrip.wf_pcg64 p ->
  state (snd (Next p))
  = add128 (U128 ((low (state p) * low multiplier) mod 2 ^ 64)
                 ((high (state p) * high multiplier) mod 2 ^ 64))
           (inc p).
Proof.
  intros [Hs Hi]. unfold Next. cbn [snd state].
  rewrite (mul128_words _ _ Hs multiplier_wf). unfold mul64.
  rewrite !wrap64_mod. reflexivity.
Qed.

(** X8: one step of pcg64 advances two 64-bit congruential generators: the
    low word by the low multiplier and increment, the high word by the
    high ones, and nothing but the carry of the low addition passes from
    the low word to the high word.  The increment is kept. *)
Theorem Next_two_word_generators (p : PCG64) :
  RoundTrip.wf_pcg64 p ->
  low (state (snd (Next p)))
    = (low (state p) * 0x5851f42d4c957f2d + low (inc p)) mod 2 ^ 64
  /\ high (state (snd (Next p)))
    = (high (state p) * 0x14057b7ef767814f + high (inc p)
       + (if 2 ^ 64 <=? (low (state p) * 0x5851f42d4c957f2d) mod 2 ^ 64 + low (inc p)
          then 1 else 0)) mod 2 ^ 64
  /\ inc (snd (Next p)) = inc p
  /\ RoundTrip.wf_pcg64 (snd (Next p)).
Proof.
  intros Hp. pose proof Hp as [Hs [Hil Hih]].
  assert (Hwf : RoundTrip.wf_pcg64 (snd (Next p))).
  { split; [|exact (conj Hil Hih)]. rewrite (Next_state p Hp). apply add128_wf. }
  rewrite (Next_state p Hp). change (low multiplier) with 0x5851f42d4c957f2d.
  change (high multiplier) with 0x14057b7ef767814f.
  set (x := (low (state p) * 0x5851f42d4c957f2d) mod 2 ^ 64).
  set (y := (high (state p) * 0x14057b7ef767814f) mod 2 ^ 64).
  assert (Hx : is_uint64 x) by (apply Z.mod_pos_bound; lia).
  assert (Hy : is_uint64 y) by (apply Z.mod_pos_bound; lia).
  pose proof (add64_carry x (low (inc p)) Hx Hil) as Hc.
  unfold add128. cbn [low high].
  split; [|split; [|split; [reflexivity|exact Hwf]]].
  - unfold add64. rewrite wrap64_mod. subst x.
    rewrite Z.add_mod_idemp_l by lia. reflexivity.
  - assert (Hl : 0 <= add64 x (low (inc p)) < 2 ^ 64)
      by (unfold add64; apply wrap64_range).
    destruct Hx, Hil.
    destruct (Z.ltb_spec (add64 x (low (inc p))) x) as [Hlt|Hge];
      destruct (Z.leb_spec (2 ^ 64) (x + low (inc p))) as [Hov|Hno];
      try lia; unfold add64; rewrite !wrap64_mod; subst y.
    + rewrite Z.add_mod_idemp_l by lia.
      rewrite <- Z.add_assoc, Z.add_mod_idemp_l, Z.add_assoc by lia. reflexivity.
    + rewrite Z.add_0_r. rewrite Z.add_mod_idemp_l by lia. reflexivity.
Qed.

Lemma Next_two_word_generators_witness :
  let p := Mk (U128 1 2) (U128 3 4) in
  RoundTrip.wf_pcg64 p
  /\ low (state (snd (Next p)))
    = (low (state p) * 0x5851f42d4c957f2d + low (inc p)) mod 2 ^ 64
  /\ high (state (snd (Next p)))
    = (high (state p) * 0x14057b7ef767814f + high (inc p)
       + (if 2 ^ 64 <=? (low (state p) * 0x5851f42d4c957f2d) mod 2 ^ 64 + low (inc p)
          then 1 else 0)) mod 2 ^ 64
  /\ inc (snd (Next p)) = inc p
  /\ RoundTrip.wf_pcg64 (snd (Next p)).
Proof.
  assert (H : RoundTrip.wf_pcg64 (Mk (U128 1 2) (U128 3 4))).
  { unfold RoundTrip.wf_pcg64, wf128, is_uint64. cbn. lia. }
  split; [exact H|]. exact (Next_two_word_generators _ H).
Defined.

End Arith128.

(** ** The words the generators return, and the values derived from them *)

Module DerivedWords.

Lemma uint32_fix (w : Z) : is_uint32 w <-> wrap32 w = w.
Proof. split; [apply wrap32_small|]. intros <-. apply wrap32_range. Qed.

Lemma lor_uint64 (a b : Z) : is_uint64 a -> is_uint64 b -> is_uint64 (Z.lor a b).
Proof.
  rewrite !XoshiroFacts.uint64_fix. unfold wrap64. intros Ha Hb.
  rewrite Z.land_lor_distr_l, Ha, Hb. reflexivity.
Qed.

Lemma lor_uint32 (a b : Z) : is_uint32 a -> is_uint32 b -> is_uint32 (Z.lor a b).
Proof.
  rewrite !uint32_fix. unfold wrap32. intros Ha Hb.
  rewrite Z.land_lor_distr_l, Ha, Hb. reflexivity.
Qed.

Lemma shiftr_uint32 (w k : Z) : is_uint32 w -> 0 <= k -> is_uint32 (Z.shiftr w k).
Proof.
  intros [H0 H1] Hk. unfold is_uint32. rewrite Z.shiftr_div_pow2 by exact Hk.
  assert (0 < 2 ^ k) by (apply Z.pow_pos_nonneg; lia).
  split; [apply Z.div_pos; lia|]. apply Z.div_lt_upper_bound; nia.
Qed.

Lemma land_small (k m : Z) : 0 <= m -> 0 <= Z.land k m <= m.
Proof.
  intros Hm. split; [apply Z.land_nonneg; right; exact Hm|apply land_le_r, Hm].
Qed.

(** A rotation of a word stays within the word, whatever the count. *)
Lemma RotateLeft64_uint64 (x k : Z) : is_uint64 x -> is_uint64 (RotateLeft64 x k).
Proof.
  intros Hx. unfold RotateLeft64. cbv zeta.
  pose proof (land_small k 63 ltac:(lia)).
  apply lor_uint64; [apply wrap64_range|].
  apply XoshiroFacts.shr64_uint64; [exact Hx|lia].
Qed.

Lemma RotateLeft32_uint32 (x k : Z) : is_uint32 x -> is_uint32 (RotateLeft32 x k).
Proof.
  intros Hx. unfold RotateLeft32. cbv zeta.
  pose proof (land_small k 31 ltac:(lia)).
  apply lor_uint32; [apply wrap32_range|].
  apply shiftr_uint32; [exact Hx|lia].
Qed.

(** [int64(v >> 1)]: the upper 63 bits, never negative. *)
Lemma int64_half (v : Z) :
  is_uint64 v -> int_of_uint64 (shr64 v 1) = v / 2 /\ 0 <= v / 2 < 2 ^ 63.
Proof.
  intros [H0 H1]. unfold shr64. rewrite Z.shiftr_div_pow2 by lia.
  change (2 ^ 1) with 2.
  assert (Hr : 0 <= v / 2 < 2 ^ 63).
  { split; [apply Z.div_pos; lia|]. apply Z.div_lt_upper_bound; lia. }
  split; [apply int_of_uint64_small, Hr|exact Hr].
Qed.

(** [uint32(v >> 32)]: the upper 32 bits. *)
Lemma uint32_top (v : Z) :
  is_uint64 v -> wrap32 (shr64 v 32) = v / 2 ^ 32 /\ 0 <= v / 2 ^ 32 < 2 ^ 32.
Proof.
  intros [H0 H1]. unfold shr64. rewrite Z.shiftr_div_pow2 by lia.
  assert (Hr : 0 <= v / 2 ^ 32 < 2 ^ 32).
  { split; [apply Z.div_pos; lia|]. apply Z.div_lt_upper_bound; lia. }
  split; [apply wrap32_small, Hr|exact Hr].
Qed.

(** [int32(u >> 1)]: the upper 31 bits, never negative. *)
Lemma int32_half (u : Z) :
  is_uint32 u -> int32_of_uint32 (Z.shiftr u 1) = u / 2 /\ 0 <= u / 2 < 2 ^ 31.
Proof.
  intros [H0 H1]. rewrite Z.shiftr_div_pow2 by lia. change (2 ^ 1) with 2.
  assert (Hr : 0 <= u / 2 < 2 ^ 31).
  { split; [apply Z.div_pos; lia|]. apply Z.div_lt_upper_bound; lia. }
  split; [|exact Hr]. unfold int32_of_uint32.
  destruct (Z.ltb_spec (u / 2) (2 ^ 31)); [reflexivity|lia].
Qed.

Lemma top31 (v : Z) : v / 2 ^ 32 / 2 = v / 2 ^ 33.
Proof. rewrite Z.div_div by lia. reflexivity. Qed.

(** What [Int64], [Uint32] and [Int32] make of one draw [(v, g')]. *)
Definition derived {G : Type} (draw Int64 Uint32 Int32 : G -> Z * G) (g : G) : Prop :=
  let v := fst (draw g) in
  is_uint64 v
  /\ Int64 g = (v / 2, snd (draw g)) /\ 0 <= v / 2 < 2 ^ 63
  /\ Uint32 g = (v / 2 ^ 32, snd (draw g)) /\ 0 <= v / 2 ^ 32 < 2 ^ 32
  /\ Int32 g = (v / 2 ^ 33, snd (draw g)) /\ 0 <= v / 2 ^ 33 < 2 ^ 31.

Lemma derived_intro {G : Type} (draw Int64 Uint32 Int32 : G -> Z * G) (g : G) :
  is_uint64 (fst (draw g)) ->
  Int64 g = (int_of_uint64 (shr64 (fst (draw g)) 1), snd (draw g)) ->
  Uint32 g = (wrap32 (shr64 (fst (draw g)) 32), snd (draw g)) ->
  Int32 g = (int32_of_uint32 (Z.shiftr (fst (Uint32 g)) 1), snd (Uint32 g)) ->
  derived draw Int64 Uint32 Int32 g.
Proof.
  intros Hv E64 E32 E31. unfold derived. cbv zeta.
  destruct (int64_half _ Hv) as [A1 A2]. destruct (uint32_top _ Hv) as [B1 B2].
  rewrite E31, E32, E64. cbn [fst snd]. rewrite A1, B1.
  destruct (int32_half _ B2) as [C1 C2]. rewrite C1. rewrite top31 in *.
  exact (conj Hv (conj eq_refl (conj A2 (conj eq_refl (conj B2 (conj eq_refl C2)))))).
Qed.

(** *** pcg32 *)

(** X9: pcg32's [Next] returns a 32-bit word and leaves a 64-bit state with
    the increment it found; [Int32] is the upper 31 bits of that word,
    never negative, from the same single step. *)
Theorem pcg32_words (p : PCG32.PCG32) :
  is_uint32 (fst (PCG32.Next p))
  /\ is_uint64 (PCG32.state (snd (PCG32.Next p)))
  /\ PCG32.inc (snd (PCG32.Next p)) = PCG32.inc p
  /\ PCG32.Int32 p = (fst (PCG32.Next p) / 2, snd (PCG32.Next p))
  /\ 0 <= fst (PCG32.Next p) / 2 < 2 ^ 31.
Proof.
  assert (Hv : is_uint32 (fst (PCG32.Next p))).
  { unfold PCG32.Next. cbn [fst]. apply RotateLeft32_uint32, wrap32_range. }
  destruct (int32_half _ Hv) as [C1 C2].
  split; [exact Hv|]. split; [apply wrap64_range|]. split; [reflexivity|].
  split; [|exact C2]. unfold PCG32.Int32.
  destruct (PCG32.Next p) as [v p']. cbn [fst snd] in *. rewrite C1. reflexivity.
Qed.

(** *** pcg64 *)

Lemma pcg64_Next_uint64 (p : PCG64.PCG64) :
  RoundTrip.wf_pcg64 p -> is_uint64 (fst (PCG64.Next p)).
Proof.
  intros [[Hl Hh] _]. unfold PCG64.Next. cbn [fst].
  apply RotateLeft64_uint64, lor_uint64.
  - apply XoshiroFacts.shr64_uint64; [|lia]. apply XoshiroFacts.lxor_uint64; assumption.
  - apply wrap64_range.
Qed.

(** X10: on a pcg64 generator of 64-bit words [Next] returns a 64-bit word;
    [Int64] is its upper 63 bits, [Uint32] its upper 32 bits and [Int32]
    its upper 31 bits, none negative, each from the one step of [Next]. *)
Theorem pcg64_words (p : PCG64.PCG64) :
  RoundTrip.wf_pcg64 p ->
  derived PCG64.Next PCG64.Int64 PCG64.Uint32 PCG64.Int32 p.
Proof.
  intros Hp. apply derived_intro.
  - apply pcg64_Next_uint64, Hp.
  - unfold PCG64.Int64. destruct (PCG64.Next p); reflexivity.
  - unfold PCG64.Uint32. destruct (PCG64.Next p); reflexivity.
  - unfold PCG64.Int32. destruct (PCG64.Uint32 p); reflexivity.
Qed.

Lemma pcg64_words_witness :
  RoundTrip.wf_pcg64 (PCG64.Mk (PCG64.U128 1 2) (PCG64.U128 3 4))
  /\ derived PCG64.Next PCG64.Int64 PCG64.Uint32 PCG64.Int32
       (PCG64.Mk (PCG64.U128 1 2) (PCG64.U128 3 4)).
Proof.
  assert (H : RoundTrip.wf_pcg64 (PCG64.Mk (PCG64.U128 1 2) (PCG64.U128 3 4))).
  { unfold RoundTrip.wf_pcg64, PCG64Facts.wf128, is_uint64. cbn. lia. }
  split; [exact H|]. exact (pcg64_words _ H).
Defined.

(** *** splitmix64 *)

Lemma splitmix64_Uint64_uint64 (x : SplitMix64.SplitMix64) :
  is_uint64 (fst (SplitMix64.Uint64 x))
  /\ is_uint64 (SplitMix64.state (snd (SplitMix64.Uint64 x))).
Proof.
  unfold SplitMix64.Uint64. cbn [fst snd SplitMix64.state]. split.
  - apply XoshiroFacts.lxor_uint64; [apply wrap64_range|].
    apply XoshiroFacts.shr64_uint64; [apply wrap64_range|lia].
  - apply wrap64_range.
Qed.

(** X11: splitmix64's [Uint64] returns a 64-bit word from any state and
    leaves a 64-bit state; [Int64], [Uint32] and [Int32] are the upper
    63, 32 and 31 bits of that word, none negative, each from the one
    step of [Uint64]. *)
Theorem splitmix64_words (x : SplitMix64.SplitMix64) :
  derived SplitMix64.Uint64 SplitMix64.Int64 SplitMix64.Uint32 SplitMix64.Int32 x
  /\ is_uint64 (SplitMix64.state (snd (SplitMix64.Uint64 x))).
Proof.
  split; [|apply splitmix64_Uint64_uint64]. apply derived_intro.
  - apply splitmix64_Uint64_uint64.
  - unfold SplitMix64.Int64. destruct (SplitMix64.Uint64 x); reflexivity.
  - unfold SplitMix64.Uint32. destruct (SplitMix64.Uint64 x); reflexivity.
  - unfold SplitMix64.Int32. destruct (SplitMix64.Uint32 x); reflexivity.
Qed.

(** *** xoshiro256starstar *)

(** X12: xoshiro256starstar's [Uint64] returns a 64-bit word from any state and
    keeps a state of four 64-bit words that way; [Int64], [Uint32] and
    [Int32] are the upper 63, 32 and 31 bits of that word, none
    negative, each from the one step of [Uint64]. *)
Theorem xoshiro_words (x : Xoshiro256StarStar.Xoshiro256StarStar) :
  derived Xoshiro256StarStar.Uint64 Xoshiro256StarStar.Int64
    Xoshiro256StarStar.Uint32 Xoshiro256StarStar.Int32 x
  /\ (XoshiroFacts.wf x -> XoshiroFacts.wf (snd (Xoshiro256StarStar.Uint64 x))).
Proof.
  split; [|apply XoshiroFacts.step_wf]. apply derived_intro.
  - unfold Xoshiro256StarStar.Uint64. cbn [fst]. apply wrap64_range.
  - unfold Xoshiro256StarStar.Int64. destruct (Xoshiro256StarStar.Uint64 x); reflexivity.
  - unfold Xoshiro256StarStar.Uint32. destruct (Xoshiro256StarStar.Uint64 x); reflexivity.
  - unfold Xoshiro256StarStar.Int32. destruct (Xoshiro256StarStar.Uint32 x); reflexivity.
Qed.

Lemma xoshiro_words_witness :
  derived Xoshiro256StarStar.Uint64 Xoshiro256StarStar.Int64
    Xoshiro256StarStar.Uint32 Xoshiro256StarStar.Int32 (Xoshiro256StarStar.Mk 1 2 3 4)
  /\ (XoshiroFacts.wf (Xoshiro256StarStar.Mk 1 2 3 4) ->
      XoshiroFacts.wf (snd (Xoshiro256StarStar.Uint64 (Xoshiro256StarStar.Mk 1 2 3 4)))).
Proof. exact (xoshiro_words (Xoshiro256StarStar.Mk 1 2 3 4)). Defined.

End DerivedWords.

(** ** Bounded extraction: the two paths of [Int] *)

Module BoundedPaths.
Import Bounded BoundedFacts.

Lemma land_pow2_pred (k : Z) : 0 <= k -> Z.land (2 ^ k) (2 ^ k - 1) = 0.
Proof.
  intros Hk. replace (2 ^ k - 1) with (Z.ones k).
  - rewrite Z.land_ones by exact Hk. apply Z.mod_same.
    apply Z.pow_nonzero; lia.
  - rewrite Z.ones_equiv. lia.
Qed.

Lemma land_mask_mod (v k : Z) : 0 <= k -> Z.land v (2 ^ k - 1) = v mod 2 ^ k.
Proof.
  intros Hk. replace (2 ^ k - 1) with (Z.ones k).
  - apply Z.land_ones, Hk.
  - rewrite Z.ones_equiv. lia.
Qed.

Lemma pow2_bounds (k b : Z) : 0 <= k < b -> 0 < 2 ^ k < 2 ^ b.
Proof.
  intros Hk. split; [apply Z.pow_pos_nonneg; lia|].
  apply Z.pow_lt_mono_r; lia.
Qed.

Section Draws.
Context {G : Type} (draw : G -> Z * G).

Lemma Int64_pow2 (msg : string) (fuel : nat) (g : G) (k : Z) :
  0 <= k < 63 ->
  Int64 draw msg fuel g (2 ^ k) = Return (fst (draw g) mod 2 ^ k, snd (draw g)).
Proof.
  intros Hk. pose proof (pow2_bounds k 63 Hk).
  destruct (Int64_power_of_two draw msg fuel g (2 ^ k)) as [E _];
    [lia | apply land_pow2_pred; lia |].
  rewrite E, land_mask_mod by lia. reflexivity.
Qed.

Lemma Int32_pow2 (msg : string) (fuel : nat) (g : G) (k : Z) :
  0 <= k <= 32 ->
  Int32 draw msg fuel g (2 ^ k) = Return (fst (draw g) mod 2 ^ k, snd (draw g)).
Proof.
  intros Hk. pose proof (pow2_bounds k 33 ltac:(lia)) as Hp.
  change (2 ^ 33) with (2 * 2 ^ 32) in Hp.
  destruct (Int32_power_of_two draw msg fuel g (2 ^ k)) as [E _];
    [lia | apply land_pow2_pred; lia |].
  assert (Hle : 2 ^ k <= 2 ^ 32) by (apply Z.pow_le_mono_r; lia).
  rewrite E, (wrap32_small (2 ^ k - 1)), land_mask_mod by lia. reflexivity.
Qed.

(** The loop returns the first draw that is not above the threshold. *)
Lemma redraw_first (k : nat) :
  forall (fuel : nat) (mx : Z) (g : G),
  (k <= fuel)%nat ->
  (forall j, (j < k)%nat -> mx < fst (nth_draw draw j g)) ->
  fst (nth_draw draw k g) <= mx ->
  redraw draw fuel mx (fst (draw g)) (snd (draw g)) = Some (nth_draw draw k g).
Proof.
  induction k as [|k IH]; intros fuel mx g Hk Hrej Hacc.
  - cbn [nth_draw] in *. rewrite redraw_accepted by exact Hacc.
    destruct (draw g); reflexivity.
  - destruct fuel as [|fuel]; [lia|]. cbn [redraw].
    pose proof (Hrej 0%nat ltac:(lia)) as H0. cbn [nth_draw] in H0.
    destruct (Z.gtb_spec (fst (draw g)) mx) as [_|Hle]; [|lia].
    cbn [nth_draw] in *.
    rewrite <- (IH fuel mx (snd (draw g))).
    + destruct (draw (snd (draw g))); reflexivity.
    + lia.
    + intros j Hj. apply (Hrej (S j)). lia.
    + exact Hacc.
Qed.

(** While every draw is above the threshold the loop goes on. *)
Lemma redraw_starved (fuel : nat) :
  forall (mx : Z) (g : G),
  (forall j, (j <= fuel)%nat -> mx < fst (nth_draw draw j g)) ->
  redraw draw fuel mx (fst (draw g)) (snd (draw g)) = None.
Proof.
  induction fuel as [|fuel IH]; intros mx g Hrej; cbn [redraw];
    pose proof (Hrej 0%nat ltac:(lia)) as H0; cbn [nth_draw] in H0;
    destruct (Z.gtb_spec (fst (draw g)) mx) as [_|Hle]; try lia; [reflexivity|].
  rewrite <- (IH mx (snd (draw g))).
  - destruct (draw (snd (draw g))); reflexivity.
  - intros j Hj. apply (Hrej (S j)). lia.
Qed.

End Draws.

(** X13: for a power of two [n = 2^k], [k < 63], [Int(n)] is the one draw
    reduced modulo [n] (its low [k] bits), with no redraw, on pcg64,
    splitmix64 and xoshiro256starstar, and for [k <= 32] on pcg32 as
    well.  [Int(1)] is 0 and still takes its draw. *)
Theorem Int_power_of_two (fuel : nat) (k : Z)
  (p32 : PCG32.PCG32) (p64 : PCG64.PCG64)
  (sm : SplitMix64.SplitMix64) (xo : Xoshiro256StarStar.Xoshiro256StarStar) :
  0 <= k < 63 ->
  PCG64.Int fuel p64 (2 ^ k)
    = Return (fst (PCG64.Next p64) mod 2 ^ k, snd (PCG64.Next p64))
  /\ SplitMix64.Int fuel sm (2 ^ k)
    = Return (fst (SplitMix64.Uint64 sm) mod 2 ^ k, snd (SplitMix64.Uint64 sm))
  /\ Xoshiro256StarStar.Int fuel xo (2 ^ k)
    = Return (fst (Xoshiro256StarStar.Uint64 xo) mod 2 ^ k,
              snd (Xoshiro256StarStar.Uint64 xo))
  /\ (k <= 32 ->
      PCG32.Int fuel p32 (2 ^ k)
      = Return (fst (PCG32.Next p32) mod 2 ^ k, snd (PCG32.Next p32))).
Proof.
  intros Hk. repeat apply conj.
  - apply Int64_pow2. lia.
  - apply Int64_pow2. lia.
  - apply Int64_pow2. lia.
  - intros Hk'. apply Int32_pow2. lia.
Qed.

Lemma Int_power_of_two_witness :
  0 <= 3 < 63
  /\ PCG64.Int 0 (PCG64.Mk (PCG64.U128 1 2) (PCG64.U128 3 4)) (2 ^ 3)
    = Return (fst (PCG64.Next (PCG64.Mk (PCG64.U128 1 2) (PCG64.U128 3 4))) mod 2 ^ 3,
              snd (PCG64.Next (PCG64.Mk (PCG64.U128 1 2) (PCG64.U128 3 4))))
  /\ SplitMix64.Int 0 (SplitMix64.Mk 7) (2 ^ 3)
    = Return (fst (SplitMix64.Uint64 (SplitMix64.Mk 7)) mod 2 ^ 3,
              snd (SplitMix64.Uint64 (SplitMix64.Mk 7)))
  /\ Xoshiro256StarStar.Int 0 (Xoshiro256StarStar.Mk 1 2 3 4) (2 ^ 3)
    = Return (fst (Xoshiro256StarStar.Uint64 (Xoshiro256StarStar.Mk 1 2 3 4)) mod 2 ^ 3,
              snd (Xoshiro256StarStar.Uint64 (Xoshiro256StarStar.Mk 1 2 3 4)))
  /\ (3 <= 32 ->
      PCG32.Int 0 (PCG32.Mk 1 3) (2 ^ 3)
      = Return (fst (PCG32.Next (PCG32.Mk 1 3)) mod 2 ^ 3, snd (PCG32.Next (PCG32.Mk 1 3)))).
Proof.
  split; [lia|]. apply (Int_power_of_two 0 3). lia.
Defined.

(** X14: for [n] that is no power of two, [Int(n)] on the 64-bit generators
    returns the first draw that is at most the threshold, reduced modulo
    [n], with the generator as that draw left it; while all the draws
    the fuel allows are above the threshold it has not returned. *)
Theorem Int_first_accepted {G : Type} (draw : G -> Z * G) (msg : string)
  (fuel k : nat) (g : G) (n : Z) :
  0 < n < 2 ^ 63 -> Z.land n (n - 1) <> 0 ->
  (forall j, (j < k)%nat -> max64 n < fst (nth_draw draw j g)) ->
  ((k <= fuel)%nat -> fst (nth_draw draw k g) <= max64 n ->
   Int64 draw msg fuel g n
   = Return (fst (nth_draw draw k g) mod n, snd (nth_draw draw k g)))
  /\ ((fuel < k)%nat -> Int64 draw msg fuel g n = StillLooping).
Proof.
  intros Hn Hp Hrej. rewrite (Int64_rejection draw msg fuel g n Hn Hp). split.
  - intros Hk Hacc.
    rewrite (redraw_first draw k fuel (max64 n) g Hk Hrej Hacc).
    destruct (nth_draw draw k g). reflexivity.
  - intros Hk. rewrite redraw_starved; [reflexivity|].
    intros j Hj. apply Hrej. lia.
Qed.

Lemma Int_first_accepted_witness :
  let x := Xoshiro256StarStar.Mk 0 (2 ^ 54) (2 ^ 54) 0 in
  0 < 3 < 2 ^ 63 /\ Z.land 3 (3 - 1) <> 0
  /\ (forall j, (j < 1)%nat ->
        max64 3 < fst (nth_draw Xoshiro256StarStar.Uint64 j x))
  /\ ((1 <= 5)%nat ->
      fst (nth_draw Xoshiro256StarStar.Uint64 1 x) <= max64 3 ->
      Int64 Xoshiro256StarStar.Uint64 "m" 5 x 3
      = Return (fst (nth_draw Xoshiro256StarStar.Uint64 1 x) mod 3,
                snd (nth_draw Xoshiro256StarStar.Uint64 1 x)))
  /\ ((5 < 1)%nat ->
      Int64 Xoshiro256StarStar.Uint64 "m" 5 x 3 = StillLooping).
Proof.
  cbv zeta.
  assert (H1 : 0 < 3 < 2 ^ 63) by lia.
  assert (H2 : Z.land 3 (3 - 1) <> 0) by (cbn; discriminate).
  assert (H3 : forall j, (j < 1)%nat ->
        max64 3 < fst (nth_draw Xoshiro256StarStar.Uint64 j
                         (Xoshiro256StarStar.Mk 0 (2 ^ 54) (2 ^ 54) 0))).
  { intros j Hj. replace j with 0%nat by lia. vm_compute. reflexivity. }
  split; [exact H1|]. split; [exact H2|]. split; [exact H3|].
  exact (Int_first_accepted Xoshiro256StarStar.Uint64 "m" 5 1
           (Xoshiro256StarStar.Mk 0 (2 ^ 54) (2 ^ 54) 0) 3 H1 H2 H3).
Defined.

(** X15: the threshold of the 64-bit generators is below 2^63, so that every
    word with its top bit set is redrawn, and the accepted words
    [0 .. max] are a whole number of runs of the [n] residues: [max + 1]
    is a multiple of [n], with fewer than [n] words cut off below 2^63. *)
Theorem max64_whole_cycles (n : Z) :
  0 < n < 2 ^ 63 ->
  max64 n = 2 ^ 63 - 1 - 2 ^ 63 mod n
  /\ (max64 n + 1) mod n = 0
  /\ 2 ^ 63 - n <= max64 n < 2 ^ 63.
Proof.
  intros Hn. pose proof (Z.mod_pos_bound (2 ^ 63) n ltac:(lia)) as Hm.
  assert (E : max64 n = 2 ^ 63 - 1 - 2 ^ 63 mod n).
  { unfold max64, sub64. rewrite (wrap64_small n) by lia.
    rewrite (wrap64_small (2 ^ 63 - 1)) by lia. apply wrap64_small. lia. }
  rewrite E. split; [reflexivity|]. split; [|lia].
  replace (2 ^ 63 - 1 - 2 ^ 63 mod n + 1) with (2 ^ 63 - 2 ^ 63 mod n) by lia.
  rewrite Zminus_mod, Z.mod_mod, Z.sub_diag by lia. apply Z.mod_0_l. lia.
Qed.

Lemma max64_whole_cycles_witness :
  0 < 3 < 2 ^ 63
  /\ max64 3 = 2 ^ 63 - 1 - 2 ^ 63 mod 3
  /\ (max64 3 + 1) mod 3 = 0
  /\ 2 ^ 63 - 3 <= max64 3 < 2 ^ 63.
Proof. split; [lia|]. apply max64_whole_cycles. lia. Defined.

End BoundedPaths.

(** ** Seeding and the state sequences *)

Module SeedFacts.

(** *** splitmix64 *)

Definition gamma : Z := 0x9e3779b97f4a7c15.

(** The generator after [k] calls of [Uint64]. *)
Fixpoint after (k : nat) (x : SplitMix64.SplitMix64) : SplitMix64.SplitMix64 :=
  match k with
  | O => x
  | S k' => snd (SplitMix64.Uint64 (after k' x))
  end.

Lemma after_state (k : nat) (x : SplitMix64.SplitMix64) :
  is_uint64 (SplitMix64.state x) ->
  SplitMix64.state (after k x) = (SplitMix64.state x + Z.of_nat k * gamma) mod 2 ^ 64.
Proof.
  intros Hx. induction k as [|k IH].
  - cbn [after Z.of_nat]. rewrite Z.mul_0_l, Z.add_0_r.
    symmetry. apply Z.mod_small, Hx.
  - cbn [after].
    change (SplitMix64.state (snd (SplitMix64.Uint64 (after k x))))
      with (add64 (SplitMix64.state (after k x)) gamma).
    rewrite IH. unfold add64. rewrite wrap64_mod, Z.add_mod_idemp_l by lia.
    f_equal. lia.
Qed.

Lemma gamma_odd : Z.gcd (2 ^ 64) gamma = 1.
Proof. reflexivity. Qed.

(** X16: the state of splitmix64 after [k] draws is the seed plus [k] times
    the odd constant, modulo 2^64; the generator is back in a state
    exactly when [k] is a multiple of 2^64, so it passes through all
    2^64 states before it repeats. *)
Theorem splitmix64_period (k : nat) (x : SplitMix64.SplitMix64) :
  is_uint64 (SplitMix64.state x) ->
  SplitMix64.state (after k x)
    = (SplitMix64.state x + Z.of_nat k * 0x9e3779b97f4a7c15) mod 2 ^ 64
  /\ (after k x = x <-> (2 ^ 64 | Z.of_nat k)).
Proof.
  intros Hx. pose proof (after_state k x Hx) as E. fold gamma. split; [exact E|].
  assert (Hrec : after k x = x <-> SplitMix64.state (after k x) = SplitMix64.state x).
  { split; [intros ->; reflexivity|].
    destruct (after k x), x. cbn [SplitMix64.state]. intros ->. reflexivity. }
  rewrite Hrec, E. split.
  - intros H. apply (Z.gauss _ gamma); [|exact gamma_odd].
    apply Z.mod_divide; [lia|].
    replace (gamma * Z.of_nat k)
      with (SplitMix64.state x + Z.of_nat k * gamma - SplitMix64.state x) by ring.
    rewrite Zminus_mod, H, (Z.mod_small (SplitMix64.state x)), Z.sub_diag
      by exact Hx.
    reflexivity.
  - intros [q Hq]. rewrite Hq.
    replace (SplitMix64.state x + q * 2 ^ 64 * gamma)
      with (SplitMix64.state x + q * gamma * 2 ^ 64) by ring.
    rewrite Z.mod_add by lia. apply Z.mod_small, Hx.
Qed.

Lemma splitmix64_period_witness :
  is_uint64 (SplitMix64.state (SplitMix64.Mk 42))
  /\ SplitMix64.state (after 3 (SplitMix64.Mk 42))
    = (SplitMix64.state (SplitMix64.Mk 42) + Z.of_nat 3 * 0x9e3779b97f4a7c15) mod 2 ^ 64
  /\ (after 3 (SplitMix64.Mk 42) = SplitMix64.Mk 42 <-> (2 ^ 64 | Z.of_nat 3)).
Proof.
  assert (H : is_uint64 (SplitMix64.state (SplitMix64.Mk 42)))
    by (unfold is_uint64; cbn; lia).
  split; [exact H|]. exact (splitmix64_period 3 (SplitMix64.Mk 42) H).
Defined.

(** *** xoshiro256starstar: the seed is expanded by splitmix64 *)

Lemma closure_is_Uint64 (s : Z) :
  Xoshiro256StarStar.splitmix64 s
  = (fst (SplitMix64.Uint64 (SplitMix64.Mk s)),
     SplitMix64.state (snd (SplitMix64.Uint64 (SplitMix64.Mk s)))).
Proof. reflexivity. Qed.

(** X17: the four words [Seed] stores are the first four words of the
    splitmix64 package's [Uint64], seeded with the same seed (the time
    value for the seed 0); each is a 64-bit word, and nothing of the old
    state is left. *)
Theorem xoshiro_Seed_by_splitmix64 (now seed : Z)
  (x : Xoshiro256StarStar.Xoshiro256StarStar) (sm : SplitMix64.SplitMix64) :
  let g := SplitMix64.Seed (if seed =? 0 then now else seed) sm in
  Xoshiro256StarStar.Seed now seed x
  = Xoshiro256StarStar.Mk
      (fst (Bounded.nth_draw SplitMix64.Uint64 0 g))
      (fst (Bounded.nth_draw SplitMix64.Uint64 1 g))
      (fst (Bounded.nth_draw SplitMix64.Uint64 2 g))
      (fst (Bounded.nth_draw SplitMix64.Uint64 3 g))
  /\ XoshiroFacts.wf (Xoshiro256StarStar.Seed now seed x).
Proof.
  cbv zeta. set (s := if seed =? 0 then now else seed).
  assert (E : Xoshiro256StarStar.Seed now seed x
    = Xoshiro256StarStar.Mk
        (fst (Bounded.nth_draw SplitMix64.Uint64 0 (SplitMix64.Seed s sm)))
        (fst (Bounded.nth_draw SplitMix64.Uint64 1 (SplitMix64.Seed s sm)))
        (fst (Bounded.nth_draw SplitMix64.Uint64 2 (SplitMix64.Seed s sm)))
        (fst (Bounded.nth_draw SplitMix64.Uint64 3 (SplitMix64.Seed s sm)))).
  { unfold Xoshiro256StarStar.Seed. fold s. rewrite !closure_is_Uint64.
    reflexivity. }
  split; [exact E|]. rewrite E. unfold XoshiroFacts.wf.
  cbn [Xoshiro256StarStar.s0 Xoshiro256StarStar.s1
       Xoshiro256StarStar.s2 Xoshiro256StarStar.s3 Bounded.nth_draw].
  repeat apply conj; apply DerivedWords.splitmix64_Uint64_uint64.
Qed.

(** *** pcg32 and pcg64: the increment *)

Lemma odd_lor_1 (a : Z) : Z.odd (Z.lor a 1) = true.
Proof. rewrite <- Z.bit0_odd, Z.lor_spec. apply Bool.orb_true_r. Qed.

Lemma pcg32_inc_kept (k : nat) :
  forall p, PCG32.inc (snd (Bounded.nth_draw PCG32.Next k p)) = PCG32.inc p.
Proof.
  induction k as [|k IH]; intros p; [reflexivity|].
  cbn [Bounded.nth_draw]. rewrite IH. reflexivity.
Qed.

Lemma pcg64_inc_kept (k : nat) :
  forall p, PCG64.inc (snd (Bounded.nth_draw PCG64.Next k p)) = PCG64.inc p.
Proof.
  induction k as [|k IH]; intros p; [reflexivity|].
  cbn [Bounded.nth_draw]. rewrite IH. reflexivity.
Qed.

(** X18: [Seed] leaves an odd increment, [(seed<<1)|1] on pcg32 and
    [{low: seed|1, high: 0}] on pcg64 (with the time value for the seed
    0), and no number of [Next] calls changes it. *)
Theorem increment_odd_and_kept (now seed : Z) (k : nat)
  (p32 : PCG32.PCG32) (p64 : PCG64.PCG64) :
  let s := if seed =? 0 then now else seed in
  PCG32.inc (PCG32.Seed now seed p32) = Z.lor (shl64 s 1) 1
  /\ Z.odd (PCG32.inc (PCG32.Seed now seed p32)) = true
  /\ PCG32.inc (snd (Bounded.nth_draw PCG32.Next k (PCG32.Seed now seed p32)))
     = PCG32.inc (PCG32.Seed now seed p32)
  /\ PCG64.inc (PCG64.Seed now seed p64) = PCG64.U128 (Z.lor s 1) 0
  /\ Z.odd (PCG64.low (PCG64.inc (PCG64.Seed now seed p64))) = true
  /\ PCG64.inc (snd (Bounded.nth_draw PCG64.Next k (PCG64.Seed now seed p64)))
     = PCG64.inc (PCG64.Seed now seed p64).
Proof.
  cbv zeta.
  assert (E32 : PCG32.inc (PCG32.Seed now seed p32)
                = Z.lor (shl64 (if seed =? 0 then now else seed) 1) 1) by reflexivity.
  assert (E64 : PCG64.inc (PCG64.Seed now seed p64)
                = PCG64.U128 (Z.lor (if seed =? 0 then now else seed) 1) 0) by reflexivity.
  split; [exact E32|]. split; [rewrite E32; apply odd_lor_1|].
  split; [apply pcg32_inc_kept|]. split; [exact E64|].
  split; [rewrite E64; apply odd_lor_1|]. apply pcg64_inc_kept.
Qed.

End SeedFacts.

(** ** mixmax: seeding, the iteration and the warm-up *)

Module MixmaxSequence.
Import MIXMAX MIXMAXFacts LoopFacts.

(** The recurrence of [Seed]: [(w*6364136223846793005 + 1) & MOD]. *)
Definition seed_next (w : Z) : Z :=
  Z.land (add64 (mul64 w 6364136223846793005) 1) MOD.

Lemma Seed_cells (now seed : Z) (m : MIXMAX) :
  length (state m) = N ->
  length (state (Seed now seed m)) = N
  /\ forall i, (i < N)%nat ->
       state (Seed now seed m) !!! i
       = Nat.iter i seed_next (if seed =? 0 then now else seed).
Proof.
  intros Hlen. unfold Seed. cbn [state].
  set (s := if seed =? 0 then now else seed).
  pose proof (for_loop_ind
    (fun k st => length st = N
                 /\ forall j, (j < k)%nat -> st !!! j = Nat.iter j seed_next s)
    (fun i st => <[i := Z.land (add64 (mul64 (st !!! (i - 1)%nat) 6364136223846793005) 1) MOD]> st)
    1 N (<[0%nat := s]> (state m))) as Hind.
  cbv beta in Hind. apply Hind; clear Hind.
  - unfold N. lia.
  - rewrite length_insert. split; [exact Hlen|].
    intros j Hj. replace j with 0%nat by lia.
    rewrite list_lookup_total_insert_eq by (rewrite Hlen; unfold N; lia).
    reflexivity.
  - intros i st Hi [Hl Hj]. rewrite length_insert. split; [exact Hl|].
    intros j Hjs. destruct (Nat.eq_dec j i) as [->|Hne].
    + rewrite list_lookup_total_insert_eq by lia.
      rewrite (Hj (i - 1)%nat) by lia.
      destruct i as [|i']; [lia|].
      replace (Datatypes.S i' - 1)%nat with i' by lia.
      reflexivity.
    + rewrite list_lookup_total_insert_ne by lia. apply Hj. lia.
Qed.

(** X19: [Seed] fills the array with the orbit of the seed under one
    recurrence: cell [i] is the recurrence [w -> (w*6364136223846793005
    + 1) & MOD] applied [i] times to the seed (the time value for the
    seed 0).  Nothing of the previous array or cursor survives, so two
    generators seeded alike are equal. *)
Theorem Seed_recurrence (now seed : Z) (m m' : MIXMAX) :
  length (state m) = N -> length (state m') = N ->
  (forall i, (i < N)%nat ->
     state (Seed now seed m) !!! i
     = Nat.iter i
         (fun w => Z.land (add64 (mul64 w 6364136223846793005) 1) MOD)
         (if seed =? 0 then now else seed))
  /\ counter (Seed now seed m) = 0
  /\ Seed now seed m = Seed now seed m'.
Proof.
  intros Hm Hm'.
  destruct (Seed_cells now seed m Hm) as [Hl Hc].
  destruct (Seed_cells now seed m' Hm') as [Hl' Hc'].
  split; [exact Hc|]. split; [reflexivity|].
  assert (E0 : counter (Seed now seed m) = counter (Seed now seed m'))
    by reflexivity.
  assert (E : state (Seed now seed m) = state (Seed now seed m')).
  { apply (list_eq_same_length _ _ N Hl' Hl). intros i x y Hi Hx Hy.
    apply list_lookup_total_correct in Hx, Hy.
    rewrite <- Hx, <- Hy, Hc, Hc' by exact Hi. reflexivity. }
  destruct (Seed now seed m), (Seed now seed m'). cbn [state counter] in *.
  subst. reflexivity.
Qed.

Lemma Seed_recurrence_witness :
  let m := Mk (repeat 0 240) 0 in
  let m' := Mk (repeat 7 240) 12 in
  length (state m) = N /\ length (state m') = N
  /\ (forall i, (i < N)%nat ->
        state (Seed 0 1 m) !!! i
        = Nat.iter i
            (fun w => Z.land (add64 (mul64 w 6364136223846793005) 1) MOD)
            (if 1 =? 0 then 0 else 1))
  /\ counter (Seed 0 1 m) = 0
  /\ Seed 0 1 m = Seed 0 1 m'.
Proof.
  split; [reflexivity|]. split; [reflexivity|].
  apply (Seed_recurrence 0 1 (Mk (repeat 0 240) 0) (Mk (repeat 7 240) 12));
    reflexivity.
Defined.

(** The body of the loop of [iterate] on one cell [a] and its
    neighbour [t]: [(a + t) & MOD], plus one when that is below [t]. *)
Definition mix (a t : Z) : Z :=
  let e := Z.land (add64 a t) MOD in
  if e <? t then add64 e 1 else e.

Lemma iterate_step_mix (i : nat) (st : list Z) :
  (i < length st)%nat ->
  iterate_step i st = <[i := mix (st !!! i) (st !!! ((i + 1) mod N)%nat)]> st.
Proof.
  intros Hi. unfold iterate_step, mix.
  rewrite list_lookup_total_insert_eq by exact Hi.
  destruct (_ <? _); [apply list_insert_insert_eq|reflexivity].
Qed.

Lemma iterate_loop (old : list Z) :
  length old = N ->
  let st := for_loop 0 N iterate_step old in
  length st = N
  /\ (forall j, (j < 239)%nat -> st !!! j = mix (old !!! j) (old !!! Datatypes.S j))
  /\ st !!! 239%nat = mix (old !!! 239%nat) (st !!! 0%nat).
Proof.
  intros Hlen. cbv zeta.
  pose proof (for_loop_ind
    (fun k st =>
       length st = N
       /\ (forall j, (j < k)%nat -> (j < 239)%nat ->
             st !!! j = mix (old !!! j) (old !!! Datatypes.S j))
       /\ (forall j, (k <= j < N)%nat -> st !!! j = old !!! j)
       /\ (k = N -> st !!! 239%nat = mix (old !!! 239%nat) (st !!! 0%nat)))
    iterate_step 0 N old) as Hind.
  cbv beta in Hind.
  destruct Hind as (Hl & Hlow & _ & Hlast).
  - lia.
  - split; [exact Hlen|]. split; [intros j Hj; lia|].
    split; [reflexivity|]. unfold N. discriminate.
  - intros i st Hi (Hl & Hlow & Hhigh & _).
    rewrite iterate_step_mix by lia. rewrite length_insert.
    split; [exact Hl|]. split; [|split].
    + intros j Hj Hj'. destruct (Nat.eq_dec j i) as [->|Hne].
      * rewrite list_lookup_total_insert_eq by lia.
        rewrite Nat.mod_small by (unfold N; lia).
        rewrite !Hhigh by (unfold N; lia).
        rewrite Nat.add_1_r. reflexivity.
      * rewrite list_lookup_total_insert_ne by lia. apply Hlow; lia.
    + intros j Hj. rewrite list_lookup_total_insert_ne by lia.
      apply Hhigh. lia.
    + intros Hk. assert (Ei : i = 239%nat) by (unfold N in Hk; lia). subst i.
      rewrite list_lookup_total_insert_eq by lia.
      rewrite list_lookup_total_insert_ne by lia.
      rewrite Hhigh by (unfold N; lia). reflexivity.
  - split; [exact Hl|]. split.
    + intros j Hj. apply Hlow; [unfold N|]; lia.
    + apply Hlast. reflexivity.
Qed.

(** X20: [iterate] works in place, in one upward pass: every cell but the
    last is combined with the old value of its right neighbour, and the
    last cell with the new value of cell 0, which the pass has already
    overwritten; the cursor is set to 240. *)
Theorem iterate_cells (m : MIXMAX) :
  length (state m) = N ->
  (forall i, (i < 239)%nat ->
     state (iterate m) !!! i = mix (state m !!! i) (state m !!! Datatypes.S i))
  /\ state (iterate m) !!! 239%nat
     = mix (state m !!! 239%nat) (state (iterate m) !!! 0%nat)
  /\ length (state (iterate m)) = N
  /\ counter (iterate m) = 240.
Proof.
  intros Hlen. destruct (iterate_loop (state m) Hlen) as (Hl & Hlow & Hlast).
  unfold iterate. cbn [state counter].
  split; [exact Hlow|]. split; [exact Hlast|]. split; [exact Hl|]. reflexivity.
Qed.

Lemma iterate_cells_witness :
  let m := Mk (repeat 1 240) 0 in
  length (state m) = N
  /\ (forall i, (i < 239)%nat ->
        state (iterate m) !!! i = mix (state m !!! i) (state m !!! Datatypes.S i))
  /\ state (iterate m) !!! 239%nat
     = mix (state m !!! 239%nat) (state (iterate m) !!! 0%nat)
  /\ length (state (iterate m)) = N
  /\ counter (iterate m) = 240.
Proof.
  split; [reflexivity|].
  apply (iterate_cells (Mk (repeat 1 240) 0)). reflexivity.
Defined.

(** *** The warm-up of [New] *)

(** One round of the warm-up loop. *)
Definition bump (r : outcome MIXMAX) : outcome MIXMAX :=
  match r with
  | Return m =>
      match Uint64 m with
      | Return (_, m') => Return m'
      | Panics e => Panics e
      | StillLooping => StillLooping
      end
  | Panics e => Panics e
  | StillLooping => StillLooping
  end.

Lemma discard_S (k : nat) (m : MIXMAX) :
  discard (Datatypes.S k) m = bump (discard k m).
Proof.
  unfold discard, for_loop. rewrite !Nat.sub_0_r, seq_S, fold_left_app.
  reflexivity.
Qed.

Lemma bump_empty (st : list Z) :
  bump (Return (Mk st 0)) = Return (Mk (state (iterate (Mk st 0))) 239).
Proof. unfold bump. rewrite Uint64_empty. reflexivity. Qed.

Lemma bump_buffered (st : list Z) (c : Z) :
  1 <= c <= 240 -> bump (Return (Mk st c)) = Return (Mk st (c - 1)).
Proof. intros Hc. unfold bump. rewrite Uint64_buffered by exact Hc. reflexivity. Qed.

Lemma discard_run (st : list Z) (k : nat) :
  (k <= 239)%nat ->
  discard (Datatypes.S k) (Mk st 0)
  = Return (Mk (state (iterate (Mk st 0))) (239 - Z.of_nat k)).
Proof.
  intros Hk. induction k as [|k IH].
  - rewrite discard_S. exact (bump_empty st).
  - rewrite discard_S, IH by lia.
    generalize (state (iterate (Mk st 0))). intros st1.
    rewrite bump_buffered by lia. do 2 f_equal. lia.
Qed.

(** X21: [New] seeds a zero generator and draws ten words: the draws never
    panic, the first of them iterates the seeded array once, and the
    generator handed out holds that array with the cursor at 230, so
    its next 230 words come from the one iteration. *)
Theorem New_warm_up (t now : Z) :
  New t now
  = Return (Mk (state (iterate (Seed now t (Mk (repeat 0 N) 0)))) 230).
Proof.
  unfold New.
  pose proof (eq_refl : counter (Seed now t (Mk (repeat 0 N) 0)) = 0) as Hc.
  destruct (Seed now t (Mk (repeat 0 N) 0)) as [st c].
  cbn [counter] in Hc. subst c.
  rewrite (discard_run st 9) by lia.
  change (239 - Z.of_nat 9) with 230. reflexivity.
Qed.

(** *** [Int64] *)

Lemma Uint64_word (m : MIXMAX) :
  length (state m) = N -> bounded (state m) -> 0 <= counter m <= 240 ->
  exists v m', Uint64 m = Return (v, m') /\ 0 <= v <= MOD.
Proof.
  intros Hlen Hb Hc. destruct m as [st c]. cbn [state counter] in *.
  destruct (Z.eq_dec c 0) as [->|Hne].
  - rewrite Uint64_empty.
    destruct (iterate_bounded (Mk st 0) Hlen Hb) as [Hl' Hb'].
    eexists _, _. split; [reflexivity|].
    pose proof (Forall_lookup_total_1 _ _ 239%nat Hb') as Hall.
    cbv beta in Hall. apply Hall. rewrite Hl'. unfold N. lia.
  - rewrite Uint64_buffered by lia.
    eexists _, _. split; [reflexivity|].
    pose proof (Forall_lookup_total_1 _ _ (Z.to_nat (c - 1)) Hb) as Hall.
    cbv beta in Hall. apply Hall. rewrite Hlen. unfold N. lia.
Qed.

(** X22: [Int64] is the word of [Uint64] halved, a value in [[0, 2^63)], and
    leaves the generator as [Uint64] does; where [Uint64] panics, so
    does [Int64]. *)
Theorem Int64_halves (m : MIXMAX) :
  length (state m) = N -> bounded (state m) -> 0 <= counter m <= 240 ->
  (exists v m', Uint64 m = Return (v, m')
                /\ Int64 m = Return (v / 2, m') /\ 0 <= v / 2 < 2 ^ 63)
  /\ forall (m0 : MIXMAX) e, Uint64 m0 = Panics e -> Int64 m0 = Panics e.
Proof.
  intros Hlen Hb Hc. split.
  - destruct (Uint64_word m Hlen Hb Hc) as (v & m' & E & Hv).
    exists v, m'. split; [exact E|]. unfold Int64. rewrite E.
    pose proof MOD_uint64 as HM.
    assert (Hh : 0 <= v / 2 < 2 ^ 63).
    { split; [apply Z.div_pos; lia|]. apply Z.div_lt_upper_bound; lia. }
    split; [|exact Hh]. unfold shr64. rewrite Z.shiftr_div_pow2 by lia.
    change (2 ^ 1) with 2. rewrite int_of_uint64_small by exact Hh. reflexivity.
  - intros m0 e E. unfold Int64. rewrite E. reflexivity.
Qed.

Lemma Int64_halves_witness :
  let m := Mk (repeat 1 240) 0 in
  length (state m) = N /\ bounded (state m) /\ 0 <= counter m <= 240
  /\ (exists v m', Uint64 m = Return (v, m')
                   /\ Int64 m = Return (v / 2, m') /\ 0 <= v / 2 < 2 ^ 63)
  /\ forall (m0 : MIXMAX) e, Uint64 m0 = Panics e -> Int64 m0 = Panics e.
Proof.
  assert (Hb : bounded (state (Mk (repeat 1 240) 0))).
  { apply List.Forall_forall. intros w Hw. apply repeat_spec in Hw.
    subst w. unfold MOD. lia. }
  assert (Hc : 0 <= counter (Mk (repeat 1 240) 0) <= 240)
    by (cbn [counter]; lia).
  split; [reflexivity|]. split; [exact Hb|]. split; [exact Hc|].
  exact (Int64_halves (Mk (repeat 1 240) 0) eq_refl Hb Hc).
Defined.

End MixmaxSequence.

(** ** Bijections: no state and no word is lost *)

Module Bijections.
Import XoshiroFacts.

Lemma xorshift_bits (a b k : Z) :
  is_uint64 a -> is_uint64 b -> 0 < k ->
  Z.lxor a (shr64 a k) = Z.lxor b (shr64 b k) ->
  forall (d : nat) (n : Z), 64 - Z.of_nat d <= n -> Z.testbit a n = Z.testbit b n.
Proof.
  intros Ha Hb Hk H. induction d as [|d IH]; intros n Hn.
  - rewrite !uint64_high_bits by (assumption || lia). reflexivity.
  - destruct (Z.neg_nonneg_cases n) as [Hneg|Hpos];
      [rewrite !Z.testbit_neg_r by lia; reflexivity|].
    assert (E : Z.testbit (Z.lxor a (shr64 a k)) n
                = Z.testbit (Z.lxor b (shr64 b k)) n) by (rewrite H; reflexivity).
    unfold shr64 in E. rewrite !Z.lxor_spec, !Z.shiftr_spec in E by lia.
    rewrite (IH (n + k)) in E by lia.
    destruct (Z.testbit a n), (Z.testbit b n), (Z.testbit b (n + k));
      cbn in E; congruence.
Qed.

(** [z ^ (z >> k)] loses nothing of a 64-bit [z]. *)
Lemma xorshift_inj (a b k : Z) :
  is_uint64 a -> is_uint64 b -> 0 < k ->
  Z.lxor a (shr64 a k) = Z.lxor b (shr64 b k) -> a = b.
Proof.
  intros Ha Hb Hk H. apply Z.bits_inj'. intros n Hn.
  apply (xorshift_bits a b k Ha Hb Hk H 64 n). lia.
Qed.

Lemma xorshift_uint64 (a k : Z) :
  is_uint64 a -> 0 < k -> is_uint64 (Z.lxor a (shr64 a k)).
Proof.
  intros Ha Hk. apply lxor_uint64; [exact Ha|]. apply shr64_uint64; [exact Ha|lia].
Qed.

(** Multiplication by an odd constant loses nothing modulo 2^64. *)
Lemma mul64_odd_inj (a b c : Z) :
  is_uint64 a -> is_uint64 b -> Z.gcd (2 ^ 64) c = 1 ->
  mul64 a c = mul64 b c -> a = b.
Proof.
  intros Ha Hb Hc H. unfold mul64 in H. rewrite !wrap64_mod in H.
  assert (D : (2 ^ 64 | c * (a - b))).
  { apply Z.mod_divide; [lia|].
    replace (c * (a - b)) with (a * c - b * c) by ring.
    rewrite Zminus_mod, H, Z.sub_diag. reflexivity. }
  apply Z.gauss in D; [|exact Hc]. destruct D as [q Hq].
  unfold is_uint64 in *. lia.
Qed.

Lemma add64_inj (a b c : Z) :
  is_uint64 a -> is_uint64 b -> add64 a c = add64 b c -> a = b.
Proof.
  intros Ha Hb H. unfold add64 in H. rewrite !wrap64_mod in H.
  assert (D : (2 ^ 64 | a - b)).
  { apply Z.mod_divide; [lia|].
    replace (a - b) with (a + c - (b + c)) by ring.
    rewrite Zminus_mod, H, Z.sub_diag. reflexivity. }
  destruct D as [q Hq]. unfold is_uint64 in *. lia.
Qed.

Lemma mul64_uint64 (a c : Z) : is_uint64 (mul64 a c).
Proof. apply wrap64_range. Qed.

Lemma add64_uint64 (a c : Z) : is_uint64 (add64 a c).
Proof. apply wrap64_range. Qed.

(** *** splitmix64: the words of a period are all different *)

Import SeedFacts.

Lemma splitmix64_mix_inj (a b : Z) :
  fst (SplitMix64.Uint64 (SplitMix64.Mk a)) = fst (SplitMix64.Uint64 (SplitMix64.Mk b)) ->
  add64 a gamma = add64 b gamma.
Proof.
  unfold SplitMix64.Uint64. cbn [fst SplitMix64.state]. fold gamma.
  generalize (add64_uint64 a gamma) (add64_uint64 b gamma).
  generalize (add64 a gamma) (add64 b gamma). intros u v Hu Hv H.
  apply xorshift_inj in H; [|apply mul64_uint64..|lia].
  apply mul64_odd_inj in H;
    [|apply xorshift_uint64; [apply mul64_uint64|lia]..|reflexivity].
  apply xorshift_inj in H; [|apply mul64_uint64..|lia].
  apply mul64_odd_inj in H;
    [|apply xorshift_uint64; [assumption|lia]..|reflexivity].
  apply xorshift_inj in H; [exact H|assumption..|lia].
Qed.

Lemma after_add (j k : nat) (x : SplitMix64.SplitMix64) :
  after (j + k) x = after j (after k x).
Proof. induction j as [|j IH]; [reflexivity|]. cbn [Nat.add after]. rewrite IH. reflexivity. Qed.

Lemma after_shift (k : nat) (x : SplitMix64.SplitMix64) :
  after k (snd (SplitMix64.Uint64 x)) = snd (SplitMix64.Uint64 (after k x)).
Proof. induction k as [|k IH]; [reflexivity|]. cbn [after]. rewrite IH. reflexivity. Qed.

Lemma nth_draw_after (k : nat) :
  forall x, Bounded.nth_draw SplitMix64.Uint64 k x = SplitMix64.Uint64 (after k x).
Proof.
  induction k as [|k IH]; intros x; [reflexivity|].
  cbn [Bounded.nth_draw after]. rewrite IH, after_shift. reflexivity.
Qed.

Lemma states_equal_iff (j k : nat) (x : SplitMix64.SplitMix64) :
  is_uint64 (SplitMix64.state x) ->
  SplitMix64.state (after j x) = SplitMix64.state (after k x)
  <-> (2 ^ 64 | Z.of_nat k - Z.of_nat j).
Proof.
  intros Hx. rewrite !after_state by exact Hx. split.
  - intros H. apply (Z.gauss _ gamma); [|exact gamma_odd].
    apply Z.mod_divide; [lia|].
    replace (gamma * (Z.of_nat k - Z.of_nat j))
      with (SplitMix64.state x + Z.of_nat k * gamma
            - (SplitMix64.state x + Z.of_nat j * gamma)) by ring.
    rewrite Zminus_mod, H, Z.sub_diag. reflexivity.
  - intros [q Hq].
    replace (Z.of_nat k) with (Z.of_nat j + q * 2 ^ 64) by lia.
    replace (SplitMix64.state x + (Z.of_nat j + q * 2 ^ 64) * gamma)
      with (SplitMix64.state x + Z.of_nat j * gamma + q * gamma * 2 ^ 64) by ring.
    rewrite Z.mod_add by lia. reflexivity.
Qed.

Lemma after_1_uint64 (x : SplitMix64.SplitMix64) :
  is_uint64 (SplitMix64.state (after 1 x)).
Proof. apply add64_uint64. Qed.

(** Equal words, whatever the state the generator started from, are a
    multiple of 2^64 draws apart. *)
Lemma words_equal_apart (j k : nat) (x : SplitMix64.SplitMix64) :
  fst (SplitMix64.Uint64 (after j x)) = fst (SplitMix64.Uint64 (after k x)) ->
  (2 ^ 64 | Z.of_nat k - Z.of_nat j).
Proof.
  intros H.
  apply (states_equal_iff j k (after 1 x) (after_1_uint64 x)).
  rewrite <- !after_add, !Nat.add_1_r. cbn [after].
  destruct (after j x) as [a], (after k x) as [b].
  exact (splitmix64_mix_inj a b H).
Qed.

(** X23: the word of [Uint64] is a one-to-one function of the state: two
    draws of one generator return the same word exactly when they are a
    multiple of 2^64 draws apart, so that no word comes twice within a
    period. *)
Theorem splitmix64_words_distinct (j k : nat) (x : SplitMix64.SplitMix64) :
  is_uint64 (SplitMix64.state x) ->
  fst (Bounded.nth_draw SplitMix64.Uint64 j x)
  = fst (Bounded.nth_draw SplitMix64.Uint64 k x)
  <-> (2 ^ 64 | Z.of_nat k - Z.of_nat j).
Proof.
  intros Hx. rewrite !nth_draw_after. split; [apply words_equal_apart|].
  intros D. apply (states_equal_iff j k x Hx) in D.
  destruct (after j x), (after k x). cbn [SplitMix64.state] in D.
  rewrite D. reflexivity.
Qed.

Lemma splitmix64_words_distinct_witness :
  is_uint64 (SplitMix64.state (SplitMix64.Mk 42))
  /\ (fst (Bounded.nth_draw SplitMix64.Uint64 2 (SplitMix64.Mk 42))
      = fst (Bounded.nth_draw SplitMix64.Uint64 5 (SplitMix64.Mk 42))
      <-> (2 ^ 64 | Z.of_nat 5 - Z.of_nat 2)).
Proof.
  assert (H : is_uint64 (SplitMix64.state (SplitMix64.Mk 42)))
    by (unfold is_uint64; cbn; lia).
  split; [exact H|]. exact (splitmix64_words_distinct 2 5 (SplitMix64.Mk 42) H).
Defined.

(** *** pcg32 and pcg64: the step is one-to-one *)

Lemma multiplier32_odd : Z.gcd (2 ^ 64) 6364136223846793005 = 1.
Proof. reflexivity. Qed.

Lemma multiplier_low_odd : Z.gcd (2 ^ 64) 0x5851f42d4c957f2d = 1.
Proof. reflexivity. Qed.

Lemma multiplier_high_odd : Z.gcd (2 ^ 64) 0x14057b7ef767814f = 1.
Proof. reflexivity. Qed.

Lemma pcg32_step_inj (p q : PCG32.PCG32) :
  is_uint64 (PCG32.state p) -> is_uint64 (PCG32.state q) ->
  snd (PCG32.Next p) = snd (PCG32.Next q) -> p = q.
Proof.
  intros Hp Hq H. destruct p as [s i], q as [s' i'].
  unfold PCG32.Next in H. cbn [snd PCG32.state PCG32.inc] in *.
  injection H as Hs Hi. subst i'.
  apply add64_inj in Hs; [|apply mul64_uint64..].
  apply mul64_odd_inj in Hs; [|assumption..|exact multiplier32_odd].
  subst. reflexivity.
Qed.

Lemma value128_inj (a b : PCG64.uint128) :
  PCG64Facts.wf128 a -> PCG64Facts.wf128 b ->
  PCG64Facts.value128 a = PCG64Facts.value128 b -> a = b.
Proof.
  intros [Hal Hah] [Hbl Hbh]. destruct a as [al ah], b as [bl bh].
  unfold PCG64Facts.value128, is_uint64 in *. cbn [PCG64.low PCG64.high] in *.
  intros H. assert (al = bl /\ ah = bh) as [-> ->] by lia. reflexivity.
Qed.

Lemma value128_range (a : PCG64.uint128) :
  PCG64Facts.wf128 a -> 0 <= PCG64Facts.value128 a < 2 ^ 128.
Proof.
  intros [Hl Hh]. unfold PCG64Facts.value128, is_uint64 in *.
  change (2 ^ 128) with (2 ^ 64 * 2 ^ 64). nia.
Qed.

Lemma add128_inj (a b c : PCG64.uint128) :
  PCG64Facts.wf128 a -> PCG64Facts.wf128 b -> PCG64Facts.wf128 c ->
  PCG64.add128 a c = PCG64.add128 b c -> a = b.
Proof.
  intros Ha Hb Hc H. apply value128_inj; [assumption..|].
  apply (f_equal PCG64Facts.value128) in H.
  rewrite !Arith128.add128_value in H by assumption.
  pose proof (value128_range a Ha). pose proof (value128_range b Hb).
  assert (D : (2 ^ 128 | PCG64Facts.value128 a - PCG64Facts.value128 b)).
  { apply Z.mod_divide; [lia|].
    replace (PCG64Facts.value128 a - PCG64Facts.value128 b)
      with (PCG64Facts.value128 a + PCG64Facts.value128 c
            - (PCG64Facts.value128 b + PCG64Facts.value128 c)) by ring.
    rewrite Zminus_mod, H, Z.sub_diag. reflexivity. }
  destruct D as [k Hk]. lia.
Qed.

Lemma mod_mul_odd_inj (a b c : Z) :
  is_uint64 a -> is_uint64 b -> Z.gcd (2 ^ 64) c = 1 ->
  (a * c) mod 2 ^ 64 = (b * c) mod 2 ^ 64 -> a = b.
Proof.
  intros Ha Hb Hc H. apply (mul64_odd_inj a b c Ha Hb Hc).
  unfold mul64. rewrite !wrap64_mod. exact H.
Qed.

Lemma pcg64_step_inj (p q : PCG64.PCG64) :
  RoundTrip.wf_pcg64 p -> RoundTrip.wf_pcg64 q ->
  snd (PCG64.Next p) = snd (PCG64.Next q) -> p = q.
Proof.
  intros Hp Hq H.
  assert (Hi : PCG64.inc p = PCG64.inc q)
    by exact (f_equal PCG64.inc H).
  apply (f_equal PCG64.state) in H.
  rewrite (Arith128.Next_state p Hp), (Arith128.Next_state q Hq), Hi in H.
  destruct Hp as [[Hpl Hph] _], Hq as [[Hql Hqh] Hqi].
  apply add128_inj in H;
    [|split; cbn [PCG64.low PCG64.high]; apply Z.mod_pos_bound; lia..|exact Hqi].
  injection H as Hl Hh.
  apply mod_mul_odd_inj in Hl; [|assumption..|exact multiplier_low_odd].
  apply mod_mul_odd_inj in Hh; [|assumption..|exact multiplier_high_odd].
  destruct p as [[pl ph] pi], q as [[ql qh] qi].
  cbn [PCG64.state PCG64.inc PCG64.low PCG64.high] in *. subst. reflexivity.
Qed.

(** X24: the step of [Next] is one-to-one on generators of 64-bit words, for
    pcg32 and for pcg64: two different generators never step to the same
    generator, whatever the increment, odd or even. *)
Theorem pcg_step_injective (p32 q32 : PCG32.PCG32) (p64 q64 : PCG64.PCG64) :
  is_uint64 (PCG32.state p32) -> is_uint64 (PCG32.state q32) ->
  RoundTrip.wf_pcg64 p64 -> RoundTrip.wf_pcg64 q64 ->
  (snd (PCG32.Next p32) = snd (PCG32.Next q32) -> p32 = q32)
  /\ (snd (PCG64.Next p64) = snd (PCG64.Next q64) -> p64 = q64).
Proof.
  intros H1 H2 H3 H4. split; [apply pcg32_step_inj|apply pcg64_step_inj]; assumption.
Qed.

Lemma pcg_step_injective_witness :
  let p32 := PCG32.Mk 1 3 in
  let q32 := PCG32.Mk 2 3 in
  let p64 := PCG64.Mk (PCG64.U128 1 2) (PCG64.U128 3 4) in
  let q64 := PCG64.Mk (PCG64.U128 5 6) (PCG64.U128 3 4) in
  is_uint64 (PCG32.state p32) /\ is_uint64 (PCG32.state q32)
  /\ RoundTrip.wf_pcg64 p64 /\ RoundTrip.wf_pcg64 q64
  /\ (snd (PCG32.Next p32) = snd (PCG32.Next q32) -> p32 = q32)
  /\ (snd (PCG64.Next p64) = snd (PCG64.Next q64) -> p64 = q64).
Proof.
  assert (H1 : is_uint64 (PCG32.state (PCG32.Mk 1 3)))
    by (unfold is_uint64; cbn; lia).
  assert (H2 : is_uint64 (PCG32.state (PCG32.Mk 2 3)))
    by (unfold is_uint64; cbn; lia).
  assert (H3 : RoundTrip.wf_pcg64 (PCG64.Mk (PCG64.U128 1 2) (PCG64.U128 3 4)))
    by (unfold RoundTrip.wf_pcg64, PCG64Facts.wf128, is_uint64; cbn; lia).
  assert (H4 : RoundTrip.wf_pcg64 (PCG64.Mk (PCG64.U128 5 6) (PCG64.U128 3 4)))
    by (unfold RoundTrip.wf_pcg64, PCG64Facts.wf128, is_uint64; cbn; lia).
  split; [exact H1|]. split; [exact H2|]. split; [exact H3|]. split; [exact H4|].
  exact (pcg_step_injective _ _ _ _ H1 H2 H3 H4).
Defined.

(** *** xoshiro256starstar: the word is a scrambling of [s1] *)

Lemma rotl7_bits (a : Z) (n : Z) :
  is_uint64 a -> 0 <= n < 64 ->
  Z.testbit a n
  = if n <? 57 then Z.testbit (RotateLeft64 a 7) (n + 7)
    else Z.testbit (RotateLeft64 a 7) (n - 57).
Proof.
  intros Ha Hn. unfold RotateLeft64. change (Z.land 7 63) with 7.
  change (64 - 7) with 57. cbv zeta. unfold shl64, shr64, wrap64.
  rewrite mask64_ones.
  destruct (Z.ltb_spec n 57) as [Hlt|Hge].
  - rewrite Z.lor_spec, Z.land_spec, Z.shiftl_spec, Z.shiftr_spec by lia.
    rewrite Z.ones_spec_low by lia.
    rewrite (uint64_high_bits a (n + 7 + 57)) by (assumption || lia).
    replace (n + 7 - 7) with n by lia.
    rewrite Bool.andb_true_r, Bool.orb_false_r. reflexivity.
  - rewrite Z.lor_spec, Z.land_spec, Z.shiftl_spec, Z.shiftr_spec by lia.
    rewrite (Z.testbit_neg_r a (n - 57 - 7)) by lia.
    replace (n - 57 + 57) with n by lia. reflexivity.
Qed.

Lemma rotl7_inj (a b : Z) :
  is_uint64 a -> is_uint64 b -> RotateLeft64 a 7 = RotateLeft64 b 7 -> a = b.
Proof.
  intros Ha Hb H. apply Z.bits_inj'. intros n Hn.
  destruct (Z.lt_ge_cases n 64) as [Hlt|Hge].
  - rewrite (rotl7_bits a n), (rotl7_bits b n), H by (assumption || lia).
    reflexivity.
  - rewrite !uint64_high_bits by assumption. reflexivity.
Qed.

(** X25: the word [rotl(s1 * 5, 7) * 9] of [Uint64] is a one-to-one function
    of the word [s1] of the state, and depends on nothing else: two
    states return the same word exactly when they agree on [s1]. *)
Theorem xoshiro_word_determines_s1 (x y : Xoshiro256StarStar.Xoshiro256StarStar) :
  wf x -> wf y ->
  fst (Xoshiro256StarStar.Uint64 x) = fst (Xoshiro256StarStar.Uint64 y)
  <-> Xoshiro256StarStar.s1 x = Xoshiro256StarStar.s1 y.
Proof.
  intros (_ & Hx & _) (_ & Hy & _). unfold Xoshiro256StarStar.Uint64.
  cbn [fst]. split.
  - intros H.
    apply mul64_odd_inj in H;
      [|apply DerivedWords.RotateLeft64_uint64, mul64_uint64..|reflexivity].
    apply rotl7_inj in H; [|apply mul64_uint64..].
    apply mul64_odd_inj in H; [exact H|assumption..|reflexivity].
  - intros ->. reflexivity.
Qed.

Lemma xoshiro_word_determines_s1_witness :
  let x := Xoshiro256StarStar.Mk 1 2 3 4 in
  let y := Xoshiro256StarStar.Mk 5 2 7 8 in
  wf x /\ wf y
  /\ (fst (Xoshiro256StarStar.Uint64 x) = fst (Xoshiro256StarStar.Uint64 y)
      <-> Xoshiro256StarStar.s1 x = Xoshiro256StarStar.s1 y).
Proof.
  assert (H1 : wf (Xoshiro256StarStar.Mk 1 2 3 4))
    by (unfold wf, is_uint64; cbn; lia).
  assert (H2 : wf (Xoshiro256StarStar.Mk 5 2 7 8))
    by (unfold wf, is_uint64; cbn; lia).
  split; [exact H1|]. split; [exact H2|].
  exact (xoshiro_word_determines_s1 _ _ H1 H2).
Defined.

End Bijections.

(** ** xoshiro256starstar: the orbit of a state *)

Module XoshiroOrbit.
Import Xoshiro256StarStar XoshiroFacts.

(** The characteristic polynomial without its constant term 1, divided
    by [x]: the inverse of the transition, as a polynomial in it. *)
Definition chi_tail : list bool := tl chi.

Lemma chi_split : chi = true :: chi_tail.
Proof. vm_compute. reflexivity. Qed.

Lemma ev_cons (T : Xoshiro256StarStar -> Xoshiro256StarStar) (b : bool)
  (p : list bool) (x : Xoshiro256StarStar) :
  ev T (b :: p) x = if b then xor_state x (ev T p (T x)) else ev T p (T x).
Proof. reflexivity. Qed.

Lemma xor_zero_eq (a b : Xoshiro256StarStar) : xor_state a b = zero -> b = a.
Proof.
  destruct a as [a0 a1 a2 a3], b as [b0 b1 b2 b3]. unfold xor_state, zero.
  cbn [s0 s1 s2 s3]. intros [= H0 H1 H2 H3].
  apply Z.lxor_eq in H0, H1, H2, H3. subst. reflexivity.
Qed.

Lemma step'_inverse (x : Xoshiro256StarStar) :
  wf x -> ev step' chi_tail (step' x) = x.
Proof.
  intros Hx. pose proof (chi_annihilates x Hx) as H.
  rewrite chi_split, ev_cons in H. apply xor_zero_eq, H.
Qed.

Lemma step_inj (x y : Xoshiro256StarStar) :
  wf x -> wf y -> step x = step y -> x = y.
Proof.
  intros Hx Hy H. rewrite (step_step' x Hx), (step_step' y Hy) in H.
  rewrite <- (step'_inverse x Hx), <- (step'_inverse y Hy), H. reflexivity.
Qed.

Lemma step_zero : step zero = zero.
Proof. reflexivity. Qed.

Lemma step_nonzero (x : Xoshiro256StarStar) : wf x -> x <> zero -> step x <> zero.
Proof.
  intros Hx Hne H. apply Hne, (step_inj x zero Hx wf_zero).
  rewrite step_zero. exact H.
Qed.

Lemma iter_nonzero (k : nat) (x : Xoshiro256StarStar) :
  wf x -> x <> zero -> wf (Nat.iter k step x) /\ Nat.iter k step x <> zero.
Proof.
  intros Hx Hne. induction k as [|k [IHw IHn]]; [split; assumption|].
  rewrite Nat.iter_succ. split; [apply step_wf, IHw|apply step_nonzero; assumption].
Qed.

(** X26: the transition of [Uint64] is one-to-one on states of four 64-bit
    words, so the all-zero state, which it never leaves, is never
    entered either: from a state that is not all-zero no number of
    draws leads to it. *)
Theorem transition_injective (x y : Xoshiro256StarStar) (k : nat) :
  wf x -> wf y ->
  (snd (Uint64 x) = snd (Uint64 y) -> x = y)
  /\ (x <> zero -> Nat.iter k (fun x => snd (Uint64 x)) x <> zero).
Proof.
  intros Hx Hy. split; [exact (step_inj x y Hx Hy)|].
  intros Hne. exact (proj2 (iter_nonzero k x Hx Hne)).
Qed.

Lemma transition_injective_witness :
  wf (Mk 1 2 3 4) /\ wf (Mk 1 2 3 5)
  /\ (snd (Uint64 (Mk 1 2 3 4)) = snd (Uint64 (Mk 1 2 3 5)) -> Mk 1 2 3 4 = Mk 1 2 3 5)
  /\ (Mk 1 2 3 4 <> zero
      -> Nat.iter 3 (fun x => snd (Uint64 x)) (Mk 1 2 3 4) <> zero).
Proof.
  assert (H1 : wf (Mk 1 2 3 4)) by (unfold wf, is_uint64; cbn [s0 s1 s2 s3]; lia).
  assert (H2 : wf (Mk 1 2 3 5)) by (unfold wf, is_uint64; cbn [s0 s1 s2 s3]; lia).
  split; [exact H1|]. split; [exact H2|].
  exact (transition_injective (Mk 1 2 3 4) (Mk 1 2 3 5) 3 H1 H2).
Defined.

(** *** A seeded generator is never all-zero *)

Lemma Seed_four_words (now seed : Z) (x : Xoshiro256StarStar) :
  let g := SplitMix64.Mk (if seed =? 0 then now else seed) in
  Seed now seed x
  = Mk (fst (SplitMix64.Uint64 (SeedFacts.after 0 g)))
       (fst (SplitMix64.Uint64 (SeedFacts.after 1 g)))
       (fst (SplitMix64.Uint64 (SeedFacts.after 2 g)))
       (fst (SplitMix64.Uint64 (SeedFacts.after 3 g))).
Proof.
  cbv zeta. unfold Seed. rewrite !SeedFacts.closure_is_Uint64. reflexivity.
Qed.

Lemma Seed_wf (now seed : Z) (x : Xoshiro256StarStar) : wf (Seed now seed x).
Proof.
  rewrite Seed_four_words. unfold wf. cbn [s0 s1 s2 s3].
  repeat apply conj; apply DerivedWords.splitmix64_Uint64_uint64.
Qed.

Lemma words_differ (j k : nat) (g : SplitMix64.SplitMix64) :
  (j < k < 4)%nat ->
  fst (SplitMix64.Uint64 (SeedFacts.after j g))
  <> fst (SplitMix64.Uint64 (SeedFacts.after k g)).
Proof.
  intros Hjk H. apply Bijections.words_equal_apart in H.
  destruct H as [q Hq]. lia.
Qed.

Lemma Seed_NoDup (now seed : Z) (x : Xoshiro256StarStar) :
  NoDup [s0 (Seed now seed x); s1 (Seed now seed x);
         s2 (Seed now seed x); s3 (Seed now seed x)].
Proof.
  rewrite Seed_four_words. cbn [s0 s1 s2 s3].
  set (g := SplitMix64.Mk (if seed =? 0 then now else seed)).
  pose proof (words_differ 0 1 g ltac:(lia)).
  pose proof (words_differ 0 2 g ltac:(lia)).
  pose proof (words_differ 0 3 g ltac:(lia)).
  pose proof (words_differ 1 2 g ltac:(lia)).
  pose proof (words_differ 1 3 g ltac:(lia)).
  pose proof (words_differ 2 3 g ltac:(lia)).
  repeat (apply NoDup_cons; split; [rewrite ?not_elem_of_cons; repeat split;
                                     try assumption; apply not_elem_of_nil|]).
  apply NoDup_nil. exact I.
Qed.

Lemma Seed_nonzero (now seed : Z) (x : Xoshiro256StarStar) : Seed now seed x <> zero.
Proof.
  intros E. pose proof (Seed_NoDup now seed x) as H. rewrite E in H.
  cbn [s0 s1 s2 s3 zero] in H. apply NoDup_cons in H as [H _].
  apply H. left.
Qed.

Lemma fold_const {S A : Type} (f : S -> S) (l : list A) :
  forall s, fold_left (fun s _ => f s) l s = Nat.iter (length l) f s.
Proof.
  induction l as [|a l IH]; intros s; [reflexivity|].
  cbn [fold_left length]. rewrite IH, Nat.iter_succ_r. reflexivity.
Qed.

Lemma New_steps (t now : Z) : New t now = Nat.iter 10 step (Seed now t zero).
Proof.
  unfold New, for_loop.
  exact (fold_const step (seq 0 (10 - 0)) (Seed now t zero)).
Qed.

(** X27: [Seed] never leaves the all-zero state behind, whatever the seed
    and the clock: the four words it stores are pairwise different, so
    at most one of them is 0, and no number of draws after it, the ten
    of the warm-up of [New] among them, reaches the all-zero state. *)
Theorem Seed_never_zero (now seed t : Z) (x : Xoshiro256StarStar) (k : nat) :
  NoDup [s0 (Seed now seed x); s1 (Seed now seed x);
         s2 (Seed now seed x); s3 (Seed now seed x)]
  /\ Nat.iter k (fun x => snd (Uint64 x)) (Seed now seed x) <> zero
  /\ New t now = Nat.iter 10 (fun x => snd (Uint64 x)) (Seed now t zero)
  /\ Nat.iter k (fun x => snd (Uint64 x)) (New t now) <> zero.
Proof.
  split; [apply Seed_NoDup|]. split; [|split].
  - exact (proj2 (iter_nonzero k _ (Seed_wf now seed x) (Seed_nonzero now seed x))).
  - exact (New_steps t now).
  - rewrite New_steps.
    destruct (iter_nonzero 10 _ (Seed_wf now t zero) (Seed_nonzero now t zero))
      as [Hw Hn].
    exact (proj2 (iter_nonzero k _ Hw Hn)).
Qed.

(** *** Jumps and steps commute *)

Lemma iter2_T (f : Xoshiro256StarStar -> Xoshiro256StarStar) (k : nat) :
  forall x, iter2 k f (f x) = f (iter2 k f x).
Proof.
  induction k as [|k IH]; intros x; [reflexivity|].
  cbn [iter2]. rewrite !IH. reflexivity.
Qed.

Lemma iter2_comm (f : Xoshiro256StarStar -> Xoshiro256StarStar) (a b : nat)
  (x : Xoshiro256StarStar) :
  iter2 a f (iter2 b f x) = iter2 b f (iter2 a f x).
Proof.
  rewrite <- !N_iter_pow2, <- !N.iter_add, N.add_comm. reflexivity.
Qed.

Lemma jump_with_iter2 (jump : list Z) (k : nat) :
  (forall y, wf y -> ev step' (jbits jump) y = iter2 k step' y) ->
  forall x, wf x -> jump_with jump x = iter2 k step' x.
Proof.
  intros H x Hx. rewrite jump_with_ev, (ev_step_step' _ x Hx). apply H, Hx.
Qed.

Lemma jump_with_step (jump : list Z) (k : nat) :
  (forall y, wf y -> ev step' (jbits jump) y = iter2 k step' y) ->
  forall x, wf x -> jump_with jump (step x) = step (jump_with jump x).
Proof.
  intros H x Hx.
  rewrite (jump_with_iter2 jump k H (step x) (step_wf x Hx)).
  rewrite (jump_with_iter2 jump k H x Hx).
  rewrite (step_step' x Hx), iter2_T.
  symmetry. apply step_step', (iter2_wf step' step'_wf), Hx.
Qed.

(** X28: [Jump] and [LongJump] commute with the transition of [Uint64] and
    with each other: drawing a word and then jumping leaves the state
    of jumping and then drawing, and the two jumps may be made in either
    order. *)
Theorem jumps_commute (x : Xoshiro256StarStar) :
  wf x ->
  Jump (snd (Uint64 x)) = snd (Uint64 (Jump x))
  /\ LongJump (snd (Uint64 x)) = snd (Uint64 (LongJump x))
  /\ Jump (LongJump x) = LongJump (Jump x).
Proof.
  intros Hx. split; [|split].
  - exact (jump_with_step JUMP 128 jump_poly x Hx).
  - exact (jump_with_step LONG_JUMP 192 long_jump_poly x Hx).
  - unfold Jump, LongJump.
    rewrite (jump_with_iter2 LONG_JUMP 192 long_jump_poly x Hx).
    rewrite (jump_with_iter2 JUMP 128 jump_poly x Hx).
    rewrite (jump_with_iter2 JUMP 128 jump_poly _ (iter2_wf step' step'_wf 192 x Hx)).
    rewrite (jump_with_iter2 LONG_JUMP 192 long_jump_poly _
               (iter2_wf step' step'_wf 128 x Hx)).
    apply iter2_comm.
Qed.

Lemma jumps_commute_witness :
  wf (Mk 1 2 3 4)
  /\ Jump (snd (Uint64 (Mk 1 2 3 4))) = snd (Uint64 (Jump (Mk 1 2 3 4)))
  /\ LongJump (snd (Uint64 (Mk 1 2 3 4))) = snd (Uint64 (LongJump (Mk 1 2 3 4)))
  /\ Jump (LongJump (Mk 1 2 3 4)) = LongJump (Jump (Mk 1 2 3 4)).
Proof.
  assert (H : wf (Mk 1 2 3 4)) by (unfold wf, is_uint64; cbn [s0 s1 s2 s3]; lia).
  split; [exact H|]. exact (jumps_commute (Mk 1 2 3 4) H).
Defined.

(** *** [LongJump] is 2^64 [Jump]s *)

Section Compose.
Variables (J T : Xoshiro256StarStar -> Xoshiro256StarStar) (p : N).
Hypothesis J_T : forall y, wf y -> J y = N.iter p T y.
Hypothesis T_wf : forall y, wf y -> wf (T y).

Lemma iter_wf (n : N) : forall y, wf y -> wf (N.iter n T y).
Proof.
  induction n as [|n IH] using N.peano_ind; intros y Hy; [exact Hy|].
  rewrite N.iter_succ. apply T_wf, IH, Hy.
Qed.

Lemma iter_compose (n : N) :
  forall x, wf x -> wf (N.iter n J x) /\ N.iter n J x = N.iter (n * p) T x.
Proof.
  induction n as [|n IH] using N.peano_ind; intros x Hx.
  - rewrite N.mul_0_l. split; [exact Hx|reflexivity].
  - destruct (IH x Hx) as [Hw E]. rewrite N.iter_succ, (J_T _ Hw).
    split; [apply iter_wf, Hw|].
    rewrite E, <- N.iter_add. f_equal. lia.
Qed.

End Compose.

Lemma Jump_steps (y : Xoshiro256StarStar) :
  wf y -> Jump y = N.iter (2 ^ N.of_nat 128) step y.
Proof. exact (jump_with_pow2 JUMP 128 y jump_poly). Qed.

Lemma LongJump_steps (y : Xoshiro256StarStar) :
  wf y -> LongJump y = N.iter (2 ^ N.of_nat 192) step y.
Proof. exact (jump_with_pow2 LONG_JUMP 192 y long_jump_poly). Qed.

Lemma pow_192 : (2 ^ 64 * 2 ^ N.of_nat 128 = 2 ^ N.of_nat 192)%N.
Proof. reflexivity. Qed.

(** X29: 2^64 calls of [Jump] in a row arrive at the state one [LongJump]
    leaves: the long jump is the distance between two of the 2^64
    starting points reached by jumping. *)
Theorem LongJump_is_2_64_Jumps (x : Xoshiro256StarStar) :
  wf x -> N.iter (2 ^ 64) Jump x = LongJump x.
Proof.
  intros Hx.
  destruct (iter_compose Jump step (2 ^ N.of_nat 128) Jump_steps step_wf
              (2 ^ 64) x Hx) as [_ E].
  rewrite E, pow_192. symmetry. apply LongJump_steps, Hx.
Qed.

Lemma LongJump_is_2_64_Jumps_witness :
  wf (Mk 1 2 3 4) /\ N.iter (2 ^ 64) Jump (Mk 1 2 3 4) = LongJump (Mk 1 2 3 4).
Proof.
  assert (H : wf (Mk 1 2 3 4)) by (unfold wf, is_uint64; cbn [s0 s1 s2 s3]; lia).
  split; [exact H|]. exact (LongJump_is_2_64_Jumps (Mk 1 2 3 4) H).
Defined.

End XoshiroOrbit.

(** ** pcg32: the upper edge of [Float32] *)

Module FloatEdge.

(** The binary32 number 1: [8388608 * 2^-23]. *)
Definition one32 : spec_float := S754_finite false 8388608 (-23).

Definition is_one32 (f : spec_float) : bool :=
  match f with
  | S754_finite false m e => (m =? 8388608)%positive && (e =? -23)
  | _ => false
  end.

Lemma is_one32_sound (f : spec_float) : is_one32 f = true -> f = one32.
Proof.
  destruct f as [| | |[] m e]; try discriminate. cbn [is_one32].
  intros H. apply andb_prop in H as [Hm He].
  apply Pos.eqb_eq in Hm. apply Z.eqb_eq in He. subst. reflexivity.
Qed.

(** [float32(v) / (1 << 32)] *)
Definition quotient32 (v : Z) : spec_float :=
  SpecFloat.SFdiv 24 128 (PCG32.float32_of_int v) (PCG32.float32_of_int (2 ^ 32)).

(** The 128 largest 32-bit words. *)
Definition top_words : list Z :=
  map (fun i => 2 ^ 32 - 128 + Z.of_nat i) (seq 0 128).

Lemma top_words_one : forallb (fun v => is_one32 (quotient32 v)) top_words = true.
Proof. vm_compute. reflexivity. Qed.

Lemma top_word_one (v : Z) :
  2 ^ 32 - 128 <= v < 2 ^ 32 -> quotient32 v = one32.
Proof.
  intros Hv. apply is_one32_sound.
  apply (proj1 (forallb_forall _ top_words) top_words_one).
  unfold top_words. apply in_map_iff.
  exists (Z.to_nat (v - (2 ^ 32 - 128))). split; [lia|].
  apply in_seq. lia.
Qed.

(** X30: [Float32] returns exactly 1 whenever [Next] returns one of the 128
    largest words, [0xffffff80] and above: the conversion to [float32]
    rounds such a word to 2^32, and the quotient by 2^32 is 1.  The
    generator is left as [Next] leaves it. *)
Theorem Float32_returns_one (p : PCG32.PCG32) :
  2 ^ 32 - 128 <= fst (PCG32.Next p) ->
  PCG32.Float32 p = (S754_finite false 8388608 (-23), snd (PCG32.Next p)).
Proof.
  intros Hv.
  assert (Hu : is_uint32 (fst (PCG32.Next p))).
  { unfold PCG32.Next. cbn [fst].
    apply DerivedWords.RotateLeft32_uint32, wrap32_range. }
  unfold PCG32.Float32. destruct (PCG32.Next p) as [v p']. cbn [fst snd] in *.
  f_equal. apply top_word_one. unfold is_uint32 in Hu. lia.
Qed.

Lemma Float32_returns_one_witness :
  let p := PCG32.Mk 0x7fffe0000000000 1 in
  fst (PCG32.Next p) = 0xffffffff
  /\ 2 ^ 32 - 128 <= fst (PCG32.Next p)
  /\ PCG32.Float32 p = (S754_finite false 8388608 (-23), snd (PCG32.Next p)).
Proof.
  cbv zeta.
  assert (H : 2 ^ 32 - 128 <= fst (PCG32.Next (PCG32.Mk 0x7fffe0000000000 1)))
    by (vm_compute; discriminate).
  split; [vm_compute; reflexivity|].
  split; [exact H|]. exact (Float32_returns_one _ H).
Defined.

End FloatEdge.
